(** * TaskFlow API: the asynchronous task-lifecycle pipeline

    A shallow embedding of the producer side ([TasksService]:
    [create], [update], [batchUpdateStatus], [findAll], [updateStatus]),
    of the scheduler's tick ([OverdueTasksService.checkOverdueTasks]), of
    the consumer side ([TaskProcessorService]: [process],
    [handleStatusUpdate], [handleOverdueTasks]) and of the queue's retry
    policy, followed by the properties the specification states about
    them.

    Around the pipeline, the file also embeds the rest of [TasksService]
    ([findOne], [remove], [batchDelete], [getTaskStatistics]), the tasks
    controller, the rate-limit guard with the Redis commands it issues,
    and the account services ([UsersService], [AuthService]), each with
    the properties its code shows.

    Asynchronous methods are written in a state-and-exception monad over
    a [World] that holds the tasks table, the 'task-processing' queue,
    the logger's output and the mail transport's record of calls.  What
    the environment decides (clock readings, generated keys, whether a
    write, an enqueue or a mail delivery succeeds) is read from an
    [Env]. *)

From Stdlib Require Import ZArith Lia Sorted Ascii.
From stdpp Require Import base option list strings gmap pretty.

Local Open Scope Z_scope.
Local Open Scope nat_scope.

(** ** Data model *)

(** Modelled from the spec: modules/tasks/enums/task-status.enum.ts is
    not among the sources; section 3 gives
    [status: enum{pending, in_progress, completed}]. *)
Inductive TaskStatus := PENDING | IN_PROGRESS | COMPLETED.

(** Modelled from the spec: modules/tasks/enums/task-priority.enum.ts is
    not among the sources; section 3 gives
    [priority: enum{low, medium, high}]. *)
Inductive TaskPriority := LOW | MEDIUM | HIGH.

#[global] Instance TaskStatus_eq_dec : EqDecision TaskStatus.
Proof. solve_decision. Defined.

#[global] Instance TaskPriority_eq_dec : EqDecision TaskPriority.
Proof. solve_decision. Defined.

(** The string each enum member stands for at run time. *)
Definition TaskStatus_value (s : TaskStatus) : string :=
  match s with
  | PENDING => "pending"
  | IN_PROGRESS => "in_progress"
  | COMPLETED => "completed"
  end.

(** The double quote, as a string. *)
Definition dquote : string := String "034"%char EmptyString.

(** [Object.values(TaskStatus)]. *)
Definition TaskStatus_values : list string :=
  TaskStatus_value <$> [PENDING; IN_PROGRESS; COMPLETED].

(** Timestamps are milliseconds since the Unix epoch, as a JS [Date]
    holds them. *)
Definition Date := Z.

(** [new Date('1900-01-01')] and [new Date('2100-01-01')]. *)
Definition date_1900_01_01 : Date := (-2208988800000)%Z.
Definition date_2100_01_01 : Date := 4102444800000%Z.

(** Modelled from the spec: modules/users/entities/user.entity.ts is not
    among the sources; the sweep reads [email] and [name] of a task's
    user. *)
Record User := mkUser {
  user_id : string;
  email : string;
  name : string;
}.

(** Modelled from the spec: modules/tasks/entities/task.entity.ts is not
    among the sources; section 3 gives
    [{id, title, status, priority, dueDate, userId, createdAt}], the DTOs
    add the optional [description], and [user] is the relation that
    [relations: ['user']] loads. *)
Record Task := mkTask {
  id : string;
  title : string;
  description : option string;
  status : TaskStatus;
  priority : TaskPriority;
  dueDate : option Date;
  userId : string;
  createdAt : Date;
  user : option User;
}.

(** Modelled from the spec: modules/tasks/dto/task-response.dto.ts is not
    among the sources; callers read [id], [title], [status], [dueDate]
    and [user] from the DTO, so it carries the entity's fields. *)
Record TaskResponseDto := mkTaskResponseDto { entity : Task }.

(** create-task.dto.ts *)
Record CreateTaskDto := mkCreateTaskDto {
  c_title : string;
  c_description : option string;
  c_status : option TaskStatus;
  c_priority : option TaskPriority;
  c_dueDate : option Date;
}.

(** Modelled from the spec: modules/tasks/dto/update-task.dto.ts is not
    among the sources; it is the partial type of [CreateTaskDto]. *)
Record UpdateTaskDto := mkUpdateTaskDto {
  u_title : option string;
  u_description : option string;
  u_status : option TaskStatus;
  u_priority : option TaskPriority;
  u_dueDate : option Date;
}.

(** task-filter.dto.ts, with [page] and [limit] of [PaginationDto]. *)
Record TaskFilterDto := mkTaskFilterDto {
  f_page : option nat;
  f_limit : option nat;
  f_title : option string;
  f_status : option TaskStatus;
  f_priority : option TaskPriority;
  f_dueDateBefore : option Date;
  f_dueDateAfter : option Date;
  f_userId : option string;
}.

(** pagination.dto.ts: [totalPages = Math.ceil(total / limit)]. *)
Record PaginatedResponseDto (T : Type) := mkPaginatedResponseDto {
  data : list T;
  total : nat;
  page : nat;
  limit : nat;
  totalPages : nat;
}.
Arguments mkPaginatedResponseDto {T}.
Arguments data {T}.
Arguments total {T}.
Arguments page {T}.
Arguments limit {T}.
Arguments totalPages {T}.

Definition ceil_div (a b : nat) : nat := (a + (b - 1)) / b.

Definition new_PaginatedResponseDto {T} (d : list T) (tot pg lim : nat)
  : PaginatedResponseDto T :=
  mkPaginatedResponseDto d tot pg lim (ceil_div tot lim).

(** ** Job payloads

    A job's [data] is a JSON object; the worker receives whatever a
    producer put there, so a field may be absent or of any JSON type. *)
Inductive JsVal :=
  | JUndefined
  | JNull
  | JBool (b : bool)
  | JNum (z : Z)
  | JStr (s : string).

#[global] Instance JsVal_eq_dec : EqDecision JsVal.
Proof. solve_decision. Defined.

(** JS truthiness: what [!v] tests. *)
Definition truthy (v : JsVal) : bool :=
  match v with
  | JUndefined | JNull => false
  | JBool b => b
  | JNum z => negb (z =? 0)%Z
  | JStr s => negb (bool_decide (s = ""))
  end.

(** Template-literal interpolation of a payload value. *)
Definition js_to_string (v : JsVal) : string :=
  match v with
  | JUndefined => "undefined"
  | JNull => "null"
  | JBool true => "true"
  | JBool false => "false"
  | JNum z => pretty z
  | JStr s => s
  end.

(** Property access on a payload: an absent field reads as [undefined]. *)
Definition js_get (o : gmap string JsVal) (k : string) : JsVal :=
  default JUndefined (o !! k).

(** [Object.values(TaskStatus).includes(v)], with the member found. *)
Definition as_TaskStatus (v : JsVal) : option TaskStatus :=
  match v with
  | JStr s =>
      List.find (λ m, bool_decide (TaskStatus_value m = s))
                [PENDING; IN_PROGRESS; COMPLETED]
  | _ => None
  end.

Inductive BackoffType := exponential | fixed.

Record Backoff := mkBackoff { backoff_type : BackoffType; delay : nat }.

(** The job options the producers pass to [Queue.add]. *)
Record JobsOptions := mkJobsOptions {
  attempts : nat;
  backoff : option Backoff;
  removeOnComplete : option bool;
  removeOnFail : option bool;
}.

(** Modelled from the spec: the queue is BullMQ's, not among the sources;
    section 3 gives a job's states and section 4.1 its transitions. *)
Inductive JobState :=
  | Waiting
  | Delayed (ms : nat)
  | Completed
  | Failed.

Record Job := mkJob {
  job_id : string;
  job_name : string;
  job_data : gmap string JsVal;
  job_opts : JobsOptions;
  attemptsMade : nat;
  job_state : JobState;
}.

(** ** Logger and mail transport *)

Inductive LogLevel := LOG | ERROR | WARN | DEBUG | VERBOSE.

#[global] Instance LogLevel_eq_dec : EqDecision LogLevel.
Proof. solve_decision. Defined.

Record LogEntry := mkLogEntry { level : LogLevel; text : string }.

Record SendMailOptions := mkSendMailOptions {
  to : string;
  subject : string;
  html : string;
}.

(** One call of [mailerService.sendMail]: the task it was made for, what
    was passed, and whether the transport delivered. *)
Record MailCall := mkMailCall {
  mail_task : string;
  mail_options : SendMailOptions;
  delivered : bool;
}.

(** One [findAndCount] of the tasks repository: the window asked for and
    the rows it returned. *)
Record PageRead := mkPageRead {
  read_skip : nat;
  read_take : nat;
  read_rows : list Task;
}.

(** ** World and environment *)

Record World := mkWorld {
  tasks : list Task;        (* the tasks table, in insertion order *)
  queue : list Job;         (* the 'task-processing' queue *)
  logs : list LogEntry;     (* what the loggers wrote *)
  outbox : list MailCall;   (* the calls of sendMail *)
  reads : list PageRead;    (* the paginated reads of the table *)
  ticks : nat;              (* clock readings taken so far *)
}.

Record Env := mkEnv {
  clock : nat → Date;       (* the k-th reading of the clock *)
  uuid : nat → string;      (* the key generated for the k-th row *)
  save_ok : bool;           (* the database accepts writes *)
  add_ok : bool;            (* the queue accepts jobs *)
  smtp_ok : nat → SendMailOptions → bool;  (* the k-th sendMail delivers *)
  toLocaleDateString : Date → string;
  toISOString : Date → string;
  commit_ok : bool;         (* the database commits a transaction *)
  user_of : string → option User;  (* the users table, by key *)
}.

Definition set_tasks (ts : list Task) (w : World) : World :=
  mkWorld ts (queue w) (logs w) (outbox w) (reads w) (ticks w).
Definition set_queue (q : list Job) (w : World) : World :=
  mkWorld (tasks w) q (logs w) (outbox w) (reads w) (ticks w).
Definition set_logs (l : list LogEntry) (w : World) : World :=
  mkWorld (tasks w) (queue w) l (outbox w) (reads w) (ticks w).
Definition set_outbox (o : list MailCall) (w : World) : World :=
  mkWorld (tasks w) (queue w) (logs w) o (reads w) (ticks w).
Definition set_reads (r : list PageRead) (w : World) : World :=
  mkWorld (tasks w) (queue w) (logs w) (outbox w) r (ticks w).
Definition set_ticks (n : nat) (w : World) : World :=
  mkWorld (tasks w) (queue w) (logs w) (outbox w) (reads w) n.

(** ** The monad of asynchronous methods *)

Inductive Exn :=
  | UnrecoverableError (message : string)   (* bullmq *)
  | NotFoundException (message : string)    (* @nestjs/common *)
  | QueryFailedError (message : string)     (* typeorm: a write failed *)
  | QueueError (message : string)           (* the queue refused a job *)
  | MailError (message : string)            (* the transport failed *)
  | TypeError (message : string).

Definition exn_message (e : Exn) : string :=
  match e with
  | UnrecoverableError m | NotFoundException m | QueryFailedError m
  | QueueError m | MailError m | TypeError m => m
  end.

(** [error instanceof UnrecoverableError]. *)
Definition is_UnrecoverableError (e : Exn) : bool :=
  match e with UnrecoverableError _ => true | _ => false end.

(** A method returns, throws, or is still running when the fuel given to
    its loops is spent. *)
Inductive Outcome (A : Type) :=
  | Ok (a : A)
  | Throw (e : Exn)
  | OutOfFuel.
Arguments Ok {A}.
Arguments Throw {A}.
Arguments OutOfFuel {A}.

Definition M (A : Type) : Type := Env → World → Outcome A * World.

Definition M_ret {A} (a : A) : M A := λ _ w, (Ok a, w).

Definition M_bind {A B} (f : A → M B) (m : M A) : M B :=
  λ env w,
    match m env w with
    | (Ok a, w') => f a env w'
    | (Throw e, w') => (Throw e, w')
    | (OutOfFuel, w') => (OutOfFuel, w')
    end.

#[global] Instance M_MRet : MRet M := @M_ret.
#[global] Instance M_MBind : MBind M := @M_bind.

Definition throw {A} (e : Exn) : M A := λ _ w, (Throw e, w).
Definition out_of_fuel {A} : M A := λ _ w, (OutOfFuel, w).

(** [try { body } catch (error) { handler(error) }]. *)
Definition try_catch {A} (body : M A) (handler : Exn → M A) : M A :=
  λ env w,
    match body env w with
    | (Throw e, w') => handler e env w'
    | r => r
    end.

(** A promise that is started and never awaited: its effects happen, its
    result and its rejection are dropped. *)
Definition not_awaited {A} (m : M A) : M unit :=
  λ env w,
    match m env w with
    | (OutOfFuel, w') => (OutOfFuel, w')
    | (_, w') => (Ok (), w')
    end.

Definition get_world : M World := λ _ w, (Ok w, w).
Definition get_env : M Env := λ env w, (Ok env, w).
Definition modify (f : World → World) : M unit := λ _ w, (Ok (), f w).

(** [for (const x of xs) { body(x) }]. *)
Fixpoint for_of {A} (xs : list A) (body : A → M unit) : M unit :=
  match xs with
  | [] => mret ()
  | x :: xs' => body x ;; for_of xs' body
  end.

Definition logger (lv : LogLevel) (msg : string) : M unit :=
  modify (λ w, set_logs (logs w ++ [mkLogEntry lv msg]) w).

(** [new Date()]. *)
Definition new_Date : M Date :=
  λ env w, (Ok (clock env (ticks w)), set_ticks (S (ticks w)) w).

(** ** The tasks repository (TypeORM) *)

Inductive IdCondition :=
  | IdEquals (i : string)          (* { id } *)
  | IdIn (ids : list string).      (* { id: In(taskIds) } *)

(** A [where] object.  A property that is absent or [undefined] puts no
    condition on the rows. *)
Record TaskWhere := mkTaskWhere {
  where_id : option IdCondition;
  where_title : option string;              (* Like(`%${title}%`) *)
  where_status : option TaskStatus;
  where_priority : option TaskPriority;
  where_dueDate : option (Date * Date);     (* Between(lo, hi) *)
  where_userId : option string;
}.

(** [s LIKE pat], as PostgreSQL matches it: [%] stands for any run of
    characters, [_] for any one character, and a backslash makes the
    character after it stand for itself.  A title put between two [%]
    keeps the wildcards it holds. *)
Fixpoint like_from_some_suffix (k : string → bool) (s : string) : bool :=
  k s ||
  match s with
  | EmptyString => false
  | String _ s' => like_from_some_suffix k s'
  end.

Fixpoint like (pat s : string) : bool :=
  match pat with
  | EmptyString => bool_decide (s = EmptyString)
  | String c pat' =>
      if Ascii.eqb c "%"%char then like_from_some_suffix (like pat') s
      else if Ascii.eqb c "_"%char then
        match s with
        | String _ s' => like pat' s'
        | EmptyString => false
        end
      else if Ascii.eqb c "\"%char then
        match pat', s with
        | String c' pat'', String a s' => Ascii.eqb a c' && like pat'' s'
        | _, _ => false
        end
      else
        match s with
        | String a s' => Ascii.eqb a c && like pat' s'
        | EmptyString => false
        end
  end.

Definition where_matches (c : TaskWhere) (t : Task) : bool :=
  match where_id c with
  | None => true
  | Some (IdEquals i) => bool_decide (id t = i)
  | Some (IdIn ids) => bool_decide (id t ∈ ids)
  end
  && match where_title c with
     | None => true
     | Some pat => like ("%" +:+ pat +:+ "%") (title t)
     end
  && match where_status c with
     | None => true
     | Some s => bool_decide (status t = s)
     end
  && match where_priority c with
     | None => true
     | Some p => bool_decide (priority t = p)
     end
  && match where_dueDate c with
     | None => true
     | Some (lo, hi) =>
         match dueDate t with
         | Some d => (lo <=? d)%Z && (d <=? hi)%Z
         | None => false
         end
     end
  && match where_userId c with
     | None => true
     | Some u => bool_decide (userId t = u)
     end.

(** [order: { createdAt: 'DESC' }].  SQL leaves the order of rows
    created at the same instant open; they are taken to come in table
    order, at every read alike. *)
Fixpoint insert_DESC (t : Task) (rows : list Task) : list Task :=
  match rows with
  | [] => [t]
  | r :: rows' =>
      if (createdAt r <=? createdAt t)%Z then t :: r :: rows'
      else r :: insert_DESC t rows'
  end.

Definition order_createdAt_DESC (rows : list Task) : list Task :=
  foldr insert_DESC [] rows.

(** The rows a [where] selects, ordered. *)
Definition select (c : TaskWhere) (rows : list Task) : list Task :=
  order_createdAt_DESC (filter (λ t, where_matches c t) rows).

(** An entity as a read without [relations] hands it out, and one with
    the [user] that a read with [relations: ['user']] joins to its row. *)
Definition without_relations (t : Task) : Task :=
  mkTask (id t) (title t) (description t) (status t) (priority t)
         (dueDate t) (userId t) (createdAt t) None.

Definition with_user (u : option User) (t : Task) : Task :=
  mkTask (id t) (title t) (description t) (status t) (priority t)
         (dueDate t) (userId t) (createdAt t) u.

(** [repository.findOne({ where, relations: ['user'] })]. *)
Definition repo_findOne (c : TaskWhere) : M (option Task) :=
  w ← get_world;
  mret (head (filter (λ t, where_matches c t) (tasks w))).

(** [repository.findOne({ where })]: the relation is not loaded. *)
Definition repo_findOne_where (c : TaskWhere) : M (option Task) :=
  w ← get_world;
  mret (without_relations
          <$> head (filter (λ t, where_matches c t) (tasks w))).

(** [repository.findAndCount({ where, skip, take, order })]. *)
Definition repo_findAndCount (c : TaskWhere) (skip tk : nat)
  : M (list Task * nat) :=
  w ← get_world;
  let rows := select c (tasks w) in
  let window := take tk (drop skip rows) in
  modify (λ w, set_reads (reads w ++ [mkPageRead skip tk window]) w) ;;
  mret (window, length rows).

(** The columns of the row with the entity's key are overwritten; the
    user its [userId] joins to stays the same. *)
Definition replace_row (t : Task) (rows : list Task) : list Task :=
  (λ r, if bool_decide (id r = id t) then with_user (user r) t else r)
    <$> rows.

Definition has_row (i : string) (rows : list Task) : bool :=
  bool_decide (i ∈ (id <$> rows)).

(** [save(entity)]: an entity without a key (an empty [id] here) is
    inserted and gets its key and creation date from the database; one
    with a key replaces its row, or is inserted when no row has the key.
    The entity handed back is the one passed in, completed with what the
    database generated; the row of the table carries the user that later
    reads with [relations: ['user']] join to it. *)
Definition repo_save (t : Task) : M Task :=
  env ← get_env;
  if save_ok env then
    w ← get_world;
    if bool_decide (id t = "") then
      now ← new_Date;
      let saved :=
        mkTask (uuid env (length (tasks w))) (title t) (description t)
               (status t) (priority t) (dueDate t) (userId t) now (user t) in
      modify (set_tasks
        (tasks w ++ [with_user (user_of env (userId t)) saved])) ;;
      mret saved
    else if has_row (id t) (tasks w) then
      modify (set_tasks (replace_row t (tasks w))) ;;
      mret t
    else
      modify (set_tasks (tasks w ++ [with_user (user_of env (userId t)) t])) ;;
      mret t
  else throw (QueryFailedError "write failed").

Definition with_status (s : TaskStatus) (t : Task) : Task :=
  mkTask (id t) (title t) (description t) s (priority t) (dueDate t)
         (userId t) (createdAt t) (user t).

(** [repository.update(where, { status })]: one statement over all the
    rows the condition selects; returns [affected]. *)
Definition repo_update (c : TaskWhere) (s : TaskStatus) : M nat :=
  env ← get_env;
  if save_ok env then
    w ← get_world;
    modify (set_tasks
      ((λ r, if where_matches c r then with_status s r else r) <$> tasks w)) ;;
    mret (length (filter (λ t, where_matches c t) (tasks w)))
  else throw (QueryFailedError "write failed").

(** [repository.delete(criteria)]: one statement that removes the rows
    the condition selects; returns [affected]. *)
Definition repo_delete (c : TaskWhere) : M nat :=
  env ← get_env;
  if save_ok env then
    w ← get_world;
    modify (set_tasks (filter (λ t, ¬ where_matches c t) (tasks w))) ;;
    mret (length (filter (λ t, where_matches c t) (tasks w)))
  else throw (QueryFailedError "write failed").

(** [manager.transaction(callback)]: when the callback throws, the table
    is put back as it was and the error is thrown on; when it returns,
    the transaction is committed, and a commit that the database refuses
    puts the table back too and throws.  The queue, the logger and the
    clock are not part of the database and keep what the callback did to
    them. *)
Definition transaction {A} (callback : M A) : M A :=
  λ env w,
    match callback env w with
    | (Ok a, w') =>
        if commit_ok env then (Ok a, w')
        else (Throw (QueryFailedError "commit failed"),
              set_tasks (tasks w) w')
    | (Throw e, w') => (Throw e, set_tasks (tasks w) w')
    | (OutOfFuel, w') => (OutOfFuel, w')
    end.

(** ** The queue (BullMQ): [Queue.add] *)

Definition Queue_add (name : string) (payload : gmap string JsVal)
    (opts : JobsOptions) : M Job :=
  env ← get_env;
  if add_ok env then
    w ← get_world;
    let job :=
      mkJob (pretty (S (length (queue w)))) name payload opts 0 Waiting in
    modify (set_queue (queue w ++ [job])) ;;
    mret job
  else throw (QueueError "queue unavailable").

(** The payload [{ taskId, status }] of a 'task-status-update' job. *)
Definition status_update_payload (taskId : string) (s : TaskStatus)
  : gmap string JsVal :=
  <["taskId" := JStr taskId]> (<["status" := JStr (TaskStatus_value s)]> ∅).

(** [{ attempts: 3, backoff: { type: 'exponential', delay: 1000 } }]. *)
Definition retry_options : JobsOptions :=
  mkJobsOptions 3 (Some (mkBackoff exponential 1000)) None None.

(** ** tasks.service.ts *)

Module TasksService.

(** [transactionalEntityManager.create(Task, { ...dto, userId })]: the
    entity has no key yet; a status or priority left out takes the
    column's default, taken here to be pending and medium. *)
Definition create_entity (dto : CreateTaskDto) (uid : string) : Task :=
  mkTask "" (c_title dto) (c_description dto)
         (default PENDING (c_status dto))
         (default MEDIUM (c_priority dto))
         (c_dueDate dto) uid 0%Z None.

Definition create (createTaskDto : CreateTaskDto) (uid : string)
  : M TaskResponseDto :=
  logger LOG ("Attempting to create task for user: " +:+ uid) ;;
  transaction (
    let task := create_entity createTaskDto uid in
    savedTask ← repo_save task;
    Queue_add "task-status-update"
      (status_update_payload (id savedTask) (status savedTask))
      retry_options ;;
    logger LOG ("Task created and queued successfully: " +:+ id savedTask) ;;
    mret (mkTaskResponseDto savedTask)).

(** [Number(x) || d] for a page or a limit. *)
Definition Number_or (x : option nat) (d : nat) : nat :=
  match x with
  | Some (S n) => S n
  | _ => d
  end.

(** [if (title)]: an empty string is no filter. *)
Definition nonempty (s : option string) : option string :=
  match s with
  | Some s' => if bool_decide (s' = "") then None else Some s'
  | None => None
  end.

(** The [where] object [findAll] builds. *)
Definition findAll_where (queryDto : TaskFilterDto)
    (loggedInUserId : option string) (isAdmin : bool) : TaskWhere :=
  mkTaskWhere None
    (nonempty (f_title queryDto))
    (f_status queryDto)
    (f_priority queryDto)
    (match f_dueDateBefore queryDto, f_dueDateAfter queryDto with
     | Some before, Some after => Some (after, before)
     | Some before, None => Some (date_1900_01_01, before)
     | None, Some after => Some (after, date_2100_01_01)
     | None, None => None
     end)
    (if negb isAdmin then loggedInUserId
     else nonempty (f_userId queryDto)).

Definition findAll (queryDto : TaskFilterDto)
    (loggedInUserId : option string) (isAdmin : bool)
  : M (PaginatedResponseDto TaskResponseDto) :=
  logger LOG ("Fetching tasks for user: " +:+ default "N/A" loggedInUserId) ;;
  let pageNumber := Number_or (f_page queryDto) 1 in
  let limitNumber := Number_or (f_limit queryDto) 10 in
  let skip := (pageNumber - 1) * limitNumber in
  let where_ := findAll_where queryDto loggedInUserId isAdmin in
  '(rows, tot) ← repo_findAndCount where_ skip limitNumber;
  logger LOG ("Found " +:+ pretty (length rows) +:+ " tasks out of "
              +:+ pretty tot +:+ " total.") ;;
  let taskResponseDtos := mkTaskResponseDto <$> rows in
  mret (new_PaginatedResponseDto taskResponseDtos tot pageNumber limitNumber).

(** The [where] object [findOne] builds: the key, and the owner unless
    the caller is an admin. *)
Definition findOne_where (i : string) (loggedInUserId : option string)
    (isAdmin : bool) : TaskWhere :=
  mkTaskWhere (Some (IdEquals i)) None None None None
              (if negb isAdmin then loggedInUserId else None).

Definition findOne (i : string) (loggedInUserId : option string)
    (isAdmin : bool) : M Task :=
  logger LOG ("Fetching task with ID: " +:+ i) ;;
  let whereCondition := findOne_where i loggedInUserId isAdmin in
  task ← repo_findOne whereCondition;
  match task with
  | None =>
      logger WARN ("Task with ID " +:+ i +:+ " not found or not accessible.") ;;
      throw (NotFoundException
        ("Task with ID " +:+ i +:+ " not found or you do not have access."))
  | Some t =>
      logger LOG ("Task found: " +:+ id t) ;;
      mret t
  end.

(** [repository.merge(task, dto)]: the properties the DTO holds replace
    the entity's. *)
Definition merge (t : Task) (dto : UpdateTaskDto) : Task :=
  mkTask (id t)
         (default (title t) (u_title dto))
         (match u_description dto with Some d => Some d | None => description t end)
         (default (status t) (u_status dto))
         (default (priority t) (u_priority dto))
         (match u_dueDate dto with Some d => Some d | None => dueDate t end)
         (userId t) (createdAt t) (user t).

Definition update (i : string) (updateTaskDto : UpdateTaskDto)
    (loggedInUserId : string) (isAdmin : bool) : M TaskResponseDto :=
  logger LOG ("Updating task with ID: " +:+ i +:+ " for user: "
              +:+ loggedInUserId) ;;
  task ← findOne i (Some loggedInUserId) isAdmin;
  let originalStatus := status task in
  let task := merge task updateTaskDto in
  updatedTask ← repo_save task;
  (if negb (bool_decide (originalStatus = status updatedTask)) then
     logger LOG ("Task status changed. Adding job to queue: "
                 +:+ id updatedTask) ;;
     Queue_add "task-status-update"
       (status_update_payload (id updatedTask) (status updatedTask))
       retry_options ;;
     mret ()
   else mret ()) ;;
  logger LOG ("Task updated successfully: " +:+ id updatedTask) ;;
  mret (mkTaskResponseDto updatedTask).

(** The result [{ updated, failed }] of a batch operation. *)
Record BatchResult := mkBatchResult { updated : nat; failed : nat }.

Definition batchUpdateStatus (taskIds : list string) (newStatus : TaskStatus)
    (loggedInUserId : string) (isAdmin : bool) : M BatchResult :=
  logger LOG ("Batch updating status to " +:+ TaskStatus_value newStatus) ;;
  let whereCondition :=
    mkTaskWhere (Some (IdIn taskIds)) None None None None
                (if negb isAdmin then Some loggedInUserId else None) in
  affected ← repo_update whereCondition newStatus;
  for_of taskIds (λ taskId,
    not_awaited
      (Queue_add "task-status-update"
         (status_update_payload taskId newStatus) retry_options)) ;;
  logger LOG ("Batch status update completed. Affected: " +:+ pretty affected) ;;
  mret (mkBatchResult affected (length taskIds - affected)).

Definition updateStatus (i : string) (s : TaskStatus) : M TaskResponseDto :=
  logger LOG ("Updating status for task " +:+ i +:+ " to "
              +:+ TaskStatus_value s +:+ " (from worker)") ;;
  task ← repo_findOne_where
    (mkTaskWhere (Some (IdEquals i)) None None None None None);
  match task with
  | None =>
      logger ERROR ("Task with ID " +:+ i
                    +:+ " not found during status update from worker.") ;;
      throw (NotFoundException ("Task with ID " +:+ i +:+ " not found"))
  | Some t =>
      let task := with_status s t in
      updatedTask ← repo_save task;
      logger LOG ("Task " +:+ i +:+ " status updated to "
                  +:+ TaskStatus_value s +:+ " (from worker)") ;;
      mret (mkTaskResponseDto updatedTask)
  end.

(** [remove]: [findOne] checks existence and ownership, then the row is
    deleted by its key. *)
Definition remove (i : string) (loggedInUserId : string) (isAdmin : bool)
  : M unit :=
  logger LOG ("Attempting to remove task with ID: " +:+ i +:+ " for user: "
              +:+ loggedInUserId) ;;
  task ← findOne i (Some loggedInUserId) isAdmin;
  repo_delete (mkTaskWhere (Some (IdEquals (id task))) None None None None None) ;;
  logger LOG ("Task removed successfully: " +:+ i).

(** The result [{ deleted, failed }] of a batch deletion. *)
Record BatchDeleteResult := mkBatchDeleteResult {
  deleted : nat;
  delete_failed : nat;
}.

Definition batchDelete (taskIds : list string) (loggedInUserId : string)
    (isAdmin : bool) : M BatchDeleteResult :=
  logger LOG ("Batch deleting tasks for user: " +:+ loggedInUserId) ;;
  let whereCondition :=
    mkTaskWhere (Some (IdIn taskIds)) None None None None
                (if negb isAdmin then Some loggedInUserId else None) in
  affected ← repo_delete whereCondition;
  logger LOG ("Batch delete completed. Affected: " +:+ pretty affected) ;;
  mret (mkBatchDeleteResult affected (length taskIds - affected)).

(** [GROUP BY key] with [COUNT(task.id)]: one raw row per value that
    occurs, with the number of its rows. *)
Fixpoint count_group {K} `{EqDecision K} (k : K) (groups : list (K * nat))
  : list (K * nat) :=
  match groups with
  | [] => [(k, 1)]
  | (k', n) :: groups' =>
      if bool_decide (k' = k) then (k', S n) :: groups'
      else (k', n) :: count_group k groups'
  end.

Definition groupBy_count {K} `{EqDecision K} (key : Task → K)
    (rows : list Task) : list (K * nat) :=
  foldr (λ r groups, count_group (key r) groups) [] rows.

(** [stats.find(s => s.key === k)?.count || 0], the count taken as the
    number it denotes. *)
Definition find_count {K} `{EqDecision K} (k : K) (stats : list (K * nat))
  : nat :=
  default 0 (snd <$> List.find (λ g, bool_decide (fst g = k)) stats).

Module Statistics.
Record t := mk {
  total : nat;
  completed : nat;
  inProgress : nat;
  pending : nat;
  highPriority : nat;
  mediumPriority : nat;
  lowPriority : nat;
}.
End Statistics.

(** The rows the statistics query builder ranges over: those of the user,
    unless the caller is an admin or no user is given. *)
Definition statistics_rows (loggedInUserId : option string) (isAdmin : bool)
    (rows : list Task) : list Task :=
  match nonempty loggedInUserId with
  | Some uid =>
      if negb isAdmin then filter (λ t, userId t = uid) rows else rows
  | None => rows
  end.

Definition getTaskStatistics (loggedInUserId : option string)
    (isAdmin : bool) : M Statistics.t :=
  logger LOG ("Getting task statistics for user: "
              +:+ default "N/A" loggedInUserId) ;;
  w ← get_world;
  let rows := statistics_rows loggedInUserId isAdmin (tasks w) in
  let total := length rows in
  let statusStats := groupBy_count status rows in
  let priorityStats := groupBy_count priority rows in
  let statistics :=
    Statistics.mk total
      (find_count COMPLETED statusStats)
      (find_count IN_PROGRESS statusStats)
      (find_count PENDING statusStats)
      (find_count HIGH priorityStats)
      (find_count MEDIUM priorityStats)
      (find_count LOW priorityStats) in
  logger LOG "Task statistics generated." ;;
  mret statistics.

End TasksService.

(** ** tasks.controller.ts *)

(** [req.user], as the JWT guard leaves it on the request. *)
Record RequestUser := mkRequestUser {
  req_id : string;
  req_email : string;
  req_role : string;
}.

(** The exceptions the controller throws itself. *)
Inductive HttpException :=
  | ForbiddenException (msg : string)
  | BadRequestException (msg : string).

(** A handler throws before it reaches the service, or hands the request
    to the service and answers with what the service gives. *)
Inductive Handled (A : Type) :=
  | Refused (e : HttpException)
  | Served (o : Outcome A).
Arguments Refused {A}.
Arguments Served {A}.

(** [BatchTaskDto]; [action] is the string received, which validation
    restricts to 'complete' and 'delete'. *)
Record BatchTaskDto := mkBatchTaskDto {
  b_taskIds : list string;
  b_action : string;
}.

Module TasksController.

Definition Handler (A : Type) : Type := Env → World → Handled A * World.

Definition serve {A} (m : M A) : Handler A :=
  λ env w, let '(o, w') := m env w in (Served o, w').

Definition refuse {A} (e : HttpException) : Handler A :=
  λ _ w, (Refused e, w).

Definition isAdmin (req : RequestUser) : bool :=
  bool_decide (req_role req = "admin").

(** [queryDto.userId = req.user.id]. *)
Definition set_userId (u : string) (q : TaskFilterDto) : TaskFilterDto :=
  mkTaskFilterDto (f_page q) (f_limit q) (f_title q) (f_status q)
                  (f_priority q) (f_dueDateBefore q) (f_dueDateAfter q)
                  (Some u).

Definition create (createTaskDto : CreateTaskDto) (req : RequestUser)
  : Handler TaskResponseDto :=
  serve (TasksService.create createTaskDto (req_id req)).

Definition findAll (queryDto : TaskFilterDto) (req : RequestUser)
  : Handler (PaginatedResponseDto TaskResponseDto) :=
  let isAdmin := isAdmin req in
  match TasksService.nonempty (f_userId queryDto) with
  | Some userId =>
      if negb isAdmin && negb (bool_decide (userId = req_id req)) then
        refuse (ForbiddenException
          "You are not authorized to query tasks for other users.")
      else
        serve (TasksService.findAll queryDto (Some (req_id req)) isAdmin)
  | None =>
      let queryDto :=
        if negb isAdmin then set_userId (req_id req) queryDto
        else queryDto in
      serve (TasksService.findAll queryDto (Some (req_id req)) isAdmin)
  end.

Definition getStats (req : RequestUser)
  : Handler TasksService.Statistics.t :=
  serve (TasksService.getTaskStatistics (Some (req_id req)) (isAdmin req)).

Definition findOne (i : string) (req : RequestUser)
  : Handler Task :=
  serve (TasksService.findOne i (Some (req_id req)) (isAdmin req)).

Definition update (i : string) (updateTaskDto : UpdateTaskDto)
    (req : RequestUser) : Handler TaskResponseDto :=
  serve (TasksService.update i updateTaskDto (req_id req) (isAdmin req)).

Definition remove (i : string) (req : RequestUser) : Handler unit :=
  serve (TasksService.remove i (req_id req) (isAdmin req)).

Definition batchProcess (operations : BatchTaskDto) (req : RequestUser)
  : Handler (TasksService.BatchResult + TasksService.BatchDeleteResult) :=
  let taskIds := b_taskIds operations in
  let action := b_action operations in
  let isAdmin := isAdmin req in
  if bool_decide (action = "complete") then
    serve (r ← TasksService.batchUpdateStatus taskIds COMPLETED
                 (req_id req) isAdmin;
           mret (inl r))
  else if bool_decide (action = "delete") then
    serve (r ← TasksService.batchDelete taskIds (req_id req) isAdmin;
           mret (inr r))
  else
    refuse (BadRequestException ("Unknown batch action: " +:+ action)).

End TasksController.

(** ** The mail transport: [mailerService.sendMail]

    The call is recorded with the task it was made for; whether it
    delivers is the environment's choice. *)
Definition sendMail (taskId : string) (options : SendMailOptions) : M unit :=
  λ env w,
    let ok := smtp_ok env (length (outbox w)) options in
    let w' := set_outbox (outbox w ++ [mkMailCall taskId options ok]) w in
    if ok then (Ok (), w') else (Throw (MailError "sendMail failed"), w').

(** ** task-processor.service.ts *)

Module TaskProcessorService.

(** What a handler returns: [{ success: true, taskId, newStatus }] or
    [{ success: true, message }]. *)
Inductive JobResult :=
  | StatusUpdated (taskId : string) (newStatus : TaskStatus)
  | SweepCompleted (message : string).

Definition handleStatusUpdate (job : Job) : M JobResult :=
  let taskId := js_get (job_data job) "taskId" in
  let status_ := js_get (job_data job) "status" in
  logger LOG ("Handling status update for task " +:+ js_to_string taskId
              +:+ " to status " +:+ js_to_string status_) ;;
  if negb (truthy taskId) || negb (truthy status_) then
    logger ERROR ("Missing required data for task status update. Job ID: "
                  +:+ job_id job) ;;
    throw (UnrecoverableError "Missing required task ID or status for update.")
  else
    match as_TaskStatus status_ with
    | None =>
        logger ERROR ("Invalid task status value: " +:+ js_to_string status_
                      +:+ ". Job ID: " +:+ job_id job) ;;
        throw (UnrecoverableError
          ("Invalid task status value: " +:+ dquote
           +:+ js_to_string status_ +:+ dquote +:+ ". Must be one of: "
           +:+ String.concat ", " TaskStatus_values))
    | Some s =>
        try_catch
          (updatedTask ← TasksService.updateStatus (js_to_string taskId) s;
           logger LOG ("Task " +:+ js_to_string taskId
                       +:+ " status successfully updated to "
                       +:+ TaskStatus_value (status (entity updatedTask))
                       +:+ ".") ;;
           mret (StatusUpdated (id (entity updatedTask))
                               (status (entity updatedTask))))
          (λ error,
             logger ERROR ("Failed to update status for task "
                           +:+ js_to_string taskId +:+ ": "
                           +:+ exn_message error +:+ ". Job ID: "
                           +:+ job_id job) ;;
             throw error)
    end.

Definition batchSize : nat := 100.

Definition emailSubject (task : Task) : string :=
  "Action Required: Your Task " +:+ dquote +:+ title task +:+ dquote
  +:+ " is Overdue!".

(** The line break of the template literal, with the indentation of the
    line after it. *)
Definition template_break : string :=
  String "010"%char "                               ".

Definition emailBody (task : Task) (u : User) (due : string) : string :=
  "<p>Dear " +:+ (if bool_decide (name u = "") then "User" else name u)
  +:+ ",</p>" +:+ template_break
  +:+ "<p>Your task <strong>" +:+ dquote +:+ title task +:+ dquote
  +:+ "</strong> (ID: " +:+ id task +:+ ") was due on " +:+ due +:+ ".</p>"
  +:+ template_break
  +:+ "<p>Please log in to your dashboard to update its status</p>"
  +:+ template_break +:+ "<p>Thank you,</p>"
  +:+ template_break +:+ "<p>Your Task Management Team</p>".

(** The body of the loop over one page: the notification of one task. *)
Definition notify (dto : TaskResponseDto) : M unit :=
  let task := entity dto in
  match user task with
  | Some u =>
      if negb (bool_decide (email u = "")) then
        try_catch
          (due ← match dueDate task with
                 | Some d => env ← get_env; mret (toLocaleDateString env d)
                 | None => throw (TypeError "dueDate is null")
                 end;
           sendMail (id task)
             (mkSendMailOptions (email u) (emailSubject task)
                                (emailBody task u due)) ;;
           logger VERBOSE ("Directly sent overdue email for task "
                           +:+ id task +:+ " to " +:+ email u))
          (λ emailError,
             logger ERROR ("Failed to send email directly for task "
                           +:+ id task +:+ " to " +:+ email u +:+ ": "
                           +:+ exn_message emailError))
      else
        logger WARN ("Task " +:+ id task
          +:+ " has no associated user or email for notification. Skipping email.")
  | None =>
      logger WARN ("Task " +:+ id task
        +:+ " has no associated user or email for notification. Skipping email.")
  end.

(** The query of one page of the sweep.  [dueDateBefore] travels as an
    ISO string and [findAll] parses it back to the same instant. *)
Definition overdue_query (now : Date) (offset : nat) : TaskFilterDto :=
  mkTaskFilterDto (Some (offset / batchSize + 1)) (Some batchSize)
                  None (Some PENDING) None (Some now) None None.

(** [while (hasMoreTasks) { ... }]: one unit of fuel per iteration.  The
    loop ends on an empty page ([break]) or after a page shorter than
    [batchSize] ([hasMoreTasks = false]); otherwise [offset] moves on. *)
Fixpoint sweep (fuel offset totalOverdueProcessed : nat) : M nat :=
  match fuel with
  | 0 => out_of_fuel
  | S fuel' =>
      now ← new_Date;
      overdueTasks ← TasksService.findAll (overdue_query now offset) None false;
      if bool_decide (length (data overdueTasks) = 0) then
        mret totalOverdueProcessed
      else
        for_of (data overdueTasks) notify ;;
        let totalOverdueProcessed :=
          totalOverdueProcessed + length (data overdueTasks) in
        logger LOG ("Processed batch of "
                    +:+ pretty (length (data overdueTasks))
                    +:+ " overdue tasks.") ;;
        if bool_decide (length (data overdueTasks) < batchSize) then
          mret totalOverdueProcessed
        else sweep fuel' (offset + batchSize) totalOverdueProcessed
  end.

Definition completed_message (totalOverdueProcessed : nat) : string :=
  "Overdue tasks processing completed. Total: " +:+ pretty totalOverdueProcessed.

Definition handleOverdueTasks (fuel : nat) (job : Job) : M JobResult :=
  logger DEBUG "Processing overdue tasks notification." ;;
  try_catch
    (totalOverdueProcessed ← sweep fuel 0 0;
     logger LOG ("Finished processing overdue tasks. Total processed: "
                 +:+ pretty totalOverdueProcessed) ;;
     mret (SweepCompleted (completed_message totalOverdueProcessed)))
    (λ error,
       logger ERROR ("Error during overdue tasks processing job "
                     +:+ job_id job +:+ ": " +:+ exn_message error) ;;
       throw error).

Definition process (fuel : nat) (job : Job) : M JobResult :=
  logger DEBUG ("Processing job " +:+ job_id job +:+ " of type "
                +:+ job_name job) ;;
  try_catch
    (if bool_decide (job_name job = "task-status-update") then
       handleStatusUpdate job
     else if bool_decide (job_name job = "overdue-tasks-notification") then
       handleOverdueTasks fuel job
     else
       logger WARN ("Unknown job type received: " +:+ job_name job
                    +:+ ". Job ID: " +:+ job_id job) ;;
       throw (UnrecoverableError ("Unknown job type: " +:+ job_name job)))
    (λ error,
       if is_UnrecoverableError error then
         logger ERROR ("Unrecoverable error processing job " +:+ job_id job
                       +:+ " of type " +:+ job_name job +:+ ": "
                       +:+ exn_message error) ;;
         throw error
       else
         logger ERROR ("Error processing job " +:+ job_id job +:+ " of type "
                       +:+ job_name job +:+ ": " +:+ exn_message error
                       +:+ ". Remaining attempts: "
                       +:+ pretty (attemptsMade job) +:+ "/"
                       +:+ pretty (attempts (job_opts job))) ;;
         throw error).

(** The worker's event listeners. *)
Definition onActive (job : Job) : M unit :=
  logger DEBUG ("Job " +:+ job_id job +:+ " of type " +:+ job_name job
                +:+ " started processing.").

Definition onCompleted (job : Job) : M unit :=
  logger DEBUG ("Job " +:+ job_id job +:+ " of type " +:+ job_name job
                +:+ " completed.").

Definition onFailed (job : Job) (error : Exn) : M unit :=
  logger ERROR ("Job " +:+ job_id job +:+ " of type " +:+ job_name job
                +:+ " failed with error: " +:+ exn_message error
                +:+ ". Attempts made: " +:+ pretty (attemptsMade job)).

End TaskProcessorService.

(** ** overdue-tasks.service.ts *)

Module OverdueTasksService.

(** [@Cron(CronExpression.EVERY_HOUR)]: one call per tick of the
    scheduler. *)
Definition checkOverdueTasks : M unit :=
  logger DEBUG "Checking for overdue tasks..." ;;
  now ← new_Date;
  env ← get_env;
  try_catch
    (Queue_add "overdue-tasks-notification"
       (<["triggeredAt" := JStr (toISOString env now)]> ∅)
       (mkJobsOptions 1 None (Some true) (Some false)) ;;
     logger LOG "Successfully enqueued a job to process overdue tasks.")
    (λ error,
       logger ERROR ("Failed to enqueue overdue tasks notification job: "
                     +:+ exn_message error)) ;;
  logger DEBUG "Overdue tasks check initiated.".

End OverdueTasksService.

(** ** The worker's retry policy *)

Module Worker.

Import TaskProcessorService.

Definition with_attemptsMade (n : nat) (job : Job) : Job :=
  mkJob (job_id job) (job_name job) (job_data job) (job_opts job) n
        (job_state job).

Definition with_state (s : JobState) (job : Job) : Job :=
  mkJob (job_id job) (job_name job) (job_data job) (job_opts job)
        (attemptsMade job) s.

(** Modelled from the spec: the queue's retry machinery is BullMQ's and
    not among the sources; section 4.1 gives
    [delay = backoffBaseDelay * 2^(attemptsMade-1)]. *)
Definition backoff_delay (job : Job) : nat :=
  match backoff (job_opts job) with
  | Some (mkBackoff exponential base) => base * 2 ^ (attemptsMade job - 1)
  | Some (mkBackoff fixed base) => base
  | None => 0
  end.

(** Modelled from the spec: the queue's retry machinery is BullMQ's and
    not among the sources; by section 4.1, [nack(Job, error)] re-enqueues
    the job after the backoff delay, or marks it terminal-failed if
    [attemptsMade == maxAttempts]. *)
Definition nack (job : Job) : Job :=
  if bool_decide (attemptsMade job = attempts (job_opts job)) then
    with_state Failed job
  else with_state (Delayed (backoff_delay job)) job.

(** Modelled from the spec: the worker loop is BullMQ's and not among
    the sources; by section 4.4, what a worker slot does with the outcome
    of [process]: on success the job is acknowledged, on an Unrecoverable
    error it is acknowledged and dropped without retry, on any other
    error it is nacked.  The listeners [onCompleted] and [onFailed] are
    the service's own. *)
Definition dispatch (fuel : nat) (job : Job) : M Job :=
  λ env w,
    match process fuel job env w with
    | (Ok r, w') => (onCompleted job ;; mret (with_state Completed job)) env w'
    | (Throw e, w') =>
        (onFailed job e ;;
         mret (if is_UnrecoverableError e then with_state Failed job
               else nack job)) env w'
    | (OutOfFuel, w') => (OutOfFuel, w')
    end.

(** Modelled from the spec: the worker loop is BullMQ's and not among
    the sources; by sections 3 and 4.4, one turn of a worker slot on a
    dequeued job: the attempt is counted, then the job is dispatched. *)
Definition attempt (fuel : nat) (job : Job) : M Job :=
  let job := with_attemptsMade (S (attemptsMade job)) job in
  onActive job ;;
  dispatch fuel job.

Definition settled (job : Job) : bool :=
  match job_state job with
  | Completed | Failed => true
  | Waiting | Delayed _ => false
  end.

(** Modelled from the spec: the worker loop is BullMQ's and not among
    the sources; by section 4.4, the job is taken up again until it is
    completed or terminal-failed.  [turns] bounds the attempts the run
    may take. *)
Fixpoint run (turns fuel : nat) (job : Job) : M Job :=
  if settled job then mret job
  else
    match turns with
    | 0 => out_of_fuel
    | S turns' => job' ← attempt fuel job; run turns' fuel job'
    end.

End Worker.

(** ** rate-limit.guard.ts

    The guard keeps, per client and handler, a Redis sorted set of the
    requests of the last window: one member per request, scored with the
    time of the request.  Redis is modelled as far as the guard uses it;
    its clock is taken to be the clock [Date.now()] reads, and the
    options of the decorator to be whole numbers. *)

Module RateLimitGuard.

Record RateLimitOptions := mkRateLimitOptions {
  rl_limit : Z;
  windowMs : Z;
}.

(** A sorted set: the members with their scores, and the time at which
    the key expires when it has a time to live. *)
Record ZSet := mkZSet {
  scores : gmap string Z;
  expireAt : option Z;
}.

(** The key as a command finds it at time [now]: an expired key is
    gone. *)
Definition lookup_live (now : Z) (key : string) (r : gmap string ZSet) : option ZSet :=
  z ← r !! key;
  match expireAt z with
  | Some e => if bool_decide (e ≤ now)%Z then None else Some z
  | None => Some z
  end.

(** [ZADD key score member]: a member already there gets the new
    score. *)
Definition zadd (now : Z) (key : string) (score : Z) (member : string)
    (r : gmap string ZSet) : gmap string ZSet :=
  match lookup_live now key r with
  | Some z => <[key := mkZSet (<[member := score]> (scores z)) (expireAt z)]> r
  | None => <[key := mkZSet {[member := score]} None]> r
  end.

Definition in_range (min max : Z) (e : string * Z) : Prop :=
  (min ≤ e.2 ≤ max)%Z.

#[global] Instance in_range_dec min max e : Decision (in_range min max e).
Proof. unfold in_range. apply _. Defined.

(** [ZREMRANGEBYSCORE key min max], both ends included; a sorted set
    left without members is removed. *)
Definition zremrangebyscore (now : Z) (key : string) (min max : Z)
    (r : gmap string ZSet) : gmap string ZSet :=
  match lookup_live now key r with
  | Some z =>
      let kept := filter (λ e, ¬ in_range min max e) (scores z) in
      if bool_decide (kept = ∅) then delete key r
      else <[key := mkZSet kept (expireAt z)]> r
  | None => delete key r
  end.

(** [ZCARD key]. *)
Definition zcard (now : Z) (key : string) (r : gmap string ZSet) : Z :=
  match lookup_live now key r with
  | Some z => Z.of_nat (size (scores z))
  | None => 0
  end.

(** [EXPIRE key seconds]: a time to live that is not positive removes
    the key. *)
Definition expire (now : Z) (key : string) (seconds : Z) (r : gmap string ZSet)
  : gmap string ZSet :=
  match lookup_live now key r with
  | Some z =>
      if bool_decide (seconds ≤ 0)%Z then delete key r
      else <[key := mkZSet (scores z) (Some (now + seconds * 1000)%Z)]> r
  | None => delete key r
  end.

(** [Math.ceil(a / b)] for whole numbers and a positive [b]. *)
Definition Math_ceil_div (a b : Z) : Z := (- ((- a) / b))%Z.

(** The four commands of the transaction, run as one; the reply the
    guard reads is that of [zcard]. *)
Definition multi_exec (now : Z) (key member : string) (windowMs : Z)
    (r : gmap string ZSet) : Z * gmap string ZSet :=
  let r := zadd now key now member r in
  let r := zremrangebyscore now key 0 (now - windowMs) r in
  let count := zcard now key r in
  let r := expire now key (Math_ceil_div windowMs 1000 + 10) r in
  (count, r).

(** How [transaction.exec()] ends: with the replies, with [null], or
    with an error of the connection, in which case the commands are
    taken not to have run. *)
Inductive ExecReply :=
  | Replies
  | NoReplies
  | Fails (message : string).

#[global] Instance ExecReply_eq_dec : EqDecision ExecReply.
Proof. solve_decision. Defined.

(** The request and the handler it is routed to; [metadata] is what the
    reflector finds under [RATE_LIMIT_KEY] on the handler or its
    class. *)
Record Request := mkRequest {
  ip : option string;
  remoteAddress : option string;
}.

Record ExecutionContext := mkExecutionContext {
  request : Request;
  className : string;
  handlerName : string;
  metadata : option RateLimitOptions;
}.

(** The guard's own fields: the secret and the HMAC it keys with it. *)
Record Guard := mkGuard {
  hashSecret : string;
  createHmac_sha256_hex : string → string → string;
}.

(** What one call reads from outside: [Date.now()], [Math.random()] as
    it prints, and how the transaction ends. *)
Record Moment := mkMoment {
  now : Z;
  random : string;
  reply : ExecReply;
}.

Record GuardState := mkGuardState {
  redis : gmap string ZSet;
  guard_logs : list LogEntry;
}.

Definition guard_log (lv : LogLevel) (msg : string) (st : GuardState)
  : GuardState :=
  mkGuardState (redis st) (guard_logs st ++ [mkLogEntry lv msg]).

Definition set_redis (r : gmap string ZSet) (st : GuardState) : GuardState :=
  mkGuardState r (guard_logs st).

(** The guard lets the request through (its promise resolves to [true])
    or rejects it with the HttpException of status 429, whose body
    carries the limit and the window. *)
Inductive Verdict :=
  | Activated
  | TooManyRequests (limit windowMs : Z).

#[global] Instance Verdict_eq_dec : EqDecision Verdict.
Proof. solve_decision. Defined.

(** The headers set on the response. *)
Definition Headers : Type := list (string * Z).

(** [a || b] on strings that may be missing. *)
Definition or_string (a : option string) (b : string) : string :=
  match a with
  | Some s => if bool_decide (s = "") then b else s
  | None => b
  end.

Definition getIdentifier (g : Guard) (req : Request) : string :=
  let ip := or_string (ip req) (or_string (remoteAddress req) "") in
  createHmac_sha256_hex g (hashSecret g) ip.

Definition generateKey (context : ExecutionContext) (identifier : string)
  : string :=
  "rate_limit:" +:+ identifier +:+ ":" +:+ className context
  +:+ ":" +:+ handlerName context.

(** The member a request adds. *)
Definition member (m : Moment) : string :=
  pretty (now m) +:+ "-" +:+ random m.

Definition handleRateLimit (m : Moment) (key : string) (limit windowMs : Z)
    (st : GuardState) : (Verdict * Headers) * GuardState :=
  match reply m with
  | Fails message =>
      ((Activated, []),
       guard_log ERROR ("Redis operation failed: " +:+ message) st)
  | NoReplies =>
      ((Activated, []),
       guard_log WARN "Redis transaction returned no results" st)
  | Replies =>
      let now := now m in
      let '(currentCount, r) :=
        multi_exec now key (member m) windowMs (redis st) in
      let remaining := Z.max 0 (limit - currentCount) in
      let st :=
        guard_log DEBUG
          ("Rate limit: " +:+ pretty currentCount +:+ "/" +:+ pretty limit
           +:+ " requests, " +:+ pretty remaining +:+ " remaining")
          (set_redis r st) in
      let headers :=
        [("X-RateLimit-Limit", limit);
         ("X-RateLimit-Remaining", remaining);
         ("X-RateLimit-Reset", Math_ceil_div (now + windowMs) 1000)] in
      if bool_decide (limit < currentCount)%Z then
        ((TooManyRequests limit windowMs, headers), st)
      else ((Activated, headers), st)
  end.

(** [canActivate] returns the promise of [handleRateLimit] without
    awaiting it, so its own [catch] sees none of that promise's
    rejections and the 429 reaches the caller. *)
Definition canActivate (g : Guard) (context : ExecutionContext) (m : Moment)
    (st : GuardState) : (Verdict * Headers) * GuardState :=
  match metadata context with
  | None =>
      ((Activated, []),
       guard_log DEBUG "No rate limit options found, skipping" st)
  | Some options =>
      let limit := rl_limit options in
      let windowMs := windowMs options in
      let identifier := getIdentifier g (request context) in
      let key := generateKey context identifier in
      let st :=
        guard_log DEBUG
          ("Applying rate limit: " +:+ pretty limit +:+ " req/"
           +:+ pretty windowMs +:+ "ms to " +:+ key) st in
      handleRateLimit m key limit windowMs st
  end.

End RateLimitGuard.

(** ** users.service.ts and auth.service.ts

    The user entity and the DTOs of these two services are not among
    the sources: they are modelled with the properties the services read
    and write, and the entity is taken to have no hooks of its own.
    bcrypt and the JWT service are libraries, so their functions are
    fields of the environment; [bcrypt.hash] draws a fresh salt at each
    call, which the world counts. *)

(** The status of a Nest [HttpException]: [new BadRequestException(m)]
    is [HttpError BAD_REQUEST m], and so on. *)
Inductive HttpStatus := BAD_REQUEST | UNAUTHORIZED | NOT_FOUND | CONFLICT.

#[global] Instance HttpStatus_eq_dec : EqDecision HttpStatus.
Proof. solve_decision. Defined.

Inductive AccountExn :=
  | HttpError (status_code : HttpStatus) (message : string)
  | SaveError (message : string).

Record UserRow := mkUserRow {
  row_id : string;
  row_email : string;
  row_name : string;
  row_password : string;
  row_role : string;
}.

Record CreateUserDto := mkCreateUserDto {
  cu_email : string;
  cu_name : string;
  cu_password : string;
  cu_role : option string;
}.

(** [RegisterDto]; the spread in [register] hands all its properties to
    [UsersService.create]. *)
Record RegisterDto := mkRegisterDto {
  rg_email : string;
  rg_name : string;
  rg_password : string;
  rg_role : option string;
}.

Record LoginDto := mkLoginDto {
  lg_email : string;
  lg_password : string;
}.

(** [new UserResponseDto(user)], with the properties [AuthService] reads
    from it. *)
Record UserResponseDto := mkUserResponseDto {
  ur_id : string;
  ur_email : string;
  ur_name : string;
  ur_role : string;
}.

Definition new_UserResponseDto (u : UserRow) : UserResponseDto :=
  mkUserResponseDto (row_id u) (row_email u) (row_name u) (row_role u).

Record JwtPayload := mkJwtPayload {
  jwt_sub : string;
  jwt_email : string;
  jwt_role : string;
}.

(** The answers of [login] and of [register]. *)
Record LoginUser := mkLoginUser {
  lu_id : string;
  lu_email : string;
  lu_role : string;
}.

Record LoginResult := mkLoginResult {
  login_token : string;
  login_user : LoginUser;
}.

Record RegisterResult := mkRegisterResult {
  register_token : string;
  register_user : UserResponseDto;
}.

Record AccountsEnv := mkAccountsEnv {
  bcrypt_hash : nat → string → string;
  bcrypt_compare : string → string → bool;
  jwt_sign : JwtPayload → option string → string;
  users_uuid : nat → string;
  users_save_ok : bool;
  role_default : string;
}.

Record AccountsWorld := mkAccountsWorld {
  users : list UserRow;
  salts : nat;
  account_logs : list LogEntry;
}.

Inductive Settled (A : Type) :=
  | Resolved (a : A)
  | Rejected (e : AccountExn).
Arguments Resolved {A}.
Arguments Rejected {A}.

(** The monad of the two services. *)
Definition AccM (A : Type) : Type :=
  AccountsEnv → AccountsWorld → Settled A * AccountsWorld.

Definition AccM_ret {A} (a : A) : AccM A := λ _ w, (Resolved a, w).

Definition AccM_bind {A B} (f : A → AccM B) (m : AccM A) : AccM B :=
  λ env w,
    match m env w with
    | (Resolved a, w') => f a env w'
    | (Rejected e, w') => (Rejected e, w')
    end.

#[global] Instance AccM_MRet : MRet AccM := @AccM_ret.
#[global] Instance AccM_MBind : MBind AccM := @AccM_bind.

Definition reject {A} (e : AccountExn) : AccM A := λ _ w, (Rejected e, w).

Definition ask : AccM AccountsEnv := λ env w, (Resolved env, w).

Definition account_log (lv : LogLevel) (msg : string) : AccM unit :=
  λ _ w,
    (Resolved (),
     mkAccountsWorld (users w) (salts w)
                     (account_logs w ++ [mkLogEntry lv msg])).

Module Bcrypt.

(** [bcrypt.hash(data, 10)]. *)
Definition hash (data : string) : AccM string :=
  λ env w,
    (Resolved (bcrypt_hash env (salts w) data),
     mkAccountsWorld (users w) (S (salts w)) (account_logs w)).

(** [bcrypt.compare(data, encrypted)]. *)
Definition compare (data encrypted : string) : AccM bool :=
  λ env w, (Resolved (bcrypt_compare env data encrypted), w).

End Bcrypt.

(** [usersRepository.findOne({ where })]. *)
Definition users_findOne (where_ : UserRow → bool) : AccM (option UserRow) :=
  λ _ w, (Resolved (head (filter (λ u, where_ u) (users w))), w).

(** [usersRepository.save(user)] of an entity without a key: the row is
    inserted and gets its key from the database. *)
Definition users_insert (u : UserRow) : AccM UserRow :=
  λ env w,
    if users_save_ok env then
      let row :=
        mkUserRow (users_uuid env (length (users w))) (row_email u)
                  (row_name u) (row_password u) (row_role u) in
      (Resolved row,
       mkAccountsWorld (users w ++ [row]) (salts w) (account_logs w))
    else (Rejected (SaveError "write failed"), w).

Module UsersService.

Definition create (createUserDto : CreateUserDto) : AccM UserResponseDto :=
  account_log LOG ("Attempting to create user with email: "
                   +:+ cu_email createUserDto) ;;
  existingUser ← users_findOne
    (λ u, bool_decide (row_email u = cu_email createUserDto));
  match existingUser with
  | Some _ =>
      account_log WARN ("User creation failed: Email already exists - "
                        +:+ cu_email createUserDto) ;;
      reject (HttpError BAD_REQUEST "User with this email already exists.")
  | None =>
      hashedPassword ← Bcrypt.hash (cu_password createUserDto);
      env ← ask;
      let user :=
        mkUserRow "" (cu_email createUserDto) (cu_name createUserDto)
                  hashedPassword
                  (default (role_default env) (cu_role createUserDto)) in
      savedUser ← users_insert user;
      account_log LOG ("User created successfully: " +:+ row_id savedUser) ;;
      mret (new_UserResponseDto savedUser)
  end.

Definition findOne (i : string) : AccM UserResponseDto :=
  account_log LOG ("Fetching user with ID: " +:+ i) ;;
  user ← users_findOne (λ u, bool_decide (row_id u = i));
  match user with
  | None =>
      account_log WARN ("User with ID " +:+ i +:+ " not found.") ;;
      reject (HttpError NOT_FOUND ("User with ID " +:+ i +:+ " not found"))
  | Some u =>
      account_log LOG ("User found: " +:+ row_id u) ;;
      mret (new_UserResponseDto u)
  end.

Definition findByEmail (email : string) : AccM (option UserRow) :=
  account_log LOG ("Fetching user by email: " +:+ email) ;;
  users_findOne (λ u, bool_decide (row_email u = email)).

End UsersService.

Module AuthService.

Definition login (loginDto : LoginDto) : AccM LoginResult :=
  let email := lg_email loginDto in
  let password := lg_password loginDto in
  user ← UsersService.findByEmail email;
  match user with
  | None => reject (HttpError UNAUTHORIZED "Invalid credentials")
  | Some user =>
      isPasswordValid ← Bcrypt.compare password (row_password user);
      if negb isPasswordValid then
        reject (HttpError UNAUTHORIZED "Invalid credentials")
      else
        env ← ask;
        let tokenPayload :=
          mkJwtPayload (row_id user) (row_email user) (row_role user) in
        let access_token := jwt_sign env tokenPayload None in
        mret (mkLoginResult access_token
                (mkLoginUser (row_id user) (row_email user) (row_role user)))
  end.

Definition generateToken (userId email role : string) : AccM string :=
  env ← ask;
  mret (jwt_sign env (mkJwtPayload userId email role) (Some "1h")).

Definition register (registerDto : RegisterDto) : AccM RegisterResult :=
  existingUser ← UsersService.findByEmail (rg_email registerDto);
  match existingUser with
  | Some _ => reject (HttpError CONFLICT "Email already registered")
  | None =>
      hashedPassword ← Bcrypt.hash (rg_password registerDto);
      user ← UsersService.create
        (mkCreateUserDto (rg_email registerDto) (rg_name registerDto)
                         hashedPassword (rg_role registerDto));
      access_token ← generateToken (ur_id user) (ur_email user) (ur_role user);
      mret (mkRegisterResult access_token
              (mkUserResponseDto (ur_id user) (ur_email user) (ur_name user)
                                 (ur_role user)))
  end.

(** [(await findOne(userId)) ?? null]: [findOne] hands out an object or
    throws. *)
Definition validateUser (userId : string) : AccM (option UserResponseDto) :=
  user ← UsersService.findOne userId;
  mret (Some user).

(** [user ? requiredRoles.includes(user.role) : false], where [user] is
    an object whenever [findOne] returns. *)
Definition validateUserRoles (userId : string) (requiredRoles : list string)
  : AccM bool :=
  user ← UsersService.findOne userId;
  mret (bool_decide (ur_role user ∈ requiredRoles)).

End AuthService.

(** * Properties *)

Import TasksService TaskProcessorService Worker.

(** ** Vocabulary of the statements *)

(** The job a producer adds for task [taskId] in status [s], as the
    queue of [w] numbers it. *)
Definition status_update_job (w : World) (taskId : string) (s : TaskStatus)
  : Job :=
  mkJob (pretty (S (length (queue w)))) "task-status-update"
        (status_update_payload taskId s) retry_options 0 Waiting.

(** The row [findOne] hands to [update]: the pre-update snapshot. *)
Definition visible_row (i uid : string) (isAdmin : bool) (rows : list Task)
  : option Task :=
  head (filter (λ t, where_matches (findOne_where i (Some uid) isAdmin) t) rows).

(** A payload value that is one of the enum's strings. *)
Definition valid_status (v : JsVal) : Prop :=
  ∃ s, v = JStr (TaskStatus_value s).

(** A payload that lacks [taskId] or [status], or whose status is outside
    the enum. *)
Definition malformed (payload : gmap string JsVal) : Prop :=
  payload !! "taskId" = None ∨ payload !! "status" = None
  ∨ ¬ valid_status (js_get payload "status").

(** A payload that names task [tid] and a status of the enum. *)
Definition well_formed (payload : gmap string JsVal) (tid : string)
    (s : TaskStatus) : Prop :=
  js_get payload "taskId" = JStr tid ∧ tid ≠ "" ∧
  js_get payload "status" = JStr (TaskStatus_value s).

(** No row of the table has key [tid]. *)
Definition absent (tid : string) (rows : list Task) : Prop :=
  tid ∉ (id <$> rows).

(** The log grew, and an entry at error level is among what was added. *)
Definition has_error_entry (before after : list LogEntry) : Prop :=
  ∃ extra, after = before ++ extra ∧ Exists (λ e, level e = ERROR) extra.

(** The [where] object of every page of the sweep: [findAll] is called
    without a user and not as an admin, so no owner is asked for. *)
Definition sweep_where (now : Date) : TaskWhere :=
  mkTaskWhere None None (Some PENDING) None
              (Some (date_1900_01_01, now)) None.

(** What that [where] selects, spelled out. *)
Definition overdue_as_queried (now : Date) (t : Task) : bool :=
  bool_decide (status t = PENDING)
  && match dueDate t with
     | Some d => (date_1900_01_01 <=? d)%Z && (d <=? now)%Z
     | None => false
     end.

(** The overdue predicate in the specification's words:
    [dueDate < now AND status == pending]. *)
Definition overdue_as_specified (now : Date) (t : Task) : bool :=
  bool_decide (status t = PENDING)
  && match dueDate t with
     | Some d => (d <? now)%Z
     | None => false
     end.

(** How many rows the sweep's query selects at the [tick]-th reading of
    the clock. *)
Definition overdue_count (env : Env) (rows : list Task) (tick : nat) : nat :=
  length (filter (λ t, overdue_as_queried (clock env tick) t) rows).

(** The rows the sweep's query selects at that reading, in order. *)
Definition overdue_rows (env : Env) (rows : list Task) (tick : nat)
  : list Task :=
  select (sweep_where (clock env tick)) rows.

(** The [i]-th page (from 0) read at that reading. *)
Definition page_of (env : Env) (rows : list Task) (tick i : nat) : list Task :=
  take batchSize (drop (i * batchSize) (overdue_rows env rows tick)).

(** The pages a sweep reads from page [i] on, as a function of the table
    and the clock alone; [None] when [fuel] iterations do not reach a
    short page. *)
Fixpoint sweep_pages (env : Env) (rows : list Task) (fuel tick i : nat)
  : option (list (list Task)) :=
  match fuel with
  | 0 => None
  | S fuel' =>
      let pg := page_of env rows tick i in
      if bool_decide (length pg = 0) then Some [pg]
      else if bool_decide (length pg < batchSize) then Some [pg]
      else (pg ::.) <$> sweep_pages env rows fuel' (S tick) (S i)
  end.

Definition sweep_outcome (tot : nat) (o : option (list (list Task)))
  : Outcome nat :=
  match o with
  | Some pgs => Ok (tot + length (concat pgs))
  | None => OutOfFuel
  end.

(** The reads that fetch pages [i], [i+1], ... *)
Fixpoint page_reads (i : nat) (pgs : list (list Task)) : list PageRead :=
  match pgs with
  | [] => []
  | pg :: pgs' =>
      mkPageRead (i * batchSize) batchSize pg :: page_reads (S i) pgs'
  end.

(** Whom [notify] writes to for a task: its user's address, when there
    is a user with a non-empty address. *)
Definition recipient (t : Task) : option (string * string) :=
  match user t with
  | Some u => if bool_decide (email u = "") then None else Some (id t, email u)
  | None => None
  end.

(** The same for a row that may lack a due date: formatting the date
    fails before [sendMail] is reached. *)
Definition notification (t : Task) : option (string * string) :=
  match dueDate t with
  | Some _ => recipient t
  | None => None
  end.

(** The task and the address of a [sendMail] call. *)
Definition addressed (c : MailCall) : string * string :=
  (mail_task c, to (mail_options c)).

(** What a stretch of the sweep does to the world: the table and the
    queue stay, [rs] is read, [calls] are made, one clock reading is
    taken per read, and the log only grows. *)
Definition sweep_effect (w w' : World) (rs : list PageRead)
    (calls : list MailCall) : Prop :=
  tasks w' = tasks w ∧ queue w' = queue w ∧
  reads w' = reads w ++ rs ∧ outbox w' = outbox w ++ calls ∧
  ticks w' = ticks w + length rs ∧ ∃ more, logs w' = logs w ++ more.

(** Page sizes of a sweep that stopped at the first page shorter than
    [batchSize] (an empty page included). *)
Definition stops_at_first_short_page (sizes : list nat) : Prop :=
  ∃ full last,
    sizes = full ++ [last] ∧ Forall (λ n, n = batchSize) full ∧
    last < batchSize.

(** The handler's result, in terms of the pages. *)
Definition sweep_result (o : option (list (list Task))) : Outcome JobResult :=
  match o with
  | Some pgs => Ok (SweepCompleted (completed_message (length (concat pgs))))
  | None => OutOfFuel
  end.

(** Offset, page size and number of rows of a read. *)
Definition read_shape (r : PageRead) : nat * nat * nat :=
  (read_skip r, read_take r, length (read_rows r)).

(** The environment with another mail transport. *)
Definition with_smtp (f : nat → SendMailOptions → bool) (env : Env) : Env :=
  mkEnv (clock env) (uuid env) (save_ok env) (add_ok env) f
        (toLocaleDateString env) (toISOString env)
        (commit_ok env) (user_of env).

(** The environment with a queue that accepts jobs or refuses them, and
    with a database that commits or does not. *)
Definition with_queue (ok : bool) (env : Env) : Env :=
  mkEnv (clock env) (uuid env) (save_ok env) ok (smtp_ok env)
        (toLocaleDateString env) (toISOString env)
        (commit_ok env) (user_of env).

Definition with_commit (ok : bool) (env : Env) : Env :=
  mkEnv (clock env) (uuid env) (save_ok env) (add_ok env) (smtp_ok env)
        (toLocaleDateString env) (toISOString env) ok (user_of env).

(** The [where] object of a batch operation: the listed keys, and the
    owner unless the caller is an admin. *)
Definition batch_where (taskIds : list string) (uid : string)
    (isAdmin : bool) : TaskWhere :=
  mkTaskWhere (Some (IdIn taskIds)) None None None None
              (if negb isAdmin then Some uid else None).

(** What that [where] selects, spelled out. *)
Definition in_batch (taskIds : list string) (uid : string) (isAdmin : bool)
    (t : Task) : Prop :=
  id t ∈ taskIds ∧ (isAdmin = false → userId t = uid).

#[global] Instance in_batch_dec taskIds uid isAdmin t :
  Decision (in_batch taskIds uid isAdmin t).
Proof. unfold in_batch. apply _. Defined.

(** The page size and the page number [findAll] works with. *)
Definition findAll_limit (q : TaskFilterDto) : nat := Number_or (f_limit q) 10.
Definition findAll_page (q : TaskFilterDto) : nat := Number_or (f_page q) 1.

(** The query [q] asked for page [p]. *)
Definition with_page (p : nat) (q : TaskFilterDto) : TaskFilterDto :=
  mkTaskFilterDto (Some p) (f_limit q) (f_title q) (f_status q)
                  (f_priority q) (f_dueDateBefore q) (f_dueDateAfter q)
                  (f_userId q).

(** The items of a listing; none when the call did not return. *)
Definition page_data {T} (r : Outcome (PaginatedResponseDto T) * World)
  : list T :=
  match r.1 with
  | Ok d => data d
  | _ => []
  end.

(** Newest first. *)
Definition newer_or_same (a b : Task) : Prop :=
  (createdAt b ≤ createdAt a)%Z.

(** The row [updateStatus] finds for a key: the first one that has it. *)
Definition row_with_id (tid : string) (rows : list Task) : option Task :=
  head (filter (λ t, id t = tid) rows).

(** The key under which the guard counts the requests of a context. *)
Definition guard_key (g : RateLimitGuard.Guard)
    (context : RateLimitGuard.ExecutionContext) : string :=
  RateLimitGuard.generateKey context
    (RateLimitGuard.getIdentifier g (RateLimitGuard.request context)).

(** What Redis holds under a key, expired or not. *)
Definition stored (key : string) (r : gmap string RateLimitGuard.ZSet) : gmap string Z :=
  match r !! key with
  | Some z => RateLimitGuard.scores z
  | None => ∅
  end.

(** The members a request at [now] finds under the key, and those of
    them that the removal by score leaves. *)
Definition live_scores (now : Z) (key : string) (r : gmap string RateLimitGuard.ZSet)
  : gmap string Z :=
  match RateLimitGuard.lookup_live now key r with
  | Some z => RateLimitGuard.scores z
  | None => ∅
  end.

Definition in_window (now windowMs : Z) (key : string)
    (r : gmap string RateLimitGuard.ZSet) : gmap string Z :=
  filter (λ e, ¬ RateLimitGuard.in_range 0 (now - windowMs) e)
         (live_scores now key r).

(** What a request to a handler of [TasksController] reads from outside
    on its way through the guards.  [RateLimitGuard] is registered as
    [APP_GUARD] in app.module.ts and listed again in the controller's
    [@UseGuards(JwtAuthGuard, RateLimitGuard)], so a request runs
    [canActivate] of [RateLimitGuard] twice, with the same secret, the
    same Redis and the same class and handler, hence the same key: first
    for the global guard, and after [JwtAuthGuard] has accepted its
    token, for the controller's.  Each call reads the clock and
    [Math.random()] for itself. *)
Record GuardedRequest := mkGuardedRequest {
  at_global : RateLimitGuard.Moment;
  jwt_ok : bool;
  at_controller : RateLimitGuard.Moment;
}.

(** How the guards of [TasksController] answer a request: through to the
    handler, 401 from [JwtAuthGuard], or 429 from either call of
    [RateLimitGuard]. *)
Inductive Passage :=
  | LetThrough
  | Unauthorized
  | Limited (limit windowMs : Z).

#[global] Instance Passage_eq_dec : EqDecision Passage.
Proof. solve_decision. Defined.

(** Global guards run before the controller's, and the controller's in
    the order listed; the first guard that throws ends the request. *)
Definition pass_guards (g : RateLimitGuard.Guard)
    (context : RateLimitGuard.ExecutionContext)
    (r : GuardedRequest) (st : RateLimitGuard.GuardState)
  : Passage * RateLimitGuard.GuardState :=
  let first := RateLimitGuard.canActivate g context (at_global r) st in
  match first.1.1 with
  | RateLimitGuard.TooManyRequests limit windowMs =>
      (Limited limit windowMs, first.2)
  | RateLimitGuard.Activated =>
      if jwt_ok r then
        let second :=
          RateLimitGuard.canActivate g context (at_controller r) first.2 in
        match second.1.1 with
        | RateLimitGuard.TooManyRequests limit windowMs =>
            (Limited limit windowMs, second.2)
        | RateLimitGuard.Activated => (LetThrough, second.2)
        end
      else (Unauthorized, first.2)
  end.

(** The requests of one context, served one after the other: the
    answers in order, and the state they leave. *)
Fixpoint pass_all (g : RateLimitGuard.Guard)
    (context : RateLimitGuard.ExecutionContext)
    (rs : list GuardedRequest) (st : RateLimitGuard.GuardState)
  : list Passage * RateLimitGuard.GuardState :=
  match rs with
  | [] => ([], st)
  | r :: rs =>
      let st1 := (pass_guards g context r st).2 in
      ((pass_guards g context r st).1 :: (pass_all g context rs st1).1,
       (pass_all g context rs st1).2)
  end.

(** The moments of the guard calls of the requests, in order. *)
Definition moments_of (rs : list GuardedRequest)
  : list RateLimitGuard.Moment :=
  concat ((λ r, [at_global r; at_controller r]) <$> rs).

(** No two of the guard calls are a window or more apart. *)
Definition within_one_window (windowMs : Z)
    (ms : list RateLimitGuard.Moment) : Prop :=
  Forall (λ a,
    Forall (λ b, (RateLimitGuard.now b < RateLimitGuard.now a + windowMs)%Z)
           ms) ms.

(** Whatever is stored under the key is older than the window of each of
    the guard calls. *)
Definition all_stale (windowMs : Z) (key : string) (r : gmap string RateLimitGuard.ZSet)
    (ms : list RateLimitGuard.Moment) : Prop :=
  Forall (λ a,
    map_Forall (λ _ s, (0 ≤ s ≤ RateLimitGuard.now a - windowMs)%Z)
               (stored key r)) ms.

(** The row [findByEmail] finds: the first with the address. *)
Definition user_by_email (email : string) (rows : list UserRow)
  : option UserRow :=
  head (filter (λ u, bool_decide (row_email u = email)) rows).

(** The row [UsersService.create] inserts for a DTO: the password is
    hashed with the next salt, the key comes from the database. *)
Definition created_row (env : AccountsEnv) (w : AccountsWorld)
    (dto : CreateUserDto) : UserRow :=
  mkUserRow (users_uuid env (length (users w))) (cu_email dto) (cu_name dto)
            (bcrypt_hash env (salts w) (cu_password dto))
            (default (role_default env) (cu_role dto)).

(** The DTO [register] hands to [UsersService.create]. *)
Definition registered_dto (env : AccountsEnv) (w : AccountsWorld)
    (dto : RegisterDto) : CreateUserDto :=
  mkCreateUserDto (rg_email dto) (rg_name dto)
                  (bcrypt_hash env (salts w) (rg_password dto))
                  (rg_role dto).

(** The world after one more salt was drawn. *)
Definition salted (w : AccountsWorld) : AccountsWorld :=
  mkAccountsWorld (users w) (S (salts w)) (account_logs w).

(** What [login] answers for a row. *)
Definition login_result (env : AccountsEnv) (u : UserRow) : LoginResult :=
  mkLoginResult
    (jwt_sign env (mkJwtPayload (row_id u) (row_email u) (row_role u)) None)
    (mkLoginUser (row_id u) (row_email u) (row_role u)).

Definition invalid_credentials : AccountExn :=
  HttpError UNAUTHORIZED "Invalid credentials".

(** ** Sample worlds *)

Module Sample.

Definition alice : User := mkUser "u1" "alice@example.org" "Alice".
Definition bob : User := mkUser "u2" "bob@example.org" "".

Definition env : Env :=
  mkEnv (λ _, 1700000000000%Z) (λ k, "task-" +:+ pretty k) true true
        (λ _ _, true) (λ d, pretty d) (λ d, pretty d) true
        (λ uid, if bool_decide (uid = "u1") then Some alice
                else if bool_decide (uid = "u2") then Some bob
                else None).

Definition task (i owner : string) (u : option User) (due : Date) (k : nat)
  : Task :=
  mkTask i ("task " +:+ i) None PENDING MEDIUM (Some due) owner
         (Z.of_nat k) u.

(** Two tasks, one of each user. *)
Definition two_owners : World :=
  mkWorld [task "t1" "u1" (Some alice) 1600000000000%Z 1;
           task "t2" "u2" (Some bob) 1600000000000%Z 2] [] [] [] [] 0.

(** [n] pending tasks that were due in 2020. *)
Definition overdue_tasks (n : nat) : list Task :=
  (λ k, task ("task-" +:+ pretty k) "u1" (Some alice) 1600000000000%Z k)
    <$> seq 0 n.

(** 249 of them and one that was due in 1899. *)
Definition with_ancient_task : World :=
  mkWorld (overdue_tasks 249
           ++ [task "ancient" "u1" (Some alice) (-2240000000000)%Z 249])
          [] [] [] [] 0.

(** 250 overdue tasks. *)
Definition overdue_250 : World := mkWorld (overdue_tasks 250) [] [] [] [] 0.


(** Ten overdue tasks of alice. *)
Definition ten_of_alice : World := mkWorld (overdue_tasks 10) [] [] [] [] 0.

(** Ten overdue tasks: eight of alice, one without a user, one of a user
    without an address. *)
Definition ten_tasks : World :=
  mkWorld (overdue_tasks 8
           ++ [task "no-user" "u3" None 1600000000000%Z 8;
               task "no-email" "u4" (Some (mkUser "u4" "" "Dan"))
                    1600000000000%Z 9])
          [] [] [] [] 0.

(** A transport that fails on its fourth call. *)
Definition fourth_fails (k : nat) (_ : SendMailOptions) : bool :=
  negb (bool_decide (k = 3)).

Definition sweep_job : Job :=
  mkJob "1" "overdue-tasks-notification"
        (<["triggeredAt" := JStr "2023-11-14T22:13:20.000Z"]> ∅)
        (mkJobsOptions 1 None (Some true) (Some false)) 0 Waiting.

Definition update_job (payload : gmap string JsVal) (n : nat) : Job :=
  mkJob "7" "task-status-update" payload
        (mkJobsOptions n (Some (mkBackoff exponential 1000)) None None)
        0 Waiting.

End Sample.

(** A client behind one address calling one handler limited to two
    requests a minute; Redis still holds one request of an hour
    before. *)
Module GuardSample.

Definition guard : RateLimitGuard.Guard :=
  RateLimitGuard.mkGuard "secret" (λ key data, key +:+ "/" +:+ data).

Definition options : RateLimitGuard.RateLimitOptions :=
  RateLimitGuard.mkRateLimitOptions 2 60000.

Definition context : RateLimitGuard.ExecutionContext :=
  RateLimitGuard.mkExecutionContext
    (RateLimitGuard.mkRequest (Some "10.0.0.7") None)
    "TasksController" "findAll" (Some options).

Definition state : RateLimitGuard.GuardState :=
  RateLimitGuard.mkGuardState
    {[ guard_key guard context :=
         RateLimitGuard.mkZSet {[ "1699996400000-0.5" := 1699996400000%Z ]}
                               None ]}
    [].

(** Three requests with a valid token, within half a minute. *)
Definition requests : list GuardedRequest :=
  [ mkGuardedRequest
      (RateLimitGuard.mkMoment 1700000000000 "0.25" RateLimitGuard.Replies)
      true
      (RateLimitGuard.mkMoment 1700000000002 "0.75" RateLimitGuard.Replies);
    mkGuardedRequest
      (RateLimitGuard.mkMoment 1700000010000 "0.5" RateLimitGuard.Replies)
      true
      (RateLimitGuard.mkMoment 1700000010002 "0.125" RateLimitGuard.Replies);
    mkGuardedRequest
      (RateLimitGuard.mkMoment 1700000030000 "0.25" RateLimitGuard.Replies)
      true
      (RateLimitGuard.mkMoment 1700000030002 "0.625" RateLimitGuard.Replies) ].

End GuardSample.

(** One user, and a stand-in for bcrypt that marks a hash with its
    salt. *)
Module AccountsSample.

Definition env : AccountsEnv :=
  mkAccountsEnv
    (λ salt data, "$" +:+ pretty salt +:+ "$" +:+ data)
    (λ data encrypted,
       bool_decide (encrypted = "$0$" +:+ data)
       || bool_decide (encrypted = "$1$" +:+ data))
    (λ payload expiresIn, "jwt:" +:+ jwt_sub payload)
    (λ k, "user-" +:+ pretty k) true "user".

Definition world : AccountsWorld :=
  mkAccountsWorld
    [mkUserRow "user-0" "alice@example.org" "Alice" "$7$secret" "admin"]
    0 [].

Definition carol : CreateUserDto :=
  mkCreateUserDto "carol@example.org" "Carol" "pa55word" None.

Definition dave : RegisterDto :=
  mkRegisterDto "dave@example.org" "Dave" "pa55word" None.

End AccountsSample.

(** ** Running the monad in proofs *)

Arguments String.append : simpl never.
Arguments pretty : simpl never.
Arguments where_matches : simpl never.
Arguments as_TaskStatus : simpl never.
Arguments batchSize : simpl never.
Arguments select : simpl never.

Ltac unfold_M :=
  unfold mbind, M_MBind, M_bind, mret, M_MRet, M_ret, logger, modify,
    get_world, get_env, throw, out_of_fuel, new_Date in *.

(** ** Producers *)

(** What [create] does, case by case.  When it returns, the write, the
    enqueue and the commit all succeeded, the table gained the saved
    task and the queue one 'task-status-update' job with that task's id
    and status.  When it throws, the table is as it was; the queue is as
    it was too when the write or the enqueue failed, but when it is the
    commit that failed the job added before it is still in the queue. *)
Lemma create_outcomes
    (dto : CreateTaskDto) (uid : string) (env : Env) (w : World) :
  match create dto uid env w with
  | (Ok saved, w') =>
      save_ok env = true ∧ add_ok env = true ∧ commit_ok env = true ∧
      tasks w' = tasks w ++ [with_user (user_of env uid) (entity saved)] ∧
      queue w' = queue w ++
        [status_update_job w (id (entity saved)) (status (entity saved))]
  | (Throw e, w') =>
      tasks w' = tasks w ∧
      ((save_ok env = false ∨ add_ok env = false) ∧ queue w' = queue w
       ∨ save_ok env = true ∧ add_ok env = true ∧ commit_ok env = false ∧
         queue w' = queue w ++
           [status_update_job w (uuid env (length (tasks w)))
                              (default PENDING (c_status dto))])
  | (OutOfFuel, _) => False
  end.
Proof.
  unfold create, transaction, repo_save, Queue_add, create_entity.
  unfold_M. cbn.
  destruct (save_ok env) eqn:Hs; cbn.
  - destruct (add_ok env) eqn:Ha; cbn.
    + destruct (commit_ok env) eqn:Hc; cbn.
      * repeat split; reflexivity.
      * split; [reflexivity|]. right. repeat split; reflexivity.
    + split; [reflexivity|]. left. split; [auto|reflexivity].
  - split; [reflexivity|]. left. split; [auto|reflexivity].
Qed.

(** C1, at a failing input.  The write of the task and the enqueue of
    its job are to be a unit, with no orphaned job when the write fails;
    the comment in [create] says the transaction is there for that.
    But [Queue.add] runs inside the transaction's callback, before the
    commit, and the queue is no part of the database transaction.  Here
    the write and the enqueue succeed and the commit is refused: [create]
    throws, the table is as it was, so no task is persisted, and yet the
    queue holds one 'task-status-update' job, for a task id that no row
    of the table has. *)
Example create_leaves_an_orphaned_job_when_the_commit_fails :
  let dto := mkCreateTaskDto "Write report" None None None None in
  let res := create dto "u1" (with_commit false Sample.env) Sample.two_owners in
  fst res = Throw (QueryFailedError "commit failed") ∧
  tasks (snd res) = tasks Sample.two_owners ∧
  job_name <$> queue (snd res) = ["task-status-update"] ∧
  (λ j, js_get (job_data j) "taskId") <$> queue (snd res) = [JStr "task-2"] ∧
  "task-2" ∉ (id <$> tasks (snd res)).
Proof. cbv zeta. split_and!; [vm_compute; reflexivity..|compute_done]. Qed.

Lemma visible_row_elem i uid isAdmin rows t :
  visible_row i uid isAdmin rows = Some t → id t = i ∧ t ∈ rows.
Proof.
  unfold visible_row. intros H.
  apply head_Some_elem_of in H. apply list_elem_of_filter in H as [Hm Hin].
  split; [|done].
  unfold where_matches in Hm. cbn in Hm.
  destruct (bool_decide (id t = i)) eqn:E; [|done].
  by apply bool_decide_eq_true in E.
Qed.

Lemma replace_row_elem t rows r :
  r ∈ rows → id r = id t → user r = user t → t ∈ replace_row t rows.
Proof.
  intros Hr Hid Hu. unfold replace_row. apply list_elem_of_fmap.
  exists r. split; [|done].
  rewrite bool_decide_eq_true_2 by done. rewrite Hu. by destruct t.
Qed.

(** An [update] that returns has compared the status it saved with the
    status of the row it had read: when the two are equal the queue is
    as it was, when they differ the queue gained exactly one
    'task-status-update' job, carrying the new status. *)
Lemma update_that_returns_enqueues_iff_status_changed
    (i : string) (dto : UpdateTaskDto) (uid : string) (isAdmin : bool)
    (env : Env) (w : World) :
  match update i dto uid isAdmin env w with
  | (Ok updatedTask, w') =>
      ∃ before,
        visible_row i uid isAdmin (tasks w) = Some before ∧
        status (entity updatedTask) = default (status before) (u_status dto) ∧
        if bool_decide (status (entity updatedTask) = status before)
        then queue w' = queue w
        else queue w' = queue w ++
               [status_update_job w (id (entity updatedTask))
                                  (status (entity updatedTask))]
  | (_, w') => queue w' = queue w
  end.
Proof.
  unfold update, findOne, repo_findOne. unfold_M. cbn.
  fold (visible_row i uid isAdmin (tasks w)).
  destruct (visible_row i uid isAdmin (tasks w)) as [t|] eqn:Hv; cbn; [|done].
  destruct (visible_row_elem _ _ _ _ _ Hv) as [Hid Hin].
  unfold repo_save. unfold_M. cbn.
  destruct (save_ok env) eqn:Hs; cbn; [|done].
  assert (Hrow : has_row (id t) (tasks w) = true).
  { apply bool_decide_eq_true. apply list_elem_of_fmap. eauto. }
  destruct (bool_decide (id t = "")) eqn:Hi; cbn; [|rewrite Hrow; cbn].
  all: destruct (bool_decide (status t = default (status t) (u_status dto)))
         eqn:Hst; cbn;
       [|unfold Queue_add; unfold_M; cbn;
         destruct (add_ok env) eqn:Ha; cbn; [|done]].
  all: exists t; split_and!; [done|done|].
  all: first
    [ rewrite bool_decide_eq_true_2
        by (apply bool_decide_eq_true in Hst; congruence); reflexivity
    | rewrite bool_decide_eq_false_2
        by (apply bool_decide_eq_false in Hst; congruence); reflexivity ].
Qed.

(** C2, at a failing input.  Every update that changes the status is to
    enqueue exactly one job.  But [update] saves first and enqueues
    afterwards, outside any transaction, where [create] wraps the same
    two steps in one.  Here the write succeeds and the queue refuses the
    job: [update] throws the queue's error, the status of the task has
    changed in the table from pending to completed, and no job has been
    enqueued. *)
Example update_changes_the_status_without_a_job :
  let dto := mkUpdateTaskDto None None (Some COMPLETED) None None in
  let res :=
    update "t1" dto "u1" false (with_queue false Sample.env)
           Sample.two_owners in
  fst res = Throw (QueueError "queue unavailable") ∧
  (λ t, (id t, status t)) <$> tasks Sample.two_owners
    = [("t1", PENDING); ("t2", PENDING)] ∧
  (λ t, (id t, status t)) <$> tasks (snd res)
    = [("t1", COMPLETED); ("t2", PENDING)] ∧
  queue (snd res) = [].
Proof. cbv zeta. split_and!; vm_compute; reflexivity. Qed.

(** The jobs of a batch: one [Queue.add] per element of [taskIds]. *)
Lemma batch_enqueue_run (s : TaskStatus) (taskIds : list string) : ∀ env w,
  add_ok env = true →
  ∃ w' jobs,
    for_of taskIds (λ taskId,
      not_awaited (Queue_add "task-status-update"
                     (status_update_payload taskId s) retry_options)) env w
      = (Ok (), w') ∧
    queue w' = queue w ++ jobs ∧ tasks w' = tasks w ∧
    job_data <$> jobs = (λ taskId, status_update_payload taskId s) <$> taskIds ∧
    Forall (λ j, job_name j = "task-status-update" ∧
                 job_opts j = retry_options ∧ attemptsMade j = 0 ∧
                 job_state j = Waiting) jobs.
Proof.
  induction taskIds as [|tid taskIds IH]; intros env w Ha.
  - exists w, []. rewrite app_nil_r. by split_and!.
  - cbn [for_of]. unfold mbind at 1, M_MBind at 1, M_bind at 1.
    unfold not_awaited at 1, Queue_add at 1. unfold_M. rewrite Ha. cbn.
    match goal with
    | |- context [for_of taskIds ?f env ?w1] =>
        destruct (IH env w1 Ha) as (w' & jobs & Hrun & Hq & Ht & Hd & Ho)
    end.
    unfold_M. rewrite Hrun. cbn in Hq, Ht.
    eexists w', (_ :: jobs). split_and!; [done| | | |].
    + rewrite Hq, <- app_assoc. reflexivity.
    + done.
    + cbn. by rewrite Hd.
    + constructor; [done|exact Ho].
Qed.

(** C3, at a failing input.  User u1 asks to complete t1 (their own), t2
    (another user's) and t3 (no such task).  One row is affected, yet
    three jobs are enqueued, for t2 and t3 too; and the worker, which
    checks no ownership, then completes t2. *)
Example batchUpdateStatus_enqueues_for_unaffected_ids :
  let res :=
    batchUpdateStatus ["t1"; "t2"; "t3"] COMPLETED "u1" false
                      Sample.env Sample.two_owners in
  fst res = Ok (mkBatchResult 1 2) ∧
  status <$> tasks (snd res) = [COMPLETED; PENDING] ∧
  (λ j, (job_name j, js_get (job_data j) "taskId", js_get (job_data j) "status"))
    <$> queue (snd res)
    = [("task-status-update", JStr "t1", JStr "completed");
       ("task-status-update", JStr "t2", JStr "completed");
       ("task-status-update", JStr "t3", JStr "completed")] ∧
  (λ job2, status <$> tasks (snd (run 3 0 job2 Sample.env (snd res))))
    <$> queue (snd res) !! 1
    = Some [COMPLETED; COMPLETED].
Proof. cbv zeta. split_and!; vm_compute; reflexivity. Qed.

(** ** Status-update jobs *)

Lemma as_TaskStatus_value s : as_TaskStatus (JStr (TaskStatus_value s)) = Some s.
Proof. by destruct s. Qed.

Lemma as_TaskStatus_Some v s :
  as_TaskStatus v = Some s → v = JStr (TaskStatus_value s).
Proof.
  destruct v as [| | |z|str]; unfold as_TaskStatus; cbn; try done.
  repeat case_bool_decide; intros [= <-]; by subst.
Qed.

(** [as_TaskStatus] finds a member exactly for the strings of
    [Object.values(TaskStatus)]. *)
Lemma as_TaskStatus_includes v :
  is_Some (as_TaskStatus v) ↔ ∃ str, v = JStr str ∧ str ∈ TaskStatus_values.
Proof.
  split.
  - intros [s Hs]. apply as_TaskStatus_Some in Hs as ->.
    eexists. split; [done|]. unfold TaskStatus_values.
    apply list_elem_of_fmap. exists s. split; [done|]. destruct s; set_solver.
  - intros (str & -> & Hin). unfold TaskStatus_values in Hin.
    apply list_elem_of_fmap in Hin as (s & -> & _).
    rewrite as_TaskStatus_value. by eexists.
Qed.

Lemma as_TaskStatus_None v : ¬ valid_status v → as_TaskStatus v = None.
Proof.
  intros H. destruct (as_TaskStatus v) as [s|] eqn:E; [|done].
  destruct H. exists s. by apply as_TaskStatus_Some.
Qed.

Lemma TaskStatus_value_nonempty s : TaskStatus_value s ≠ "".
Proof. by destruct s. Qed.

Lemma has_error_entry_trans l1 l2 l3 :
  has_error_entry l1 l2 → (∃ more, l3 = l2 ++ more) → has_error_entry l1 l3.
Proof.
  intros (extra & -> & Hex) (more & ->).
  exists (extra ++ more). rewrite app_assoc. split; [done|].
  apply Exists_app. by left.
Qed.

Lemma has_error_entry_pre l0 l1 l2 :
  has_error_entry l1 l2 → (∃ pre, l1 = l0 ++ pre) → has_error_entry l0 l2.
Proof.
  intros (extra & -> & Hex) (pre & ->).
  exists (pre ++ extra). rewrite app_assoc. split; [done|].
  apply Exists_app. by right.
Qed.

Lemma handleStatusUpdate_malformed job env w :
  malformed (job_data job) →
  ∃ msg w',
    handleStatusUpdate job env w = (Throw (UnrecoverableError msg), w') ∧
    tasks w' = tasks w ∧ queue w' = queue w ∧ outbox w' = outbox w ∧
    has_error_entry (logs w) (logs w').
Proof.
  intros Hbad. unfold handleStatusUpdate. unfold_M. cbn.
  destruct (negb (truthy (js_get (job_data job) "taskId"))
            || negb (truthy (js_get (job_data job) "status"))) eqn:Hf; cbn.
  - do 2 eexists. split_and!; try reflexivity.
    eexists. rewrite <- app_assoc. split; [reflexivity|].
    apply Exists_cons_tl, Exists_cons_hd. reflexivity.
  - apply orb_false_iff in Hf as [H1 H2].
    apply negb_false_iff in H1, H2.
    assert (Hv : ¬ valid_status (js_get (job_data job) "status")).
    { destruct Hbad as [H|[H|H]]; [| |done].
      - unfold js_get in H1. rewrite H in H1. done.
      - unfold js_get in H2. rewrite H in H2. done. }
    rewrite (as_TaskStatus_None _ Hv). cbn.
    do 2 eexists. split_and!; try reflexivity.
    eexists. rewrite <- app_assoc. split; [reflexivity|].
    apply Exists_cons_tl, Exists_cons_hd. reflexivity.
Qed.

Lemma process_malformed fuel job env w :
  job_name job = "task-status-update" →
  malformed (job_data job) →
  ∃ msg w',
    process fuel job env w = (Throw (UnrecoverableError msg), w') ∧
    tasks w' = tasks w ∧ queue w' = queue w ∧ outbox w' = outbox w ∧
    has_error_entry (logs w) (logs w').
Proof.
  intros Hname Hbad. unfold process, try_catch. unfold_M. cbn.
  rewrite Hname. cbn.
  edestruct (handleStatusUpdate_malformed job env)
    as (msg & w1 & -> & Ht & Hq & Ho & Hl); [done|].
  cbn. do 2 eexists. split_and!; [reflexivity|..]; cbn; try done.
  eapply has_error_entry_trans; [|by eexists].
  eapply has_error_entry_pre; [exact Hl|]. cbn. by eexists.
Qed.

(** The scheduler's tick never throws.  When the queue accepts jobs it
    adds exactly one 'overdue-tasks-notification' job, with a single
    attempt; when the queue refuses, the failure is caught and logged at
    error level and nothing is enqueued.  Either way the table is
    untouched. *)
Lemma checkOverdueTasks_enqueues_one_sweep_and_never_throws
    (env : Env) (w : World) :
  match OverdueTasksService.checkOverdueTasks env w with
  | (Ok _, w') =>
      tasks w' = tasks w ∧
      if add_ok env then
        ∃ job, queue w' = queue w ++ [job] ∧
               job_name job = "overdue-tasks-notification" ∧
               attempts (job_opts job) = 1 ∧ attemptsMade job = 0 ∧
               job_data job !! "triggeredAt"
                 = Some (JStr (toISOString env (clock env (ticks w))))
      else queue w' = queue w ∧ has_error_entry (logs w) (logs w')
  | _ => False
  end.
Proof.
  unfold OverdueTasksService.checkOverdueTasks, try_catch, Queue_add.
  unfold_M. cbn.
  destruct (add_ok env) eqn:Ha; cbn.
  - split; [done|]. eexists. split_and!; try reflexivity.
  - split_and!; try done. eexists. rewrite <- !app_assoc.
    split; [reflexivity|]. cbn.
    apply Exists_cons_tl, Exists_cons_hd. reflexivity.
Qed.

(** A job whose name the worker does not know makes [process] throw an
    UnrecoverableError, logged at error level. *)
Lemma process_unknown_job_type fuel job env w :
  job_name job ≠ "task-status-update" →
  job_name job ≠ "overdue-tasks-notification" →
  ∃ w',
    process fuel job env w
      = (Throw (UnrecoverableError ("Unknown job type: " +:+ job_name job)),
         w') ∧
    tasks w' = tasks w ∧ queue w' = queue w ∧
    has_error_entry (logs w) (logs w').
Proof.
  intros H1 H2. unfold process, try_catch. unfold_M.
  rewrite (bool_decide_eq_false_2 _ H1), (bool_decide_eq_false_2 _ H2). cbn.
  eexists. split_and!; try reflexivity.
  eexists. rewrite <- !app_assoc. split; [reflexivity|]. cbn.
  do 2 apply Exists_cons_tl. apply Exists_cons_hd. reflexivity.
Qed.

Lemma process_unknown_job_type_witness :
  ∃ w',
    process 0 (mkJob "9" "send-report" ∅ retry_options 0 Waiting)
            Sample.env Sample.two_owners
      = (Throw (UnrecoverableError "Unknown job type: send-report"), w') ∧
    tasks w' = tasks Sample.two_owners ∧ queue w' = queue Sample.two_owners ∧
    has_error_entry (logs Sample.two_owners) (logs w').
Proof.
  apply (process_unknown_job_type 0
           (mkJob "9" "send-report" ∅ retry_options 0 Waiting)
           Sample.env Sample.two_owners); discriminate.
Defined.

(** C4. A 'task-status-update' job whose payload lacks [taskId] or
    [status], or whose status is outside the enum, makes [process] throw
    an UnrecoverableError.  Run by the worker, a fresh such job is
    attempted once and ends terminal-failed with an attempt count of 1,
    whatever its retry budget and however many turns the worker has
    left; it is not put back (the queue is as it was), the table is
    untouched, and an entry at error level was logged. *)
Theorem malformed_status_update_never_retried
    (turns fuel : nat) (job : Job) (env : Env) (w : World) :
  job_name job = "task-status-update" →
  malformed (job_data job) →
  attemptsMade job = 0 →
  job_state job = Waiting →
  (∃ msg w1, process fuel job env w = (Throw (UnrecoverableError msg), w1)) ∧
  ∃ job' w',
    run (S turns) fuel job env w = (Ok job', w') ∧
    attemptsMade job' = 1 ∧ job_state job' = Failed ∧
    queue w' = queue w ∧ tasks w' = tasks w ∧
    has_error_entry (logs w) (logs w').
Proof.
  intros Hname Hbad Hmade Hstate. split.
  { destruct (process_malformed fuel job env w Hname Hbad)
      as (msg & w1 & H & _). eauto. }
  cbn [run]. unfold settled at 1. rewrite Hstate.
  unfold attempt, dispatch, onActive. unfold_M. cbn.
  rewrite Hmade.
  edestruct (process_malformed fuel (with_attemptsMade 1 job) env)
    as (msg & w1 & -> & Ht & Hq & Ho & Hl); [done|done|].
  unfold onFailed. cbn.
  destruct turns; cbn; do 2 eexists;
    (split_and!; [reflexivity|..]); cbn; try done.
  all: eapply has_error_entry_trans; [|by eexists].
  all: eapply has_error_entry_pre; [exact Hl|]; cbn; by eexists.
Qed.

(** A job without a status, with a budget of five attempts. *)
Lemma malformed_status_update_never_retried_witness :
  ∃ job' w',
    run 6 0 (Sample.update_job (<["taskId" := JStr "t1"]> ∅) 5)
        Sample.env Sample.two_owners = (Ok job', w') ∧
    attemptsMade job' = 1 ∧ job_state job' = Failed.
Proof.
  destruct (malformed_status_update_never_retried 5 0
              (Sample.update_job (<["taskId" := JStr "t1"]> ∅) 5)
              Sample.env Sample.two_owners)
    as (_ & job' & w' & Hrun & Hmade & Hstate & _).
  - reflexivity.
  - right. left. reflexivity.
  - reflexivity.
  - reflexivity.
  - exists job', w'. split_and!; assumption.
Defined.

Lemma filter_id_absent tid rows :
  absent tid rows →
  filter (λ t, where_matches
            (mkTaskWhere (Some (IdEquals tid)) None None None None None) t)
         rows = [].
Proof.
  intros Habs.
  match goal with |- ?l = [] => destruct l as [|r rest] eqn:E end; [done|].
  assert (Hr : r ∈ r :: rest) by left.
  rewrite <- E in Hr. apply list_elem_of_filter in Hr as [Hm Hin].
  unfold where_matches in Hm. cbn in Hm.
  destruct (bool_decide (id r = tid)) eqn:Hd; [|done].
  apply bool_decide_eq_true in Hd. destruct Habs.
  apply list_elem_of_fmap. eauto.
Qed.

Lemma updateStatus_absent tid s env w :
  absent tid (tasks w) →
  ∃ msg w',
    updateStatus tid s env w = (Throw (NotFoundException msg), w') ∧
    tasks w' = tasks w ∧ queue w' = queue w ∧ outbox w' = outbox w.
Proof.
  intros Habs. unfold updateStatus, repo_findOne_where. unfold_M. cbn.
  rewrite filter_id_absent by done. cbn.
  do 2 eexists. split_and!; reflexivity.
Qed.

Lemma handleStatusUpdate_not_found job env w tid s :
  well_formed (job_data job) tid s →
  absent tid (tasks w) →
  ∃ msg w',
    handleStatusUpdate job env w = (Throw (NotFoundException msg), w') ∧
    tasks w' = tasks w ∧ queue w' = queue w ∧ outbox w' = outbox w.
Proof.
  intros (Hid & Hne & Hst) Habs.
  unfold handleStatusUpdate, try_catch. unfold_M. cbn.
  rewrite Hid, Hst. cbn.
  rewrite (bool_decide_eq_false_2 (tid = "")) by done.
  rewrite (bool_decide_eq_false_2 (TaskStatus_value s = ""))
    by apply TaskStatus_value_nonempty.
  cbn. rewrite as_TaskStatus_value.
  edestruct (updateStatus_absent tid s env) as (msg & w1 & -> & Ht & Hq & Ho).
  { cbn. exact Habs. }
  cbn. do 2 eexists. split_and!; [reflexivity|..]; done.
Qed.

Lemma process_not_found fuel job env w tid s :
  job_name job = "task-status-update" →
  well_formed (job_data job) tid s →
  absent tid (tasks w) →
  ∃ msg w',
    process fuel job env w = (Throw (NotFoundException msg), w') ∧
    tasks w' = tasks w ∧ queue w' = queue w ∧ outbox w' = outbox w.
Proof.
  intros Hname Hwf Habs.
  unfold process, try_catch. unfold_M. cbn.
  rewrite Hname.
  rewrite (bool_decide_eq_true_2 ("task-status-update" = "task-status-update"))
    by done.
  edestruct (handleStatusUpdate_not_found job env)
    as (msg & w1 & -> & Ht & Hq & Ho); [done| |].
  { cbn. exact Habs. }
  cbn. do 2 eexists. split_and!; [reflexivity|..]; done.
Qed.

Lemma attempt_not_found fuel job env w tid s :
  job_name job = "task-status-update" →
  well_formed (job_data job) tid s →
  absent tid (tasks w) →
  ∃ w',
    attempt fuel job env w
      = (Ok (nack (with_attemptsMade (S (attemptsMade job)) job)), w') ∧
    tasks w' = tasks w ∧ queue w' = queue w ∧ outbox w' = outbox w.
Proof.
  intros Hname Hwf Habs.
  unfold attempt, dispatch, onActive. unfold_M. cbn.
  edestruct (process_not_found fuel
               (with_attemptsMade (S (attemptsMade job)) job) env)
    as (msg & w1 & -> & Ht & Hq & Ho); [done|done| |].
  { cbn. exact Habs. }
  unfold onFailed. cbn. eexists. split_and!; [reflexivity|..]; done.
Qed.

(** With [S d] attempts left, the job is attempted [S d] more times and
    then fails for good. *)
Lemma run_not_found (d : nat) : ∀ turns fuel job env w tid s,
  job_name job = "task-status-update" →
  well_formed (job_data job) tid s →
  absent tid (tasks w) →
  settled job = false →
  attempts (job_opts job) = attemptsMade job + S d →
  d < turns →
  ∃ job' w',
    run turns fuel job env w = (Ok job', w') ∧
    job_state job' = Failed ∧
    attemptsMade job' = attempts (job_opts job) ∧
    tasks w' = tasks w ∧ queue w' = queue w.
Proof.
  induction d as [|d IH];
    intros turns fuel job env w tid s Hname Hwf Habs Hset Hatt Hturns.
  - destruct turns as [|turns]; [lia|]. cbn [run]. rewrite Hset.
    unfold_M.
    destruct (attempt_not_found fuel job env w tid s)
      as (w1 & -> & Ht & Hq & Ho); [done..|].
    unfold nack. cbn. rewrite bool_decide_eq_true_2 by lia.
    destruct turns; cbn; do 2 eexists;
      (split_and!; [reflexivity|..]); cbn; try done; lia.
  - destruct turns as [|turns]; [lia|]. cbn [run]. rewrite Hset.
    unfold_M.
    destruct (attempt_not_found fuel job env w tid s)
      as (w1 & -> & Ht & Hq & Ho); [done..|].
    edestruct (IH turns fuel
                 (nack (with_attemptsMade (S (attemptsMade job)) job))
                 env w1 tid s)
      as (job' & w' & Hrun & Hst & Ham & Ht' & Hq').
    + unfold nack. by case_bool_decide.
    + unfold nack. by case_bool_decide.
    + unfold absent. by rewrite Ht.
    + unfold nack. cbn. rewrite bool_decide_eq_false_2 by lia. done.
    + unfold nack. case_bool_decide; cbn; lia.
    + lia.
    + exists job', w'. split_and!; [exact Hrun|done|..].
      * rewrite Ham. unfold nack. by case_bool_decide.
      * congruence.
      * congruence.
Qed.

(** C5. A 'task-status-update' job with a well-formed payload whose task
    does not exist makes [process] throw a NotFoundException, which is
    not an UnrecoverableError, at every attempt (whatever the attempt
    count, in any world with the same table).  Run by the worker, a fresh
    such job with a budget of [attempts >= 1] is attempted exactly
    [attempts] times and then is terminal-failed, however many more turns
    the worker has; the table is untouched. *)
Theorem missing_task_retried_up_to_max_attempts
    (turns fuel : nat) (job : Job) (env : Env) (w : World)
    (tid : string) (s : TaskStatus) :
  job_name job = "task-status-update" →
  well_formed (job_data job) tid s →
  absent tid (tasks w) →
  attemptsMade job = 0 →
  job_state job = Waiting →
  1 ≤ attempts (job_opts job) →
  attempts (job_opts job) ≤ turns →
  (∀ k w1, tasks w1 = tasks w →
     ∃ msg w2,
       process fuel (with_attemptsMade k job) env w1
         = (Throw (NotFoundException msg), w2) ∧
       is_UnrecoverableError (NotFoundException msg) = false) ∧
  ∃ job' w',
    run turns fuel job env w = (Ok job', w') ∧
    job_state job' = Failed ∧
    attemptsMade job' = attempts (job_opts job) ∧
    tasks w' = tasks w.
Proof.
  intros Hname Hwf Habs Hmade Hstate Hmin Hturns. split.
  - intros k w1 Hw1.
    destruct (process_not_found fuel (with_attemptsMade k job) env w1 tid s)
      as (msg & w2 & Hp & _); [done|done| |by eauto].
    unfold absent. by rewrite Hw1.
  - destruct (run_not_found (attempts (job_opts job) - 1)
                turns fuel job env w tid s)
      as (job' & w' & Hrun & Hst & Ham & Ht & _);
      try done; try lia.
    + unfold settled. by rewrite Hstate.
    + eauto 10.
Qed.

(** The producers' own job (three attempts) for a task that is not in
    the table. *)
Lemma missing_task_retried_up_to_max_attempts_witness :
  ∃ job' w',
    run 10 0 (Sample.update_job (status_update_payload "t9" COMPLETED) 3)
        Sample.env Sample.two_owners = (Ok job', w') ∧
    job_state job' = Failed ∧ attemptsMade job' = 3.
Proof.
  destruct (missing_task_retried_up_to_max_attempts 10 0
              (Sample.update_job (status_update_payload "t9" COMPLETED) 3)
              Sample.env Sample.two_owners "t9" COMPLETED)
    as (_ & job' & w' & Hrun & Hstate & Hmade & _).
  - reflexivity.
  - split_and!; [reflexivity|done|reflexivity].
  - unfold absent. compute_done.
  - reflexivity.
  - reflexivity.
  - vm_compute. lia.
  - vm_compute. lia.
  - exists job', w'. split_and!; assumption.
Defined.

(** ** The overdue sweep: effects of one page *)

Lemma sweep_effect_refl w : sweep_effect w w [] [].
Proof.
  unfold sweep_effect. rewrite !app_nil_r.
  split_and!; try done; try (cbn; lia).
  exists []. by rewrite app_nil_r.
Qed.

Lemma sweep_effect_trans w w1 w2 rs1 rs2 c1 c2 :
  sweep_effect w w1 rs1 c1 → sweep_effect w1 w2 rs2 c2 →
  sweep_effect w w2 (rs1 ++ rs2) (c1 ++ c2).
Proof.
  intros (Ht1 & Hq1 & Hr1 & Ho1 & Hk1 & m1 & Hl1)
         (Ht2 & Hq2 & Hr2 & Ho2 & Hk2 & m2 & Hl2).
  unfold sweep_effect.
  rewrite Ht2, Hq2, Hr2, Ho2, Hk2, Hl2, Ht1, Hq1, Hr1, Ho1, Hk1, Hl1.
  rewrite !app_assoc, length_app. split_and!; try done; try lia.
  exists (m1 ++ m2). by rewrite app_assoc.
Qed.

Lemma sweep_effect_logs w l : sweep_effect w (set_logs (logs w ++ l) w) [] [].
Proof.
  unfold sweep_effect. cbn. rewrite !app_nil_r.
  split_and!; try done; try lia. by eexists.
Qed.

(** [notify] never throws: a failed [sendMail] is caught and logged. *)
Lemma notify_run dto env w :
  ∃ w' calls,
    notify dto env w = (Ok (), w') ∧ sweep_effect w w' [] calls ∧
    addressed <$> calls = option_list (notification (entity dto)).
Proof.
  unfold notify, notification, recipient.
  destruct (user (entity dto)) as [u|] eqn:Hu.
  2:{ unfold_M. do 2 eexists.
      split_and!; [reflexivity|apply sweep_effect_logs|by destruct (dueDate _)]. }
  destruct (bool_decide (email u = "")) eqn:He; cbn.
  { destruct (dueDate (entity dto)); unfold_M;
      do 2 eexists; (split_and!; [reflexivity|apply sweep_effect_logs|done]). }
  unfold try_catch, sendMail. unfold_M.
  destruct (dueDate (entity dto)) as [d|]; cbn.
  - destruct (smtp_ok env _ _); cbn.
    + do 2 eexists. split; [reflexivity|]. split.
      * unfold sweep_effect. cbn. rewrite app_nil_r.
        split_and!; try done; try lia. by eexists.
      * done.
    + do 2 eexists. split; [reflexivity|]. split.
      * unfold sweep_effect. cbn. rewrite app_nil_r.
        split_and!; try done; try lia. by eexists.
      * done.
  - do 2 eexists. split_and!; [reflexivity|apply sweep_effect_logs|done].
Qed.

Lemma for_of_notify_run (pg : list TaskResponseDto) : ∀ env w,
  ∃ w' calls,
    for_of pg notify env w = (Ok (), w') ∧ sweep_effect w w' [] calls ∧
    addressed <$> calls = omap notification (entity <$> pg).
Proof.
  induction pg as [|dto pg IH]; intros env w.
  - exists w, []. split_and!; [done|apply sweep_effect_refl|done].
  - cbn [for_of]. unfold mbind, M_MBind, M_bind.
    destruct (notify_run dto env w) as (w1 & c1 & -> & He1 & Ha1).
    destruct (IH env w1) as (w2 & c2 & -> & He2 & Ha2).
    exists w2, (c1 ++ c2). split_and!; [done| |].
    + exact (sweep_effect_trans _ _ _ _ _ _ _ He1 He2).
    + rewrite fmap_app, Ha1, Ha2. cbn.
      by destruct (notification (entity dto)).
Qed.

Lemma entity_mkTaskResponseDto (l : list Task) :
  entity <$> (mkTaskResponseDto <$> l) = l.
Proof. induction l; [done|]. cbn. by f_equal. Qed.

(** One page read of the sweep: [findAll] asks the repository for the
    window that starts at row [i * batchSize]. *)
Lemma findAll_overdue_run now i env w :
  let pg :=
    take batchSize (drop (i * batchSize) (select (sweep_where now) (tasks w))) in
  ∃ w' dto,
    findAll (overdue_query now (i * batchSize)) None false env w
      = (Ok dto, w') ∧
    data dto = mkTaskResponseDto <$> pg ∧
    tasks w' = tasks w ∧ queue w' = queue w ∧ outbox w' = outbox w ∧
    ticks w' = ticks w ∧
    reads w' = reads w ++ [mkPageRead (i * batchSize) batchSize pg] ∧
    ∃ more, logs w' = logs w ++ more.
Proof.
  intros pg. unfold findAll, repo_findAndCount, overdue_query.
  unfold_M. cbn.
  assert (Hdiv : (i * batchSize) / batchSize = i).
  { unfold batchSize. apply Nat.div_mul. lia. }
  rewrite Hdiv. rewrite Nat.add_1_r. cbn.
  rewrite Nat.sub_0_r.
  do 2 eexists. split_and!; try reflexivity.
  cbn. rewrite <- app_assoc. by eexists.
Qed.

(** ** The loop against its pages *)

Lemma sweep_run (fuel : nat) : ∀ i tot env w,
  ∃ w',
    sweep fuel (i * batchSize) tot env w
      = (sweep_outcome tot (sweep_pages env (tasks w) fuel (ticks w) i), w') ∧
    ∀ pgs, sweep_pages env (tasks w) fuel (ticks w) i = Some pgs →
      ∃ calls,
        sweep_effect w w' (page_reads i pgs) calls ∧
        addressed <$> calls = omap notification (concat pgs).
Proof.
  induction fuel as [|fuel IH]; intros i tot env w.
  { cbn. by eexists. }
  cbn [sweep sweep_pages].
  set (pg := page_of env (tasks w) (ticks w) i).
  unfold mbind at 1, M_MBind at 1, M_bind at 1, new_Date at 1.
  unfold mbind at 1, M_MBind at 1, M_bind at 1.
  destruct (findAll_overdue_run (clock env (ticks w)) i env
              (set_ticks (S (ticks w)) w))
    as (w1 & dto & -> & Hdata & Ht & Hq & Ho & Hk & Hr & more & Hl).
  cbn in Hdata, Ht, Hq, Ho, Hk, Hr, Hl.
  fold (overdue_rows env (tasks w) (ticks w)) in Hdata, Hr.
  fold (page_of env (tasks w) (ticks w) i) in Hdata, Hr. fold pg in Hdata, Hr.
  assert (Hlen : length (data dto) = length pg)
    by (by rewrite Hdata, length_fmap).
  assert (Hstep :
    sweep_effect w w1 [mkPageRead (i * batchSize) batchSize pg] []).
  { unfold sweep_effect. rewrite app_nil_r. cbn.
    split_and!; try done; try lia. by eexists. }
  rewrite Hlen.
  destruct (bool_decide (length pg = 0)) eqn:H0.
  { exists w1. cbn. rewrite app_nil_r.
    apply bool_decide_eq_true in H0. apply nil_length_inv in H0 as Hnil.
    rewrite Hnil. split; [by rewrite Nat.add_0_r|].
    intros pgs [= <-]. exists []. cbn. split; [|done].
    by rewrite <- Hnil. }
  unfold mbind at 1, M_MBind at 1, M_bind at 1.
  destruct (for_of_notify_run (data dto) env w1)
    as (w2 & calls & -> & He2 & Ha2).
  unfold mbind at 1, M_MBind at 1, M_bind at 1, logger at 1, modify at 1.
  set (w3 := set_logs _ w2).
  assert (He3 :
    sweep_effect w w3 [mkPageRead (i * batchSize) batchSize pg] calls).
  { assert (He : sweep_effect w2 w3 [] []) by apply sweep_effect_logs.
    pose proof (sweep_effect_trans _ _ _ _ _ _ _ Hstep
      (sweep_effect_trans _ _ _ _ _ _ _ He2 He)) as H.
    cbn in H. by rewrite !app_nil_r in H. }
  assert (Ha3 : addressed <$> calls = omap notification pg).
  { by rewrite Ha2, Hdata, entity_mkTaskResponseDto. }
  destruct (bool_decide (length pg < batchSize)) eqn:H1.
  { exists w3. cbn. rewrite app_nil_r. split; [done|].
    intros pgs [= <-]. exists calls. cbn. rewrite app_nil_r. done. }
  replace (i * batchSize + batchSize) with (S i * batchSize) by lia.
  destruct (IH (S i) (tot + length pg) env w3) as (w4 & Hrun & Hpgs).
  destruct He3 as (Ht3 & Hq3 & Hr3 & Ho3 & Hk3 & Hl3).
  rewrite Ht3, Hk3 in Hrun, Hpgs. cbn [length] in Hrun, Hpgs.
  replace (ticks w + 1) with (S (ticks w)) in Hrun, Hpgs by lia.
  exists w4. rewrite Hrun. split.
  - destruct (sweep_pages env (tasks w) fuel (S (ticks w)) (S i)) as [pgs|];
      cbn; [|done]. f_equal. f_equal. rewrite length_app. lia.
  - intros pgs Hsome.
    destruct (sweep_pages env (tasks w) fuel (S (ticks w)) (S i)) as [pgs'|];
      [|done]. cbn in Hsome. injection Hsome as <-.
    destruct (Hpgs pgs' eq_refl) as (calls' & He4 & Ha4).
    exists (calls ++ calls'). split.
    + eapply (sweep_effect_trans w w3 w4 [_] _ calls calls'); [|exact He4].
      unfold sweep_effect. split_and!; done.
    + rewrite fmap_app, Ha3, Ha4. cbn. by rewrite omap_app.
Qed.

Lemma handleOverdueTasks_run fuel job env w :
  ∃ w',
    handleOverdueTasks fuel job env w
      = (sweep_result (sweep_pages env (tasks w) fuel (ticks w) 0), w') ∧
    ∀ pgs, sweep_pages env (tasks w) fuel (ticks w) 0 = Some pgs →
      ∃ calls,
        sweep_effect w w' (page_reads 0 pgs) calls ∧
        addressed <$> calls = omap notification (concat pgs).
Proof.
  unfold handleOverdueTasks, try_catch.
  unfold mbind at 1, M_MBind at 1, M_bind at 1, logger at 1, modify at 1.
  set (w0 := set_logs _ w).
  unfold mbind at 1, M_MBind at 1, M_bind at 1.
  destruct (sweep_run fuel 0 0 env w0) as (w1 & Hrun & Hpgs).
  cbn in Hrun, Hpgs. rewrite Hrun.
  destruct (sweep_pages env (tasks w) fuel (ticks w) 0) as [pgs|]; cbn.
  - unfold_M. eexists. split; [reflexivity|].
    intros pgs' [= <-]. destruct (Hpgs pgs eq_refl) as (calls & He & Ha).
    exists calls. split; [|done].
    assert (H0 : sweep_effect w w0 [] []) by apply sweep_effect_logs.
    match goal with
    | |- sweep_effect _ (set_logs (logs w1 ++ ?l) w1) _ _ =>
        pose proof (sweep_effect_logs w1 l) as H1
    end.
    pose proof (sweep_effect_trans _ _ _ _ _ _ _ H0
      (sweep_effect_trans _ _ _ _ _ _ _ He H1)) as H.
    cbn in H. rewrite !app_nil_r in H. exact H.
  - eexists. split; [reflexivity|]. done.
Qed.

(** ** The pages, as a function of the table and the clock *)

(** The sweep's [findAll] builds the same [where] for every page. *)
Lemma findAll_where_overdue_query now offset :
  findAll_where (overdue_query now offset) None false = sweep_where now.
Proof. reflexivity. Qed.

Lemma where_matches_sweep now t :
  where_matches (sweep_where now) t = overdue_as_queried now t.
Proof.
  unfold where_matches, sweep_where, overdue_as_queried. cbn.
  by rewrite !andb_true_r.
Qed.

Lemma insert_DESC_perm t l : insert_DESC t l ≡ₚ t :: l.
Proof.
  induction l as [|r l IH]; [done|]. cbn.
  destruct (createdAt r <=? createdAt t)%Z; [done|].
  by rewrite IH, Permutation_swap.
Qed.

Lemma order_createdAt_DESC_perm l : order_createdAt_DESC l ≡ₚ l.
Proof.
  induction l as [|r l IH]; [done|].
  unfold order_createdAt_DESC in *. cbn.
  by rewrite insert_DESC_perm, IH.
Qed.

Lemma overdue_rows_perm env rows k :
  overdue_rows env rows k
    ≡ₚ filter (λ t, overdue_as_queried (clock env k) t) rows.
Proof.
  unfold overdue_rows, select. rewrite order_createdAt_DESC_perm.
  erewrite list_filter_iff; [done|].
  intros t. by rewrite where_matches_sweep.
Qed.

Lemma overdue_rows_length env rows k :
  length (overdue_rows env rows k) = overdue_count env rows k.
Proof. unfold overdue_count. by rewrite overdue_rows_perm. Qed.

Lemma overdue_count_le env rows k : overdue_count env rows k ≤ length rows.
Proof. apply length_filter. Qed.

Lemma page_of_length env rows k i :
  length (page_of env rows k i)
    = batchSize `min` (overdue_count env rows k - i * batchSize).
Proof.
  unfold page_of. by rewrite length_take, length_drop, overdue_rows_length.
Qed.

(** The short-page test guarantees progress: when the query never selects
    more than [n] rows, [fuel] iterations with [n < (i + fuel) * batchSize]
    reach a short page, after at most [n / batchSize + 1] pages from the
    start. *)
Lemma sweep_pages_terminates env rows n :
  (∀ k, overdue_count env rows k ≤ n) →
  ∀ fuel tick i,
    i * batchSize ≤ n → n < (i + fuel) * batchSize →
    ∃ pgs, sweep_pages env rows fuel tick i = Some pgs ∧
           i + length pgs ≤ n / batchSize + 1.
Proof.
  intros Hn. induction fuel as [|fuel IH]; intros tick i Hi Hfuel.
  { rewrite Nat.add_0_r in Hfuel. lia. }
  assert (Hdiv : i ≤ n / batchSize).
  { apply Nat.div_le_lower_bound; unfold batchSize in *; lia. }
  cbn [sweep_pages].
  pose proof (page_of_length env rows tick i) as Hlen.
  pose proof (Hn tick) as Hk.
  case_bool_decide; [eexists; split; [done|cbn; lia]|].
  case_bool_decide; [eexists; split; [done|cbn; lia]|].
  destruct (IH (S tick) (S i)) as (pgs & -> & Hb).
  - unfold batchSize in *. lia.
  - unfold batchSize in *. lia.
  - eexists. split; [done|]. cbn. lia.
Qed.

Lemma sweep_pages_total env rows fuel tick :
  length rows / batchSize < fuel →
  ∃ pgs, sweep_pages env rows fuel tick 0 = Some pgs.
Proof.
  intros Hfuel.
  destruct (sweep_pages_terminates env rows (length rows)
              (overdue_count_le env rows) fuel tick 0) as (pgs & H & _).
  - lia.
  - pose proof (Nat.div_mod_eq (length rows) batchSize) as Hdm.
    pose proof (Nat.mod_upper_bound (length rows) batchSize) as Hmod.
    unfold batchSize in *. lia.
  - eauto.
Qed.

Lemma sweep_pages_shape env rows : ∀ fuel tick i pgs,
  sweep_pages env rows fuel tick i = Some pgs →
  stops_at_first_short_page (length <$> pgs).
Proof.
  induction fuel as [|fuel IH]; intros tick i pgs; [done|].
  cbn [sweep_pages].
  pose proof (page_of_length env rows tick i) as Hlen.
  case_bool_decide as H0.
  { intros [= <-]. exists [], 0. cbn. rewrite H0. split_and!; [done|done|].
    unfold batchSize. lia. }
  case_bool_decide as H1.
  { intros [= <-]. exists [], (length (page_of env rows tick i)).
    split_and!; done. }
  destruct (sweep_pages env rows fuel (S tick) (S i)) as [pgs'|] eqn:E; [|done].
  intros [= <-]. destruct (IH _ _ _ E) as (full & last & Heq & Hfull & Hlast).
  exists (length (page_of env rows tick i) :: full), last. cbn.
  rewrite Heq. split_and!; [done| |done].
  constructor; [lia|done].
Qed.

(** 250 selected rows: three pages, of 100, 100 and 50 rows. *)
Lemma sweep_pages_250 env rows fuel tick :
  (∀ k, overdue_count env rows k = 250) →
  ∃ p0 p1 p2,
    sweep_pages env rows (S (S (S fuel))) tick 0 = Some [p0; p1; p2] ∧
    length p0 = 100 ∧ length p1 = 100 ∧ length p2 = 50.
Proof.
  intros H250.
  pose proof (page_of_length env rows tick 0) as L0.
  pose proof (page_of_length env rows (S tick) 1) as L1.
  pose proof (page_of_length env rows (S (S tick)) 2) as L2.
  rewrite H250 in L0, L1, L2. unfold batchSize in L0, L1, L2. cbn in L0, L1, L2.
  exists (page_of env rows tick 0), (page_of env rows (S tick) 1),
         (page_of env rows (S (S tick)) 2).
  cbn [sweep_pages].
  rewrite (bool_decide_eq_false_2 (length (page_of env rows tick 0) = 0))
    by lia.
  rewrite (bool_decide_eq_false_2
             (length (page_of env rows tick 0) < batchSize))
    by (unfold batchSize; lia).
  rewrite (bool_decide_eq_false_2 (length (page_of env rows (S tick) 1) = 0))
    by lia.
  rewrite (bool_decide_eq_false_2
             (length (page_of env rows (S tick) 1) < batchSize))
    by (unfold batchSize; lia).
  rewrite (bool_decide_eq_false_2
             (length (page_of env rows (S (S tick)) 2) = 0)) by lia.
  rewrite (bool_decide_eq_true_2
             (length (page_of env rows (S (S tick)) 2) < batchSize))
    by (unfold batchSize; lia).
  split_and!; done.
Qed.

Lemma filter_agree (f g : Task → bool) (l : list Task) :
  (∀ t, t ∈ l → f t = g t) →
  filter (λ t, f t) l = filter (λ t, g t) l.
Proof.
  induction l as [|a l IH]; intros H; [done|].
  rewrite (filter_cons (λ t, f t)), (filter_cons (λ t, g t)).
  rewrite (H a) by left. rewrite IH; [done|].
  intros t Ht. apply H. by right.
Qed.

(** The pages depend on the environment through the clock only. *)
Lemma sweep_pages_clock env1 env2 rows :
  (∀ k, clock env1 k = clock env2 k) →
  ∀ fuel tick i,
    sweep_pages env1 rows fuel tick i = sweep_pages env2 rows fuel tick i.
Proof.
  intros Hc. induction fuel as [|fuel IH]; intros tick i; [done|].
  cbn [sweep_pages]. unfold page_of, overdue_rows. rewrite (Hc tick).
  by rewrite IH.
Qed.

(** When the clock readings select the same rows, the pages do not
    depend on when the sweep starts. *)
Lemma sweep_pages_stable env rows :
  (∀ k t, t ∈ rows →
     overdue_as_queried (clock env k) t = overdue_as_queried (clock env 0) t) →
  ∀ fuel t1 t2 i,
    sweep_pages env rows fuel t1 i = sweep_pages env rows fuel t2 i.
Proof.
  intros Hst.
  assert (Hrows : ∀ k, overdue_rows env rows k = overdue_rows env rows 0).
  { intros k. unfold overdue_rows, select. f_equal.
    apply filter_agree. intros t Ht.
    rewrite !where_matches_sweep. by apply Hst. }
  induction fuel as [|fuel IH]; intros t1 t2 i; [done|].
  cbn [sweep_pages]. unfold page_of. rewrite (Hrows t1), (Hrows t2).
  by rewrite (IH (S t1) (S t2)).
Qed.

(** Every fetched row was selected by the query, so it has a due date. *)
Lemma sweep_pages_rows env rows : ∀ fuel tick i pgs,
  sweep_pages env rows fuel tick i = Some pgs →
  Forall (λ t, t ∈ rows ∧ ∃ k, overdue_as_queried (clock env k) t = true)
         (concat pgs).
Proof.
  assert (Hpg : ∀ tick i,
    Forall (λ t, t ∈ rows ∧ ∃ k, overdue_as_queried (clock env k) t = true)
           (page_of env rows tick i)).
  { intros tick i. apply Forall_forall. intros t Ht.
    unfold page_of in Ht. apply subseteq_take, subseteq_drop in Ht.
    rewrite overdue_rows_perm in Ht.
    apply list_elem_of_filter in Ht as [Hm Hin].
    split; [done|]. exists tick. by apply Is_true_true. }
  induction fuel as [|fuel IH]; intros tick i pgs; [done|].
  cbn [sweep_pages].
  case_bool_decide. { intros [= <-]. cbn. rewrite app_nil_r. apply Hpg. }
  case_bool_decide. { intros [= <-]. cbn. rewrite app_nil_r. apply Hpg. }
  destruct (sweep_pages env rows fuel (S tick) (S i)) as [pgs'|] eqn:E; [|done].
  intros [= <-]. cbn. apply Forall_app. split; [apply Hpg|by eapply IH].
Qed.

(** More precisely, it was selected at one of the clock readings of the
    sweep, which are the readings [tick], ..., [tick + length pgs - 1]. *)
Lemma sweep_pages_rows_read env rows : ∀ fuel tick i pgs,
  sweep_pages env rows fuel tick i = Some pgs →
  Forall (λ t, t ∈ rows ∧
               ∃ k, tick ≤ k < tick + length pgs ∧
                    overdue_as_queried (clock env k) t = true)
         (concat pgs).
Proof.
  assert (Hpg : ∀ tick i n,
    Forall (λ t, t ∈ rows ∧
                 ∃ k, tick ≤ k < tick + S n ∧
                      overdue_as_queried (clock env k) t = true)
           (page_of env rows tick i)).
  { intros tick i n. apply Forall_forall. intros t Ht.
    unfold page_of in Ht. apply subseteq_take, subseteq_drop in Ht.
    rewrite overdue_rows_perm in Ht.
    apply list_elem_of_filter in Ht as [Hm Hin].
    split; [done|]. exists tick. split; [lia|]. by apply Is_true_true. }
  induction fuel as [|fuel IH]; intros tick i pgs; [done|].
  cbn [sweep_pages].
  case_bool_decide. { intros [= <-]. cbn. rewrite app_nil_r. apply Hpg. }
  case_bool_decide. { intros [= <-]. cbn. rewrite app_nil_r. apply Hpg. }
  destruct (sweep_pages env rows fuel (S tick) (S i)) as [pgs'|] eqn:E; [|done].
  intros [= <-]. cbn [concat length]. apply Forall_app. split; [apply Hpg|].
  eapply Forall_impl; [by eapply IH|].
  intros t (Hin & k & Hk & Hq). split; [done|]. exists k. split; [lia|done].
Qed.

Lemma notification_fetched env rows fuel tick i pgs :
  sweep_pages env rows fuel tick i = Some pgs →
  omap notification (concat pgs) = omap recipient (concat pgs).
Proof.
  intros H. apply sweep_pages_rows in H.
  induction H as [|t l [_ [k Hk]] _ IH]; [done|].
  cbn. rewrite IH. unfold notification.
  unfold overdue_as_queried in Hk.
  destruct (dueDate t); [done|]. by rewrite andb_false_r in Hk.
Qed.

Lemma read_rows_page_reads pgs : ∀ i, read_rows <$> page_reads i pgs = pgs.
Proof. induction pgs as [|pg pgs IH]; intros i; [done|]. cbn. by rewrite IH. Qed.

Lemma length_page_reads pgs : ∀ i, length (page_reads i pgs) = length pgs.
Proof. induction pgs as [|pg pgs IH]; intros i; [done|]. cbn. by rewrite IH. Qed.

(** A sweep with enough fuel for the size of the table completes; its
    result, its reads and its mail calls are those of its pages. *)
Lemma handleOverdueTasks_completes fuel job env w :
  length (tasks w) / batchSize < fuel →
  ∃ pgs w' calls,
    sweep_pages env (tasks w) fuel (ticks w) 0 = Some pgs ∧
    handleOverdueTasks fuel job env w
      = (Ok (SweepCompleted (completed_message (length (concat pgs)))), w') ∧
    sweep_effect w w' (page_reads 0 pgs) calls ∧
    addressed <$> calls = omap recipient (concat pgs).
Proof.
  intros Hfuel.
  destruct (sweep_pages_total env (tasks w) fuel (ticks w) Hfuel) as (pgs & Hp).
  destruct (handleOverdueTasks_run fuel job env w) as (w' & Hrun & Hpgs).
  destruct (Hpgs pgs Hp) as (calls & He & Ha).
  rewrite Hp in Hrun. exists pgs, w', calls. split_and!; try done.
  rewrite Ha. by eapply notification_fetched.
Qed.

(** ** The overdue sweep: the stated properties *)

(** C6, at a failing input.  The table holds exactly 250 pending tasks
    whose due date is before now, one of them due in 1899.  [findAll]
    turns [dueDateBefore] into [Between] 1900-01-01 and that date, where
    its own comment says tasks before a certain date: the lower bound
    leaves the task of 1899 out, and the sweep reads pages of 100, 100
    and 49 rows and reports 249, not 100, 100 and 50 rows and 250. *)
Example sweep_of_250_overdue_tasks_misses_one_due_before_1900 :
  (∀ k, length (filter (λ t, overdue_as_specified (clock Sample.env k) t)
                       (tasks Sample.with_ancient_task)) = 250) ∧
  fst (handleOverdueTasks 5 Sample.sweep_job Sample.env
         Sample.with_ancient_task)
    = Ok (SweepCompleted (completed_message 249)) ∧
  read_shape <$>
    reads (snd (handleOverdueTasks 5 Sample.sweep_job Sample.env
                  Sample.with_ancient_task))
    = [(0, 100, 100); (100, 100, 100); (200, 100, 49)] ∧
  completed_message 249 ≠ completed_message 250.
Proof.
  split_and!.
  - intros k. vm_compute. reflexivity.
  - vm_compute. reflexivity.
  - vm_compute. reflexivity.
  - vm_compute. discriminate.
Qed.

(** The paging itself.  When the sweep's query (pending, due between
    1900-01-01 and now inclusive, any owner) selects exactly 250 rows at
    every reading of the clock, the sweep reads exactly three pages, at
    offsets 0, 100 and 200 with page size 100, of 100, 100 and 50 rows,
    and reports a total of 250.  In general, whenever the sweep returns,
    every page it read but the last was full and the last was shorter
    than the page size (possibly empty). *)
Lemma sweep_reads_three_pages_for_250
    (env : Env) (w : World) (fuel : nat) (job : Job) :
  ((∀ k, overdue_count env (tasks w) k = 250) → 3 ≤ fuel →
   ∃ w' rs,
     handleOverdueTasks fuel job env w
       = (Ok (SweepCompleted (completed_message 250)), w') ∧
     reads w' = reads w ++ rs ∧
     read_shape <$> rs = [(0, 100, 100); (100, 100, 100); (200, 100, 50)]) ∧
  (∀ r w', handleOverdueTasks fuel job env w = (Ok r, w') →
   ∃ rs, reads w' = reads w ++ rs ∧
         stops_at_first_short_page (length <$> (read_rows <$> rs))).
Proof.
  destruct (handleOverdueTasks_run fuel job env w) as (w1 & Hrun & Hpgs).
  split.
  - intros H250 Hfuel.
    destruct fuel as [|[|[|fuel]]]; try lia.
    destruct (sweep_pages_250 env (tasks w) fuel (ticks w) H250)
      as (p0 & p1 & p2 & Hp & L0 & L1 & L2).
    destruct (Hpgs _ Hp) as (calls & (_ & _ & Hr & _) & _).
    rewrite Hp in Hrun. cbn in Hrun. rewrite !length_app, L0, L1, L2 in Hrun.
    exists w1, (page_reads 0 [p0; p1; p2]).
    split_and!; [exact Hrun|exact Hr|].
    cbn. unfold read_shape. cbn. by rewrite L0, L1, L2.
  - intros r w' Hok. rewrite Hrun in Hok.
    destruct (sweep_pages env (tasks w) fuel (ticks w) 0) as [pgs|] eqn:Hp;
      [|done].
    injection Hok as _ <-.
    destruct (Hpgs pgs eq_refl) as (calls & (_ & _ & Hr & _) & _).
    exists (page_reads 0 pgs). split; [exact Hr|].
    rewrite read_rows_page_reads. by eapply sweep_pages_shape.
Qed.

Lemma sweep_reads_three_pages_for_250_witness :
  ∃ w' rs,
    handleOverdueTasks 3 Sample.sweep_job Sample.env Sample.overdue_250
      = (Ok (SweepCompleted (completed_message 250)), w') ∧
    reads w' = reads Sample.overdue_250 ++ rs ∧
    read_shape <$> rs = [(0, 100, 100); (100, 100, 100); (200, 100, 50)].
Proof.
  apply (sweep_reads_three_pages_for_250
           Sample.env Sample.overdue_250 3 Sample.sweep_job).
  - intros k. vm_compute. reflexivity.
  - lia.
Defined.

Lemma ceil_div_bounds n :
  n < (ceil_div n batchSize + 1) * batchSize ∧
  n / batchSize ≤ ceil_div n batchSize.
Proof.
  unfold ceil_div, batchSize. cbn [Nat.sub].
  pose proof (Nat.div_mod_eq (n + 99) 100) as Hdm.
  pose proof (Nat.mod_upper_bound (n + 99) 100) as Hmod.
  split; [lia|].
  apply Nat.Div0.div_le_mono. lia.
Qed.

(** The bound in terms of what the query selects.  The repository
    serves a page as the window [skip, skip + take) of the ordered
    selection, so successive page reads advance through it.  Against
    such a table, unchanged during the sweep, when the sweep's query
    selects [n] rows at every reading of the clock, a sweep given fuel
    for [ceil(n / 100) + 1] iterations returns, having gone through the
    loop (one page read and one clock reading per iteration) at most
    [ceil(n / 100) + 1] times. *)
Lemma sweep_terminates_within_bound
    (env : Env) (w : World) (fuel : nat) (job : Job) (n : nat) :
  (∀ k, overdue_count env (tasks w) k = n) →
  ceil_div n batchSize + 1 ≤ fuel →
  ∃ r w' rs,
    handleOverdueTasks fuel job env w = (Ok r, w') ∧
    reads w' = reads w ++ rs ∧
    ticks w' = ticks w + length rs ∧
    length rs ≤ ceil_div n batchSize + 1.
Proof.
  intros Hn Hfuel.
  destruct (ceil_div_bounds n) as [Hb1 Hb2].
  destruct (sweep_pages_terminates env (tasks w) n) with
    (fuel := fuel) (tick := ticks w) (i := 0) as (pgs & Hp & Hlen).
  - intros k. by rewrite Hn.
  - lia.
  - unfold batchSize in *. nia.
  - destruct (handleOverdueTasks_run fuel job env w) as (w' & Hrun & Hpgs).
    destruct (Hpgs pgs Hp) as (calls & (_ & _ & Hr & _ & Hk & _) & _).
    rewrite Hp in Hrun.
    do 3 eexists. split_and!; [exact Hrun|exact Hr|exact Hk|].
    rewrite length_page_reads. lia.
Qed.

Lemma sweep_terminates_within_bound_witness :
  ∃ r w' rs,
    handleOverdueTasks 4 Sample.sweep_job Sample.env Sample.overdue_250
      = (Ok r, w') ∧
    reads w' = reads Sample.overdue_250 ++ rs ∧
    ticks w' = ticks Sample.overdue_250 + length rs ∧
    length rs ≤ ceil_div 250 batchSize + 1.
Proof.
  apply (sweep_terminates_within_bound
           Sample.env Sample.overdue_250 4 Sample.sweep_job 250).
  - intros k. vm_compute. reflexivity.
  - vm_compute. lia.
Defined.


(** C8.  Whatever the mail transport does ([smtp] decides, call by call,
    whether a delivery fails), a sweep with enough fuel for the table
    returns successfully, reads the pages that the table and the clock
    determine, and calls [sendMail] once for every fetched task that has
    a user with a non-empty address, in order: a failed call stops
    neither the rest of its page nor the later pages. *)
Theorem sweep_survives_mail_failures
    (env : Env) (w : World) (fuel : nat) (job : Job)
    (smtp : nat → SendMailOptions → bool) :
  length (tasks w) / batchSize < fuel →
  ∃ pgs w' calls,
    sweep_pages env (tasks w) fuel (ticks w) 0 = Some pgs ∧
    handleOverdueTasks fuel job (with_smtp smtp env) w
      = (Ok (SweepCompleted (completed_message (length (concat pgs)))), w') ∧
    reads w' = reads w ++ page_reads 0 pgs ∧
    outbox w' = outbox w ++ calls ∧
    addressed <$> calls = omap recipient (concat pgs).
Proof.
  intros Hfuel.
  destruct (handleOverdueTasks_completes fuel job (with_smtp smtp env) w Hfuel)
    as (pgs & w' & calls & Hp & Hrun & (_ & _ & Hr & Ho & _) & Ha).
  exists pgs, w', calls. split_and!; try done.
  rewrite <- Hp. by apply sweep_pages_clock.
Qed.

Lemma sweep_survives_mail_failures_witness :
  ∃ pgs w' calls,
    sweep_pages Sample.env (tasks Sample.ten_of_alice) 1
                (ticks Sample.ten_of_alice) 0 = Some pgs ∧
    handleOverdueTasks 1 Sample.sweep_job
        (with_smtp Sample.fourth_fails Sample.env) Sample.ten_of_alice
      = (Ok (SweepCompleted (completed_message (length (concat pgs)))), w') ∧
    reads w' = reads Sample.ten_of_alice ++ page_reads 0 pgs ∧
    outbox w' = outbox Sample.ten_of_alice ++ calls ∧
    addressed <$> calls = omap recipient (concat pgs).
Proof.
  apply (sweep_survives_mail_failures Sample.env Sample.ten_of_alice 1
           Sample.sweep_job Sample.fourth_fails).
  vm_compute. lia.
Defined.

(** The scenario of the specification: a page of ten tasks, the fourth
    [sendMail] fails; all ten calls are made, nine deliver, and the job
    reports success. *)
Example one_failing_mail_in_a_page_of_ten :
  let '(r, w') :=
    handleOverdueTasks 1 Sample.sweep_job
      (with_smtp Sample.fourth_fails Sample.env) Sample.ten_of_alice in
  r = Ok (SweepCompleted (completed_message 10)) ∧
  delivered <$> outbox w'
    = [true; true; true; false; true; true; true; true; true; true] ∧
  mail_task <$> outbox w' = id <$> reverse (tasks Sample.ten_of_alice).
Proof. vm_compute. split_and!; reflexivity. Qed.

(** C9.  Against a table in which no task becomes overdue between clock
    readings, two sweeps in succession both return successfully, call
    [sendMail] for the same task ids in the same order, and leave the
    table exactly as it was: the sweep reads and sends, it never
    writes. *)
Theorem sweep_twice_same_emails_no_writes
    (env : Env) (w : World) (fuel : nat) (job1 job2 : Job) :
  (∀ k t, t ∈ tasks w →
     overdue_as_queried (clock env k) t = overdue_as_queried (clock env 0) t) →
  length (tasks w) / batchSize < fuel →
  ∃ r w1 w2 calls1 calls2,
    handleOverdueTasks fuel job1 env w = (Ok r, w1) ∧
    handleOverdueTasks fuel job2 env w1 = (Ok r, w2) ∧
    outbox w1 = outbox w ++ calls1 ∧
    outbox w2 = outbox w1 ++ calls2 ∧
    mail_task <$> calls1 = mail_task <$> calls2 ∧
    tasks w1 = tasks w ∧ tasks w2 = tasks w ∧
    queue w1 = queue w ∧ queue w2 = queue w.
Proof.
  intros Hst Hfuel.
  destruct (handleOverdueTasks_completes fuel job1 env w Hfuel)
    as (pgs1 & w1 & calls1 & Hp1 & Hrun1 & (Ht1 & Hq1 & _ & Ho1 & _) & Ha1).
  assert (Hfuel1 : length (tasks w1) / batchSize < fuel) by (by rewrite Ht1).
  destruct (handleOverdueTasks_completes fuel job2 env w1 Hfuel1)
    as (pgs2 & w2 & calls2 & Hp2 & Hrun2 & (Ht2 & Hq2 & _ & Ho2 & _) & Ha2).
  rewrite Ht1 in Hp2.
  rewrite (sweep_pages_stable env (tasks w) Hst fuel (ticks w1) (ticks w) 0)
    in Hp2.
  assert (pgs2 = pgs1) as -> by congruence.
  exists (SweepCompleted (completed_message (length (concat pgs1)))),
         w1, w2, calls1, calls2.
  split_and!; try done; try congruence.
  assert (Hfst : ∀ cs : list MailCall, mail_task <$> cs = (addressed <$> cs).*1).
  { intros cs. rewrite <- list_fmap_compose. done. }
  by rewrite !Hfst, Ha1, Ha2.
Qed.

Lemma sweep_twice_same_emails_no_writes_witness :
  ∃ r w1 w2 calls1 calls2,
    handleOverdueTasks 1 Sample.sweep_job Sample.env Sample.ten_tasks
      = (Ok r, w1) ∧
    handleOverdueTasks 1 Sample.sweep_job Sample.env w1 = (Ok r, w2) ∧
    outbox w1 = outbox Sample.ten_tasks ++ calls1 ∧
    outbox w2 = outbox w1 ++ calls2 ∧
    mail_task <$> calls1 = mail_task <$> calls2 ∧
    tasks w1 = tasks Sample.ten_tasks ∧ tasks w2 = tasks Sample.ten_tasks ∧
    queue w1 = queue Sample.ten_tasks ∧ queue w2 = queue Sample.ten_tasks.
Proof.
  apply (sweep_twice_same_emails_no_writes Sample.env Sample.ten_tasks 1
           Sample.sweep_job Sample.sweep_job).
  - intros k t _. reflexivity.
  - vm_compute. lia.
Defined.




(** Ten fetched rows, eight with an address, one failed delivery: the
    sweep reports 10, not 8 and not 7. *)
Example total_is_not_the_number_of_emails :
  let '(r, w') :=
    handleOverdueTasks 1 Sample.sweep_job
      (with_smtp Sample.fourth_fails Sample.env) Sample.ten_tasks in
  r = Ok (SweepCompleted (completed_message 10)) ∧
  length (outbox w') = 8 ∧
  length (filter (λ c, delivered c) (outbox w')) = 7.
Proof. vm_compute. split_and!; reflexivity. Qed.

(** * Further properties of the tasks service *)

(** ** Reading one task *)

Lemma findOne_where_matches i uid isAdmin t :
  where_matches (findOne_where i (Some uid) isAdmin) t = true ↔
  id t = i ∧ (isAdmin = false → userId t = uid).
Proof.
  unfold where_matches, findOne_where. cbn. rewrite !andb_true_r.
  destruct isAdmin; cbn.
  - rewrite andb_true_r, bool_decide_eq_true.
    split; [intros H; split; [done|discriminate]|by intros [H _]].
  - rewrite andb_true_iff, !bool_decide_eq_true.
    split; intros [H1 H2]; split; auto.
Qed.

Lemma visible_row_Some i uid isAdmin rows t :
  visible_row i uid isAdmin rows = Some t →
  t ∈ rows ∧ id t = i ∧ (isAdmin = false → userId t = uid).
Proof.
  unfold visible_row. intros H. apply head_Some_elem_of in H.
  apply list_elem_of_filter in H as [Hm Hin]. split; [done|].
  apply findOne_where_matches. by apply Is_true_true.
Qed.

Lemma visible_row_None i uid isAdmin rows t :
  visible_row i uid isAdmin rows = None →
  t ∈ rows → id t = i → isAdmin = false ∧ userId t ≠ uid.
Proof.
  unfold visible_row. intros H Hin Hid.
  apply head_None in H.
  assert (Hn : ¬ where_matches (findOne_where i (Some uid) isAdmin) t).
  { intros Hm. assert (t ∈ @nil Task) as Hx; [|by apply not_elem_of_nil in Hx].
    rewrite <- H. apply list_elem_of_filter. done. }
  rewrite Is_true_true, findOne_where_matches in Hn.
  destruct isAdmin.
  - destruct Hn. split; [done|discriminate].
  - split; [done|]. intros Hu. destruct Hn. by split.
Qed.

(** [findOne] hands out a row only to whom it is visible.  When it
    returns, the row has the key asked for, is in the table and, unless
    the caller is an admin, belongs to the caller.  When it throws, the
    error is a NotFoundException and every row with that key belongs to
    someone else while the caller is no admin.  It changes neither the
    table nor the queue. *)
Theorem findOne_returns_only_visible_rows
    (i uid : string) (isAdmin : bool) (env : Env) (w : World) :
  match findOne i (Some uid) isAdmin env w with
  | (Ok t, w') =>
      id t = i ∧ t ∈ tasks w ∧ (isAdmin = false → userId t = uid) ∧
      tasks w' = tasks w ∧ queue w' = queue w
  | (Throw e, w') =>
      (∃ msg, e = NotFoundException msg) ∧
      (∀ t, t ∈ tasks w → id t = i → isAdmin = false ∧ userId t ≠ uid) ∧
      tasks w' = tasks w ∧ queue w' = queue w
  | (OutOfFuel, _) => False
  end.
Proof.
  unfold findOne, repo_findOne. unfold_M. cbn.
  fold (visible_row i uid isAdmin (tasks w)).
  destruct (visible_row i uid isAdmin (tasks w)) as [t|] eqn:Hv; cbn.
  - apply visible_row_Some in Hv as (Hin & Hid & Hown). by split_and!.
  - split_and!; try done; [by eexists|].
    intros t. by apply visible_row_None.
Qed.

(** ** Writing one task *)

Lemma replace_row_other t rows r :
  id r ≠ id t → (r ∈ replace_row t rows ↔ r ∈ rows).
Proof.
  intros Hne. unfold replace_row. rewrite list_elem_of_fmap. split.
  - intros (x & -> & Hx). case_bool_decide; [done|exact Hx].
  - intros Hr. exists r. split; [|done].
    by rewrite bool_decide_eq_false_2.
Qed.

Lemma replace_row_length t rows : length (replace_row t rows) = length rows.
Proof. unfold replace_row. by rewrite length_fmap. Qed.

Lemma replace_row_ids t rows : id <$> replace_row t rows = id <$> rows.
Proof.
  unfold replace_row. rewrite <- list_fmap_compose.
  apply list_fmap_ext. intros _ r _. cbn. by case_bool_decide.
Qed.

(** [update] of a task with a key rewrites that task and nothing else.
    When it returns, the saved entity is the row read before with the
    DTO's properties merged in; its key, owner and creation date are the
    old ones; the table has the same keys in the same order, holds the
    saved entity, and every row with another key is as it was.  A caller
    to whom no row with the key is visible gets a NotFoundException and
    changes nothing. *)
Theorem update_rewrites_only_its_row
    (i : string) (dto : UpdateTaskDto) (uid : string) (isAdmin : bool)
    (env : Env) (w : World) :
  i ≠ "" →
  match update i dto uid isAdmin env w with
  | (Ok updatedTask, w') =>
      ∃ before,
        visible_row i uid isAdmin (tasks w) = Some before ∧
        entity updatedTask = merge before dto ∧
        id (entity updatedTask) = i ∧
        userId (entity updatedTask) = userId before ∧
        createdAt (entity updatedTask) = createdAt before ∧
        id <$> tasks w' = id <$> tasks w ∧
        entity updatedTask ∈ tasks w' ∧
        ∀ r, id r ≠ i → (r ∈ tasks w' ↔ r ∈ tasks w)
  | (Throw e, w') =>
      visible_row i uid isAdmin (tasks w) = None →
      (∃ msg, e = NotFoundException msg) ∧
      tasks w' = tasks w ∧ queue w' = queue w
  | (OutOfFuel, _) => False
  end.
Proof.
  intros Hne. unfold update, findOne, repo_findOne. unfold_M. cbn.
  fold (visible_row i uid isAdmin (tasks w)).
  destruct (visible_row i uid isAdmin (tasks w)) as [t|] eqn:Hv; cbn.
  2:{ intros _. split_and!; try done. by eexists. }
  destruct (visible_row_elem _ _ _ _ _ Hv) as [Hid Hin].
  unfold repo_save. unfold_M. cbn.
  destruct (save_ok env) eqn:Hs; cbn; [|done].
  assert (Hrow : has_row (id t) (tasks w) = true).
  { apply bool_decide_eq_true. apply list_elem_of_fmap. eauto. }
  rewrite (bool_decide_eq_false_2 (id t = "")) by congruence.
  rewrite Hrow. cbn.
  assert (Hfacts :
    id <$> replace_row (merge t dto) (tasks w) = id <$> tasks w ∧
    merge t dto ∈ replace_row (merge t dto) (tasks w) ∧
    ∀ r, id r ≠ i →
      (r ∈ replace_row (merge t dto) (tasks w) ↔ r ∈ tasks w)).
  { split_and!.
    - apply replace_row_ids.
    - exact (replace_row_elem (merge t dto) (tasks w) t Hin eq_refl eq_refl).
    - intros r Hr. apply replace_row_other. cbn. congruence. }
  destruct Hfacts as (F1 & F2 & F3).
  destruct (bool_decide (status t = default (status t) (u_status dto)));
    cbn; [|unfold Queue_add; unfold_M; cbn; destruct (add_ok env); cbn;
           [|done]].
  all: exists t; split_and!; done.
Qed.

Lemma update_rewrites_only_its_row_witness :
  match update "t1" (mkUpdateTaskDto (Some "renamed") None None None None)
               "u1" false Sample.env Sample.two_owners with
  | (Ok updatedTask, w') =>
      ∃ before,
        visible_row "t1" "u1" false (tasks Sample.two_owners) = Some before ∧
        entity updatedTask
          = merge before (mkUpdateTaskDto (Some "renamed") None None None None) ∧
        id (entity updatedTask) = "t1" ∧
        userId (entity updatedTask) = userId before ∧
        createdAt (entity updatedTask) = createdAt before ∧
        id <$> tasks w' = id <$> tasks Sample.two_owners ∧
        entity updatedTask ∈ tasks w' ∧
        ∀ r, id r ≠ "t1" → (r ∈ tasks w' ↔ r ∈ tasks Sample.two_owners)
  | (Throw e, w') =>
      visible_row "t1" "u1" false (tasks Sample.two_owners) = None →
      (∃ msg, e = NotFoundException msg) ∧
      tasks w' = tasks Sample.two_owners ∧ queue w' = queue Sample.two_owners
  | (OutOfFuel, _) => False
  end.
Proof.
  apply (update_rewrites_only_its_row "t1"
           (mkUpdateTaskDto (Some "renamed") None None None None)
           "u1" false Sample.env Sample.two_owners).
  discriminate.
Defined.

(** [update] is not wrapped in a transaction: when the status changes
    and the queue then refuses the job, the caller gets the queue's
    error, no job exists, and the new status stays in the table. *)
Theorem update_keeps_the_write_when_enqueue_fails
    (i : string) (dto : UpdateTaskDto) (uid : string) (isAdmin : bool)
    (env : Env) (w : World) (before : Task) (s : TaskStatus) :
  i ≠ "" →
  visible_row i uid isAdmin (tasks w) = Some before →
  u_status dto = Some s → s ≠ status before →
  save_ok env = true → add_ok env = false →
  ∃ msg w',
    update i dto uid isAdmin env w = (Throw (QueueError msg), w') ∧
    queue w' = queue w ∧
    merge before dto ∈ tasks w' ∧ status (merge before dto) = s ∧
    ∀ r, r ∈ tasks w' → id r = i → status r = s.
Proof.
  intros Hne Hv Hdto Hchg Hs Ha.
  unfold update, findOne, repo_findOne. unfold_M. cbn.
  fold (visible_row i uid isAdmin (tasks w)). rewrite Hv. cbn.
  destruct (visible_row_elem _ _ _ _ _ Hv) as [Hid Hin].
  unfold repo_save. unfold_M. cbn. rewrite Hs. cbn.
  assert (Hrow : has_row (id before) (tasks w) = true).
  { apply bool_decide_eq_true. apply list_elem_of_fmap. eauto. }
  rewrite (bool_decide_eq_false_2 (id before = "")) by congruence.
  rewrite Hrow. cbn. rewrite Hdto. cbn.
  rewrite (bool_decide_eq_false_2 (status before = s)) by congruence. cbn.
  unfold Queue_add. unfold_M. cbn. rewrite Ha. cbn.
  do 2 eexists. split_and!; try reflexivity.
  - exact (replace_row_elem (merge before dto) (tasks w) before Hin
             eq_refl eq_refl).
  - intros r Hr Hri.
    apply list_elem_of_fmap in Hr as (x & -> & Hx).
    case_bool_decide as Hx1; [cbn; by rewrite Hdto|congruence].
Qed.

Lemma update_keeps_the_write_when_enqueue_fails_witness :
  ∃ msg w',
    update "t1" (mkUpdateTaskDto None None (Some COMPLETED) None None)
           "u1" false (with_queue false Sample.env)
           Sample.two_owners = (Throw (QueueError msg), w') ∧
    queue w' = queue Sample.two_owners ∧
    merge (Sample.task "t1" "u1" (Some Sample.alice) 1600000000000%Z 1)
          (mkUpdateTaskDto None None (Some COMPLETED) None None) ∈ tasks w' ∧
    status (merge (Sample.task "t1" "u1" (Some Sample.alice) 1600000000000%Z 1)
              (mkUpdateTaskDto None None (Some COMPLETED) None None))
      = COMPLETED ∧
    ∀ r, r ∈ tasks w' → id r = "t1" → status r = COMPLETED.
Proof.
  apply (update_keeps_the_write_when_enqueue_fails "t1"
           (mkUpdateTaskDto None None (Some COMPLETED) None None) "u1" false
           (with_queue false Sample.env)
           Sample.two_owners
           (Sample.task "t1" "u1" (Some Sample.alice) 1600000000000%Z 1)
           COMPLETED).
  - discriminate.
  - vm_compute. reflexivity.
  - reflexivity.
  - discriminate.
  - reflexivity.
  - reflexivity.
Defined.

(** ** Deleting and batch operations *)

Lemma filter_partition_length (f : Task → bool) (rows : list Task) :
  length (filter (λ t, f t) rows) + length (filter (λ t, ¬ f t) rows)
    = length rows.
Proof.
  induction rows as [|r rows IH]; [done|].
  rewrite (filter_cons (λ t, f t)), (filter_cons (λ t, ¬ f t)).
  destruct (decide (f r)) as [Hf|Hf].
  - rewrite decide_False by (intros H; by apply H). cbn. lia.
  - rewrite decide_True by done. cbn. lia.
Qed.

Lemma where_matches_batch taskIds uid isAdmin t :
  where_matches (batch_where taskIds uid isAdmin) t = true ↔
  id t ∈ taskIds ∧ (isAdmin = false → userId t = uid).
Proof.
  unfold where_matches, batch_where. cbn. rewrite !andb_true_r.
  destruct isAdmin; cbn.
  - rewrite andb_true_r, bool_decide_eq_true.
    split; [intros H; split; [done|discriminate]|by intros [H _]].
  - rewrite andb_true_iff, !bool_decide_eq_true.
    split; intros [H1 H2]; split; auto.
Qed.

Lemma where_matches_id i t :
  where_matches (mkTaskWhere (Some (IdEquals i)) None None None None None) t
    = bool_decide (id t = i).
Proof. unfold where_matches. cbn. by rewrite !andb_true_r. Qed.


(** The rows a batch operation of a caller ranges over, spelled out. *)
Lemma filter_batch_where taskIds uid isAdmin (rows : list Task) :
  filter (λ t, where_matches (batch_where taskIds uid isAdmin) t) rows
    = filter (λ t, in_batch taskIds uid isAdmin t) rows.
Proof.
  apply list_filter_iff. intros t.
  by rewrite Is_true_true, where_matches_batch.
Qed.

(** [batchUpdateStatus] reports as updated the number of rows its one
    statement affected, the listed rows the caller may write, and
    enqueues one job named task-status-update per requested id, in the
    order of the request, whether or not the statement affected the
    id's row. *)
Lemma batchUpdateStatus_one_job_per_requested_id
    (taskIds : list string) (s : TaskStatus) (uid : string) (isAdmin : bool)
    (env : Env) (w : World) :
  save_ok env = true → add_ok env = true →
  ∃ r w' jobs,
    batchUpdateStatus taskIds s uid isAdmin env w = (Ok r, w') ∧
    queue w' = queue w ++ jobs ∧
    job_data <$> jobs = (λ taskId, status_update_payload taskId s) <$> taskIds ∧
    Forall (λ j, job_name j = "task-status-update" ∧
                 job_opts j = retry_options ∧ attemptsMade j = 0 ∧
                 job_state j = Waiting) jobs ∧
    updated r
      = length (filter (λ t, in_batch taskIds uid isAdmin t) (tasks w)) ∧
    failed r = length taskIds - updated r.
Proof.
  intros Hs Ha. unfold batchUpdateStatus, repo_update.
  unfold mbind at 1, M_MBind at 1, M_bind at 1, logger at 1, modify at 1.
  unfold mbind at 1, M_MBind at 1, M_bind at 1.
  unfold mbind at 1, M_MBind at 1, M_bind at 1, get_env at 1.
  rewrite Hs. unfold_M. cbn.
  match goal with
  | |- context [for_of taskIds ?f env ?w1] =>
      destruct (batch_enqueue_run s taskIds env w1 Ha)
        as (w' & jobs & Hrun & Hq & Ht & Hd & Ho)
  end.
  unfold_M. rewrite Hrun. cbn in Hq. cbn.
  fold (batch_where taskIds uid isAdmin).
  do 3 eexists. split_and!; [reflexivity|exact Hq|exact Hd|exact Ho| |done].
  by rewrite filter_batch_where.
Qed.

Lemma batchUpdateStatus_one_job_per_requested_id_witness :
  ∃ r w' jobs,
    batchUpdateStatus ["t1"; "t2"; "t3"] COMPLETED "u1" false
                      Sample.env Sample.two_owners = (Ok r, w') ∧
    queue w' = queue Sample.two_owners ++ jobs ∧
    job_data <$> jobs
      = (λ taskId, status_update_payload taskId COMPLETED)
          <$> ["t1"; "t2"; "t3"] ∧
    Forall (λ j, job_name j = "task-status-update" ∧
                 job_opts j = retry_options ∧ attemptsMade j = 0 ∧
                 job_state j = Waiting) jobs ∧
    updated r
      = length (filter (λ t, in_batch ["t1"; "t2"; "t3"] "u1" false t)
                       (tasks Sample.two_owners)) ∧
    failed r = length ["t1"; "t2"; "t3"] - updated r.
Proof.
  apply (batchUpdateStatus_one_job_per_requested_id
           ["t1"; "t2"; "t3"] COMPLETED "u1" false
           Sample.env Sample.two_owners); reflexivity.
Defined.

Lemma batchDelete_run taskIds uid isAdmin env w :
  ∃ w',
    batchDelete taskIds uid isAdmin env w
      = (if save_ok env then
           Ok (mkBatchDeleteResult
                 (length (filter (λ t, in_batch taskIds uid isAdmin t)
                                 (tasks w)))
                 (length taskIds
                  - length (filter (λ t, in_batch taskIds uid isAdmin t)
                                   (tasks w))))
         else Throw (QueryFailedError "write failed"), w') ∧
    tasks w'
      = (if save_ok env then
           filter (λ t, ¬ in_batch taskIds uid isAdmin t) (tasks w)
         else tasks w) ∧
    queue w' = queue w.
Proof.
  unfold batchDelete, repo_delete. unfold_M. cbn.
  fold (batch_where taskIds uid isAdmin).
  destruct (save_ok env) eqn:Hs; cbn; [|by eexists].
  assert (Hf : filter (λ t, ¬ where_matches (batch_where taskIds uid isAdmin) t)
                 (tasks w)
               = filter (λ t, ¬ in_batch taskIds uid isAdmin t) (tasks w)).
  { apply list_filter_iff. intros t.
    by rewrite Is_true_true, where_matches_batch. }
  rewrite Hf, filter_batch_where. by eexists.
Qed.

Lemma in_batch_partition_length taskIds uid isAdmin (rows : list Task) :
  length (filter (λ t, in_batch taskIds uid isAdmin t) rows)
  + length (filter (λ t, ¬ in_batch taskIds uid isAdmin t) rows)
    = length rows.
Proof.
  induction rows as [|r rows IH]; [done|].
  rewrite (filter_cons (λ t, in_batch taskIds uid isAdmin t)),
          (filter_cons (λ t, ¬ in_batch taskIds uid isAdmin t)).
  destruct (decide (in_batch taskIds uid isAdmin r)) as [Hf|Hf].
  - rewrite decide_False by (intros H; by apply H). cbn. lia.
  - rewrite decide_True by done. cbn. lia.
Qed.

(** [batchDelete] removes exactly the rows whose key is listed and which,
    unless the caller is an admin, belong to the caller.  When it
    returns, [deleted] is the number of rows removed, [failed] is the
    number of listed ids minus that, a row of another user of a
    non-admin caller is still there, and so is every row whose key is
    not listed.  When it throws, the write was refused and the table is
    as it was.  No job is enqueued either way. *)
Theorem batchDelete_removes_only_listed_rows_of_the_caller
    (taskIds : list string) (uid : string) (isAdmin : bool)
    (env : Env) (w : World) :
  match batchDelete taskIds uid isAdmin env w with
  | (Ok r, w') =>
      tasks w' = filter (λ t, ¬ in_batch taskIds uid isAdmin t) (tasks w) ∧
      deleted r + length (tasks w') = length (tasks w) ∧
      delete_failed r = length taskIds - deleted r ∧
      queue w' = queue w ∧
      (∀ t, t ∈ tasks w → isAdmin = false → userId t ≠ uid → t ∈ tasks w') ∧
      (∀ t, t ∈ tasks w → id t ∉ taskIds → t ∈ tasks w')
  | (Throw e, w') =>
      save_ok env = false ∧ tasks w' = tasks w ∧ queue w' = queue w
  | (OutOfFuel, _) => False
  end.
Proof.
  destruct (batchDelete_run taskIds uid isAdmin env w)
    as (w' & -> & Ht & Hq).
  destruct (save_ok env) eqn:Hs; [|done].
  rewrite Ht. split_and!; try done.
  - apply in_batch_partition_length.
  - intros t Hin Hadm Hu. apply list_elem_of_filter.
    split; [|done]. intros [_ H]. auto.
  - intros t Hin Hid. apply list_elem_of_filter.
    split; [|done]. by intros [H _].
Qed.

Lemma batchUpdateStatus_run taskIds s uid isAdmin env w :
  ∃ w',
    batchUpdateStatus taskIds s uid isAdmin env w
      = (if save_ok env then
           Ok (mkBatchResult
                 (length (filter (λ t, in_batch taskIds uid isAdmin t)
                                 (tasks w)))
                 (length taskIds
                  - length (filter (λ t, in_batch taskIds uid isAdmin t)
                                   (tasks w))))
         else Throw (QueryFailedError "write failed"), w') ∧
    tasks w'
      = (if save_ok env then
           (λ t, if decide (in_batch taskIds uid isAdmin t)
                 then with_status s t else t) <$> tasks w
         else tasks w) ∧
    (save_ok env = false → queue w' = queue w).
Proof.
  unfold batchUpdateStatus, repo_update.
  unfold mbind at 1, M_MBind at 1, M_bind at 1, logger at 1, modify at 1.
  unfold mbind at 1, M_MBind at 1, M_bind at 1.
  unfold mbind at 1, M_MBind at 1, M_bind at 1, get_env at 1.
  fold (batch_where taskIds uid isAdmin).
  destruct (save_ok env) eqn:Hs; [|unfold_M; cbn; by eexists].
  unfold mbind at 1, M_MBind at 1, M_bind at 1, get_world at 1.
  unfold mbind at 1, M_MBind at 1, M_bind at 1, modify at 1.
  unfold mret at 1, M_MRet at 1, M_ret at 1.
  unfold mbind at 1, M_MBind at 1, M_bind at 1.
  match goal with
  | |- context [for_of taskIds ?f env ?w1] =>
      assert (Hloop : ∃ w2, for_of taskIds f env w1 = (Ok (), w2) ∧
                            tasks w2 = tasks w1)
  end.
  { clear. set (w1 := set_tasks _ _). generalize w1. clear.
    induction taskIds as [|tid taskIds IH]; intros w1.
    - by exists w1.
    - cbn [for_of]. unfold mbind at 1, M_MBind at 1, M_bind at 1.
      unfold not_awaited at 1, Queue_add at 1. unfold_M.
      destruct (add_ok env); cbn.
      + match goal with
        | |- context [for_of taskIds ?f env ?w2] =>
            destruct (IH w2) as (w3 & -> & Ht)
        end. eexists. split; [done|]. by rewrite Ht.
      + destruct (IH w1) as (w3 & -> & Ht). eexists. split; [done|done]. }
  destruct Hloop as (w2 & -> & Ht2). unfold_M. cbn. cbn in Ht2.
  rewrite filter_batch_where.
  assert (Hmap :
    (λ r, if where_matches (batch_where taskIds uid isAdmin) r
          then with_status s r else r) <$> tasks w
    = (λ t, if decide (in_batch taskIds uid isAdmin t)
            then with_status s t else t) <$> tasks w).
  { apply list_fmap_ext. intros _ t _. cbn.
    destruct (where_matches (batch_where taskIds uid isAdmin) t) eqn:E.
    - apply where_matches_batch in E. by rewrite decide_True.
    - rewrite decide_False; [done|]. intros H.
      apply where_matches_batch in H. congruence. }
  eexists. split_and!; [reflexivity| |done].
  cbn. by rewrite Ht2, Hmap.
Qed.

(** What [batchUpdateStatus] writes: the rows whose key is listed and
    which, unless the caller is an admin, belong to the caller get the
    new status; every other row is as it was; keys and order stay.
    [updated] is the number of rows written and [failed] the number of
    listed ids minus that.  When it throws, the write was refused and
    neither the table nor the queue changed. *)
Theorem batchUpdateStatus_writes_only_listed_rows_of_the_caller
    (taskIds : list string) (s : TaskStatus) (uid : string) (isAdmin : bool)
    (env : Env) (w : World) :
  match batchUpdateStatus taskIds s uid isAdmin env w with
  | (Ok r, w') =>
      tasks w' =
        (λ t, if decide (in_batch taskIds uid isAdmin t)
              then with_status s t else t) <$> tasks w ∧
      updated r
        = length (filter (λ t, in_batch taskIds uid isAdmin t) (tasks w)) ∧
      failed r = length taskIds - updated r ∧
      id <$> tasks w' = id <$> tasks w ∧
      (∀ t, t ∈ tasks w → isAdmin = false → userId t ≠ uid → t ∈ tasks w')
  | (Throw e, w') =>
      save_ok env = false ∧ tasks w' = tasks w ∧ queue w' = queue w
  | (OutOfFuel, _) => False
  end.
Proof.
  destruct (batchUpdateStatus_run taskIds s uid isAdmin env w)
    as (w' & -> & Ht & Hq).
  destruct (save_ok env) eqn:Hs; [|by split_and!; auto].
  rewrite Ht. split_and!; try done.
  - rewrite <- list_fmap_compose. apply list_fmap_ext. intros _ t _. cbn.
    by case_decide.
  - intros t Hin Hadm Hu. apply list_elem_of_fmap. exists t. split; [|done].
    rewrite decide_False; [done|]. intros [_ H]. auto.
Qed.

(** ** Listing tasks *)

(** What a call of [findAll] does: it reads one window of the ordered
    selection and changes nothing but the logs and the record of reads. *)
Lemma findAll_run (q : TaskFilterDto) (u : option string) (isAdmin : bool)
    (env : Env) (w : World) :
  let rows := select (findAll_where q u isAdmin) (tasks w) in
  let window :=
    take (findAll_limit q)
         (drop ((findAll_page q - 1) * findAll_limit q) rows) in
  ∃ w',
    findAll q u isAdmin env w
      = (Ok (new_PaginatedResponseDto (mkTaskResponseDto <$> window)
               (length rows) (findAll_page q) (findAll_limit q)), w') ∧
    tasks w' = tasks w ∧ queue w' = queue w ∧ outbox w' = outbox w.
Proof.
  intros rows window. unfold findAll, repo_findAndCount. unfold_M. cbn.
  eexists. split_and!; reflexivity.
Qed.

Lemma Number_or_pos x d : 1 ≤ d → 1 ≤ Number_or x d.
Proof. intros Hd. destruct x as [[|n]|]; cbn; lia. Qed.

Lemma ceil_div_covers tot lim : 1 ≤ lim → tot ≤ ceil_div tot lim * lim.
Proof.
  intros Hl. unfold ceil_div.
  pose proof (Nat.div_mod_eq (tot + (lim - 1)) lim) as Hdm.
  pose proof (Nat.mod_upper_bound (tot + (lim - 1)) lim) as Hmod.
  nia.
Qed.

Lemma ceil_div_tight tot lim :
  1 ≤ lim → 1 ≤ tot → (ceil_div tot lim - 1) * lim < tot.
Proof.
  intros Hl Ht. unfold ceil_div.
  pose proof (Nat.div_mod_eq (tot + (lim - 1)) lim) as Hdm.
  pose proof (Nat.mod_upper_bound (tot + (lim - 1)) lim) as Hmod.
  assert (1 ≤ (tot + (lim - 1)) / lim).
  { apply Nat.div_le_lower_bound; lia. }
  nia.
Qed.

Lemma select_length c rows :
  length (select c rows) = length (filter (λ t, where_matches c t) rows).
Proof. unfold select. by rewrite order_createdAt_DESC_perm. Qed.

(** The shape of a listing.  [findAll] always returns; page and limit
    fall back to 1 and 10 when absent or zero; the page holds at most
    [limit] items; [total] counts the rows the filter selects, whatever
    the page; [totalPages] pages of [limit] items are enough for them
    and one page fewer is not; a page after the last is empty; and the
    table and the queue are as they were. *)
Theorem findAll_page_shape
    (q : TaskFilterDto) (u : option string) (isAdmin : bool)
    (env : Env) (w : World) :
  ∃ d w',
    findAll q u isAdmin env w = (Ok d, w') ∧
    page d = findAll_page q ∧ limit d = findAll_limit q ∧
    1 ≤ page d ∧ 1 ≤ limit d ∧
    length (data d) ≤ limit d ∧
    total d
      = length (filter (λ t, where_matches (findAll_where q u isAdmin) t)
                       (tasks w)) ∧
    total d ≤ totalPages d * limit d ∧
    (1 ≤ total d → (totalPages d - 1) * limit d < total d) ∧
    (totalPages d < page d → data d = []) ∧
    tasks w' = tasks w ∧ queue w' = queue w.
Proof.
  destruct (findAll_run q u isAdmin env w) as (w' & Hrun & Ht & Hq & _).
  eexists _, w'. split; [exact Hrun|]. cbn.
  assert (HL : 1 ≤ findAll_limit q) by (apply Number_or_pos; lia).
  assert (HP : 1 ≤ findAll_page q) by (apply Number_or_pos; lia).
  pose proof (ceil_div_covers
    (length (select (findAll_where q u isAdmin) (tasks w)))
    (findAll_limit q) HL) as Hc.
  split_and!; try done.
  - rewrite length_fmap, length_take. lia.
  - apply select_length.
  - by apply ceil_div_tight.
  - intros Hp. rewrite drop_ge, take_nil; [done|]. nia.
Qed.

(** A caller who is no admin is shown own tasks only, whatever [userId]
    the query names. *)
Theorem findAll_shows_a_user_only_own_tasks
    (q : TaskFilterDto) (uid : string) (env : Env) (w : World) :
  ∃ d w',
    findAll q (Some uid) false env w = (Ok d, w') ∧
    Forall (λ item, userId (entity item) = uid ∧ entity item ∈ tasks w)
           (data d).
Proof.
  destruct (findAll_run q (Some uid) false env w) as (w' & Hrun & _).
  eexists _, w'. split; [exact Hrun|]. cbn.
  apply Forall_fmap, Forall_forall. intros t Ht. cbn.
  apply subseteq_take, subseteq_drop in Ht.
  unfold select in Ht. rewrite order_createdAt_DESC_perm in Ht.
  apply list_elem_of_filter in Ht as [Hm Hin]. split; [|done].
  apply Is_true_true in Hm. unfold where_matches, findAll_where in Hm.
  cbn in Hm. rewrite !andb_true_iff in Hm. destruct Hm as [_ Hu].
  by apply bool_decide_eq_true in Hu.
Qed.

Lemma pages_concat {A} (rows : list A) (L : nat) : ∀ n,
  flat_map (λ p, take L (drop ((p - 1) * L) rows)) (seq 1 n)
    = take (n * L) rows.
Proof.
  induction n as [|n IH]; [done|].
  rewrite seq_S, flat_map_app, IH. cbn [flat_map].
  rewrite app_nil_r. replace (1 + n - 1) with n by lia.
  rewrite take_take_drop. f_equal. lia.
Qed.

Lemma flat_map_agree {A B} (f g : A → list B) (l : list A) :
  (∀ a, a ∈ l → f a = g a) → flat_map f l = flat_map g l.
Proof.
  induction l as [|a l IH]; intros H; [done|].
  cbn. rewrite (H a) by left. rewrite IH; [done|].
  intros b Hb. apply H. by right.
Qed.

(** Paging loses and repeats nothing: against an unchanged table, the
    pages 1 to [totalPages] of a query, put one after the other, are
    exactly the rows the filter selects, newest first. *)
Theorem findAll_pages_cover_the_selection
    (q : TaskFilterDto) (u : option string) (isAdmin : bool)
    (env : Env) (w : World) :
  let rows := select (findAll_where q u isAdmin) (tasks w) in
  flat_map (λ p, page_data (findAll (with_page p q) u isAdmin env w))
           (seq 1 (ceil_div (length rows) (findAll_limit q)))
    = mkTaskResponseDto <$> rows.
Proof.
  intros rows.
  assert (HL : 1 ≤ findAll_limit q) by (apply Number_or_pos; lia).
  transitivity
    (flat_map (λ p, mkTaskResponseDto <$>
                 take (findAll_limit q) (drop ((p - 1) * findAll_limit q) rows))
              (seq 1 (ceil_div (length rows) (findAll_limit q)))).
  - apply flat_map_agree. intros p Hp.
    apply list_elem_of_In, in_seq in Hp.
    destruct (findAll_run (with_page p q) u isAdmin env w) as (w' & Hrun & _).
    unfold page_data. rewrite Hrun. cbn.
    destruct p as [|p]; [lia|]. reflexivity.
  - set (n := ceil_div (length rows) (findAll_limit q)).
    transitivity (mkTaskResponseDto <$>
      flat_map (λ p, take (findAll_limit q)
                       (drop ((p - 1) * findAll_limit q) rows)) (seq 1 n)).
    + generalize (seq 1 n). intros l. induction l as [|p l IH]; [done|].
      cbn. by rewrite fmap_app, IH.
    + rewrite pages_concat, take_ge; [done|].
      by apply ceil_div_covers.
Qed.

Lemma insert_DESC_sorted t l :
  StronglySorted newer_or_same l → StronglySorted newer_or_same (insert_DESC t l).
Proof.
  induction 1 as [|r l Hl IH Hr]; cbn.
  - constructor; [constructor|constructor].
  - destruct (createdAt r <=? createdAt t)%Z eqn:E.
    + apply Z.leb_le in E. constructor; [by constructor|].
      constructor; [unfold newer_or_same; lia|].
      eapply Forall_impl; [exact Hr|]. unfold newer_or_same. intros x Hx. lia.
    + apply Z.leb_gt in E. constructor; [exact IH|].
      rewrite insert_DESC_perm.
      constructor; [unfold newer_or_same; lia|exact Hr].
Qed.

Lemma order_createdAt_DESC_sorted l :
  StronglySorted newer_or_same (order_createdAt_DESC l).
Proof.
  induction l as [|r l IH]; [constructor|].
  unfold order_createdAt_DESC in *. cbn. by apply insert_DESC_sorted.
Qed.

Lemma StronglySorted_drop {A} (R : A → A → Prop) (l : list A) n :
  StronglySorted R l → StronglySorted R (drop n l).
Proof.
  intros H. revert n. induction H as [|x l Hl IH Hx]; intros [|n]; cbn;
    try constructor; auto.
Qed.

Lemma StronglySorted_take {A} (R : A → A → Prop) (l : list A) n :
  StronglySorted R l → StronglySorted R (take n l).
Proof.
  intros H. revert n. induction H as [|x l Hl IH Hx]; intros [|n]; cbn;
    try constructor; auto.
  apply Forall_forall. intros y Hy. apply subseteq_take in Hy.
  by eapply Forall_forall in Hx.
Qed.

(** Every page lists newest first: each item was created no earlier than
    every item after it. *)
Theorem findAll_lists_newest_first
    (q : TaskFilterDto) (u : option string) (isAdmin : bool)
    (env : Env) (w : World) :
  ∃ d w',
    findAll q u isAdmin env w = (Ok d, w') ∧
    StronglySorted newer_or_same (entity <$> data d).
Proof.
  destruct (findAll_run q u isAdmin env w) as (w' & Hrun & _).
  eexists _, w'. split; [exact Hrun|]. cbn.
  rewrite entity_mkTaskResponseDto.
  apply StronglySorted_take, StronglySorted_drop.
  unfold select. apply order_createdAt_DESC_sorted.
Qed.

(** ** Statistics *)

Lemma find_count_cons {K} `{EqDecision K} (k k' : K) (n : nat)
    (groups : list (K * nat)) :
  find_count k ((k', n) :: groups)
    = if bool_decide (k' = k) then n else find_count k groups.
Proof. unfold find_count. cbn. by case_bool_decide. Qed.

Lemma find_count_count_group {K} `{EqDecision K} (k k' : K)
    (groups : list (K * nat)) :
  find_count k (count_group k' groups)
    = find_count k groups + (if bool_decide (k' = k) then 1 else 0).
Proof.
  induction groups as [|[k0 n] groups IH]; cbn [count_group].
  - rewrite find_count_cons. unfold find_count. cbn. by case_bool_decide.
  - destruct (decide (k0 = k')) as [->|Hne].
    + rewrite (bool_decide_eq_true_2 (k' = k')) by done.
      rewrite !find_count_cons. case_bool_decide; lia.
    + rewrite (bool_decide_eq_false_2 (k0 = k')) by done.
      rewrite !find_count_cons. destruct (decide (k0 = k)) as [->|Hk].
      * rewrite (bool_decide_eq_true_2 (k = k)) by done.
        rewrite (bool_decide_eq_false_2 (k' = k)) by congruence. lia.
      * rewrite (bool_decide_eq_false_2 (k0 = k)) by done. exact IH.
Qed.

(** What the grouped query reports for a value is the number of rows
    that have it; a value that does not occur reads as 0. *)
Lemma find_count_groupBy {K} `{EqDecision K} (key : Task → K)
    (rows : list Task) (k : K) :
  find_count k (groupBy_count key rows)
    = length (filter (λ t, key t = k) rows).
Proof.
  induction rows as [|r rows IH]; [done|].
  unfold groupBy_count in *. cbn [foldr].
  rewrite find_count_count_group, IH, (filter_cons (λ t, key t = k)).
  case_bool_decide; [rewrite decide_True by done|rewrite decide_False by done];
    cbn; lia.
Qed.

Lemma count_by_status (rows : list Task) :
  length rows
    = length (filter (λ t, status t = COMPLETED) rows)
      + length (filter (λ t, status t = IN_PROGRESS) rows)
      + length (filter (λ t, status t = PENDING) rows).
Proof.
  induction rows as [|r rows IH]; [done|].
  rewrite !(filter_cons (λ t, status t = _)). cbn [length]. rewrite IH.
  destruct (status r); repeat case_decide; try done; cbn; lia.
Qed.

Lemma count_by_priority (rows : list Task) :
  length rows
    = length (filter (λ t, priority t = HIGH) rows)
      + length (filter (λ t, priority t = MEDIUM) rows)
      + length (filter (λ t, priority t = LOW) rows).
Proof.
  induction rows as [|r rows IH]; [done|].
  rewrite !(filter_cons (λ t, priority t = _)). cbn [length]. rewrite IH.
  destruct (priority r); repeat case_decide; try done; cbn; lia.
Qed.

(** The statistics are consistent.  [getTaskStatistics] always returns;
    each count is the number of rows in scope with that status or
    priority, [total] is the number of rows in scope, and the three
    status counts, like the three priority counts, add up to [total].
    The table is as it was. *)
Theorem getTaskStatistics_counts_add_up
    (u : option string) (isAdmin : bool) (env : Env) (w : World) :
  let rows := statistics_rows u isAdmin (tasks w) in
  ∃ st w',
    getTaskStatistics u isAdmin env w = (Ok st, w') ∧
    Statistics.total st = length rows ∧
    Statistics.completed st
      = length (filter (λ t, status t = COMPLETED) rows) ∧
    Statistics.inProgress st
      = length (filter (λ t, status t = IN_PROGRESS) rows) ∧
    Statistics.pending st = length (filter (λ t, status t = PENDING) rows) ∧
    Statistics.highPriority st
      = length (filter (λ t, priority t = HIGH) rows) ∧
    Statistics.mediumPriority st
      = length (filter (λ t, priority t = MEDIUM) rows) ∧
    Statistics.lowPriority st = length (filter (λ t, priority t = LOW) rows) ∧
    Statistics.total st
      = Statistics.completed st + Statistics.inProgress st
        + Statistics.pending st ∧
    Statistics.total st
      = Statistics.highPriority st + Statistics.mediumPriority st
        + Statistics.lowPriority st ∧
    tasks w' = tasks w ∧ queue w' = queue w.
Proof.
  intros rows. unfold getTaskStatistics. unfold_M. cbn.
  fold rows. rewrite !find_count_groupBy.
  do 2 eexists. split_and!; try reflexivity.
  - apply count_by_status.
  - apply count_by_priority.
Qed.

(** Whose rows the statistics range over: a non-admin with a user id
    gets the counts of own tasks only. *)
Lemma statistics_rows_of_user (uid : string) (rows : list Task) :
  uid ≠ "" →
  statistics_rows (Some uid) false rows = filter (λ t, userId t = uid) rows.
Proof.
  intros H. unfold statistics_rows, nonempty.
  by rewrite bool_decide_eq_false_2.
Qed.

(** ** Status-update jobs for tasks that exist *)

Lemma filter_where_id tid (rows : list Task) :
  filter (λ t, where_matches
            (mkTaskWhere (Some (IdEquals tid)) None None None None None) t)
         rows
    = filter (λ t, id t = tid) rows.
Proof.
  apply list_filter_iff. intros t.
  by rewrite where_matches_id, Is_true_true, bool_decide_eq_true.
Qed.

Lemma row_with_id_Some tid rows t :
  row_with_id tid rows = Some t → t ∈ rows ∧ id t = tid.
Proof.
  unfold row_with_id. intros H. apply head_Some_elem_of in H.
  apply list_elem_of_filter in H as [H1 H2]. done.
Qed.

Lemma row_with_id_None tid rows :
  row_with_id tid rows = None ↔ absent tid rows.
Proof.
  unfold row_with_id, absent. rewrite head_None. split.
  - intros H Hin. apply list_elem_of_fmap in Hin as (t & Hid & Ht).
    assert (t ∈ filter (λ t, id t = tid) rows) as Hx
      by (by apply list_elem_of_filter).
    rewrite H in Hx. by apply not_elem_of_nil in Hx.
  - intros H. destruct (filter (λ t, id t = tid) rows) as [|t l] eqn:E;
      [done|].
    assert (t ∈ filter (λ t, id t = tid) rows) as Hx by (rewrite E; left).
    apply list_elem_of_filter in Hx as [Hid Hin].
    destruct H. apply list_elem_of_fmap. eauto.
Qed.

Lemma row_with_id_present tid rows :
  tid ∈ (id <$> rows) → is_Some (row_with_id tid rows).
Proof.
  intros H. destruct (row_with_id tid rows) eqn:E; [by eexists|].
  apply row_with_id_None in E. by destruct E.
Qed.

(** [updateStatus], case by case. *)
Lemma updateStatus_run tid s env w :
  tid ≠ "" →
  ∃ w',
    updateStatus tid s env w
      = (match row_with_id tid (tasks w) with
         | None => Throw (NotFoundException
                            ("Task with ID " +:+ tid +:+ " not found"))
         | Some t =>
             if save_ok env
             then Ok (mkTaskResponseDto
                        (with_status s (without_relations t)))
             else Throw (QueryFailedError "write failed")
         end, w') ∧
    tasks w'
      = (match row_with_id tid (tasks w) with
         | Some t =>
             if save_ok env then replace_row (with_status s t) (tasks w)
             else tasks w
         | None => tasks w
         end) ∧
    queue w' = queue w ∧ outbox w' = outbox w.
Proof.
  intros Hne. unfold updateStatus, repo_findOne_where. unfold_M. cbn.
  rewrite filter_where_id. fold (row_with_id tid (tasks w)).
  destruct (row_with_id tid (tasks w)) as [t|] eqn:Hr; cbn.
  2:{ eexists. split_and!; reflexivity. }
  destruct (row_with_id_Some _ _ _ Hr) as [Hin Hid].
  unfold repo_save. unfold_M. cbn.
  destruct (save_ok env); cbn.
  2:{ eexists. split_and!; reflexivity. }
  rewrite (bool_decide_eq_false_2 (id t = "")) by congruence.
  assert (Hrow : has_row (id t) (tasks w) = true).
  { apply bool_decide_eq_true. apply list_elem_of_fmap. eauto. }
  rewrite Hrow. cbn. eexists. split_and!; reflexivity.
Qed.

Lemma js_get_status_update_payload tid s :
  js_get (status_update_payload tid s) "taskId" = JStr tid ∧
  js_get (status_update_payload tid s) "status" = JStr (TaskStatus_value s).
Proof. unfold js_get, status_update_payload. by simplify_map_eq. Qed.

(** [process] on a status-update job with a well-formed payload, case
    by case. *)
Lemma process_well_formed_run fuel job env w tid s :
  job_name job = "task-status-update" →
  well_formed (job_data job) tid s →
  ∃ w',
    process fuel job env w
      = (match row_with_id tid (tasks w) with
         | None => Throw (NotFoundException
                            ("Task with ID " +:+ tid +:+ " not found"))
         | Some t =>
             if save_ok env then Ok (StatusUpdated tid s)
             else Throw (QueryFailedError "write failed")
         end, w') ∧
    tasks w'
      = (match row_with_id tid (tasks w) with
         | Some t =>
             if save_ok env then replace_row (with_status s t) (tasks w)
             else tasks w
         | None => tasks w
         end) ∧
    queue w' = queue w ∧ outbox w' = outbox w.
Proof.
  intros Hname (Hid & Hne & Hst).
  unfold process, try_catch. unfold_M. cbn. rewrite Hname.
  rewrite (bool_decide_eq_true_2 ("task-status-update" = "task-status-update"))
    by done.
  unfold handleStatusUpdate, try_catch. unfold_M. cbn.
  rewrite Hid, Hst. cbn.
  rewrite (bool_decide_eq_false_2 (tid = "")) by done.
  rewrite (bool_decide_eq_false_2 (TaskStatus_value s = ""))
    by apply TaskStatus_value_nonempty.
  cbn. rewrite as_TaskStatus_value.
  match goal with
  | |- context [updateStatus tid s env ?w0] =>
      destruct (updateStatus_run tid s env w0 Hne) as (w1 & -> & Ht & Hq & Ho)
  end.
  cbn in Ht, Hq, Ho |- *.
  destruct (row_with_id tid (tasks w)) as [t|] eqn:Hr; cbn.
  - destruct (row_with_id_Some _ _ _ Hr) as [Hin Hidt].
    destruct (save_ok env) eqn:Hs; cbn.
    + rewrite Hidt. eexists. split_and!; [reflexivity|done..].
    + eexists. split_and!; [reflexivity|done..].
  - eexists. split_and!; [reflexivity|done..].
Qed.

Lemma well_formed_status_update_payload tid s :
  tid ≠ "" → well_formed (status_update_payload tid s) tid s.
Proof.
  intros Hne. destruct (js_get_status_update_payload tid s) as [H1 H2].
  by split_and!.
Qed.

(** What becomes of a job as the producers build it.  Its payload passes
    the worker's validation, so [process] never rejects it as
    unrecoverable: it returns, with the task's key and the status it
    carried, exactly when the task exists and the write is accepted; it
    throws a NotFoundException exactly when no row has the key, and the
    database's error when the write is refused.  The queue is never
    touched, and the table only when [process] returns. *)
Theorem process_of_a_producer_job
    (fuel : nat) (job : Job) (env : Env) (w : World)
    (tid : string) (s : TaskStatus) :
  job_name job = "task-status-update" →
  job_data job = status_update_payload tid s →
  tid ≠ "" →
  match process fuel job env w with
  | (Ok r, w') =>
      r = StatusUpdated tid s ∧ save_ok env = true ∧
      tid ∈ (id <$> tasks w) ∧ queue w' = queue w
  | (Throw e, w') =>
      is_UnrecoverableError e = false ∧
      tasks w' = tasks w ∧ queue w' = queue w ∧
      ((∃ msg, e = NotFoundException msg) ∧ absent tid (tasks w) ∨
       (∃ msg, e = QueryFailedError msg) ∧ save_ok env = false)
  | (OutOfFuel, _) => False
  end.
Proof.
  intros Hname Hdata Hne.
  destruct (process_well_formed_run fuel job env w tid s Hname)
    as (w' & -> & Ht & Hq & _).
  { rewrite Hdata. by apply well_formed_status_update_payload. }
  destruct (row_with_id tid (tasks w)) as [t|] eqn:Hr.
  - destruct (row_with_id_Some _ _ _ Hr) as [Hin Hidt].
    destruct (save_ok env) eqn:Hs.
    + split_and!; try done. apply list_elem_of_fmap. eauto.
    + split_and!; try done. right. split; [by eexists|done].
  - split_and!; try done. left. split; [by eexists|].
    by apply row_with_id_None.
Qed.

Lemma process_of_a_producer_job_witness :
  match process 0 (Sample.update_job (status_update_payload "t2" COMPLETED) 3)
                Sample.env Sample.two_owners with
  | (Ok r, w') =>
      r = StatusUpdated "t2" COMPLETED ∧ save_ok Sample.env = true ∧
      "t2" ∈ (id <$> tasks Sample.two_owners) ∧
      queue w' = queue Sample.two_owners
  | (Throw e, w') =>
      is_UnrecoverableError e = false ∧
      tasks w' = tasks Sample.two_owners ∧
      queue w' = queue Sample.two_owners ∧
      ((∃ msg, e = NotFoundException msg) ∧
         absent "t2" (tasks Sample.two_owners) ∨
       (∃ msg, e = QueryFailedError msg) ∧ save_ok Sample.env = false)
  | (OutOfFuel, _) => False
  end.
Proof.
  apply (process_of_a_producer_job 0
           (Sample.update_job (status_update_payload "t2" COMPLETED) 3)
           Sample.env Sample.two_owners "t2" COMPLETED).
  - reflexivity.
  - reflexivity.
  - discriminate.
Defined.

Lemma with_status_status s t : status (with_status s t) = s.
Proof. done. Qed.

Lemma replace_row_status s t rows r :
  r ∈ replace_row (with_status s t) rows → id r = id t → status r = s.
Proof.
  intros Hr Hid. apply list_elem_of_fmap in Hr as (x & -> & Hx).
  case_bool_decide as H; [done|]. cbn in H. congruence.
Qed.

(** Rows of a table whose keys are unique are told apart by their key. *)
Lemma unique_id_row (rows : list Task) r t :
  NoDup (id <$> rows) → r ∈ rows → t ∈ rows → id r = id t → r = t.
Proof.
  induction rows as [|x rows IH]; intros Hnd Hr Ht Hid; [by inversion Hr|].
  rewrite fmap_cons in Hnd. apply NoDup_cons in Hnd as [Hx Hnd].
  apply elem_of_cons in Hr as [->|Hr], Ht as [->|Ht]; [done| | |by apply IH].
  - destruct Hx. rewrite Hid. apply list_elem_of_fmap. eauto.
  - destruct Hx. rewrite <- Hid. apply list_elem_of_fmap. eauto.
Qed.

(** What a status-update job does to the table.  With a well-formed
    payload, a row with the key, keys that are unique as the primary key
    makes them, and a database that accepts the write, [process] returns
    the key and the status; afterwards the table is the one before with
    the status of the row with the key set and nothing else changed: the
    other fields of that row, the user joined to it, all other rows and
    the order are as they were, and the queue and the mail are
    untouched. *)
Theorem status_update_sets_the_status_of_its_task_only
    (fuel : nat) (job : Job) (env : Env) (w : World)
    (tid : string) (s : TaskStatus) :
  job_name job = "task-status-update" →
  well_formed (job_data job) tid s →
  NoDup (id <$> tasks w) →
  tid ∈ (id <$> tasks w) →
  save_ok env = true →
  ∃ w',
    process fuel job env w = (Ok (StatusUpdated tid s), w') ∧
    tasks w'
      = (λ r, if bool_decide (id r = tid) then with_status s r else r)
          <$> tasks w ∧
    queue w' = queue w ∧ outbox w' = outbox w.
Proof.
  intros Hname Hwf Hnd Hin Hs.
  destruct (row_with_id_present _ _ Hin) as [t Hr].
  destruct (row_with_id_Some _ _ _ Hr) as [Htin Htid].
  destruct (process_well_formed_run fuel job env w tid s Hname Hwf)
    as (w' & Hp & Ht & Hq & Ho).
  rewrite Hr, Hs in Hp, Ht. exists w'. rewrite Ht.
  split_and!; try done.
  unfold replace_row. apply list_fmap_ext. intros i r Hi.
  apply list_elem_of_lookup_2 in Hi. cbn [id with_status].
  rewrite Htid. case_bool_decide as Hid; [|done].
  assert (r = t) as -> by (apply (unique_id_row (tasks w)); congruence).
  done.
Qed.

Lemma status_update_sets_the_status_of_its_task_only_witness :
  ∃ w',
    process 0 (Sample.update_job (status_update_payload "t2" COMPLETED) 3)
            Sample.env Sample.two_owners
      = (Ok (StatusUpdated "t2" COMPLETED), w') ∧
    tasks w'
      = (λ r, if bool_decide (id r = "t2") then with_status COMPLETED r
              else r) <$> tasks Sample.two_owners ∧
    queue w' = queue Sample.two_owners ∧
    outbox w' = outbox Sample.two_owners.
Proof.
  apply (status_update_sets_the_status_of_its_task_only 0
           (Sample.update_job (status_update_payload "t2" COMPLETED) 3)
           Sample.env Sample.two_owners "t2" COMPLETED).
  - reflexivity.
  - split_and!; [reflexivity|done|reflexivity].
  - compute_done.
  - compute_done.
  - reflexivity.
Defined.

Lemma filter_id_fmap (f : Task → Task) tid (rows : list Task) :
  (∀ r, id (f r) = id r) →
  filter (λ t, id t = tid) (f <$> rows) = f <$> filter (λ t, id t = tid) rows.
Proof.
  intros Hf. induction rows as [|r rows IH]; [done|].
  rewrite fmap_cons, !filter_cons, Hf.
  destruct (decide (id r = tid)); by rewrite IH.
Qed.

Lemma row_with_id_replace_row s t tid rows :
  row_with_id tid rows = Some t →
  row_with_id tid (replace_row (with_status s t) rows)
    = Some (with_status s t).
Proof.
  intros Hr. unfold row_with_id, replace_row in *.
  rewrite filter_id_fmap by (intros r; by case_bool_decide).
  destruct (filter (λ t, id t = tid) rows) as [|r l]; [done|].
  cbn in Hr. injection Hr as ->. cbn.
  by rewrite bool_decide_eq_true_2.
Qed.

Lemma replace_row_idemp t rows :
  replace_row t (replace_row t rows) = replace_row t rows.
Proof.
  unfold replace_row. rewrite <- list_fmap_compose.
  apply list_fmap_ext. intros _ r _. cbn.
  destruct (decide (id r = id t)) as [H|H].
  - rewrite (bool_decide_eq_true_2 (id r = id t)) by done.
    by rewrite bool_decide_eq_true_2.
  - rewrite (bool_decide_eq_false_2 (id r = id t)) by done.
    by rewrite bool_decide_eq_false_2.
Qed.

(** Redelivery of a status-update job is harmless.  Processing the same
    well-formed job a second time, right after the first, ends the same
    way (same result or same error) and leaves the table exactly as the
    first run left it; neither run touches the queue or sends mail. *)
Theorem status_update_redelivery_is_harmless
    (fuel : nat) (job : Job) (env : Env) (w : World)
    (tid : string) (s : TaskStatus) :
  job_name job = "task-status-update" →
  well_formed (job_data job) tid s →
  let first := process fuel job env w in
  let second := process fuel job env first.2 in
  second.1 = first.1 ∧ tasks second.2 = tasks first.2 ∧
  queue second.2 = queue w ∧ outbox second.2 = outbox w.
Proof.
  intros Hname Hwf. cbv zeta.
  destruct (process_well_formed_run fuel job env w tid s Hname Hwf)
    as (w1 & -> & Ht1 & Hq1 & Ho1).
  cbn [fst snd].
  destruct (process_well_formed_run fuel job env w1 tid s Hname Hwf)
    as (w2 & -> & Ht2 & Hq2 & Ho2).
  cbn [fst snd]. rewrite Hq2, Hq1, Ho2, Ho1, Ht2, Ht1.
  destruct (row_with_id tid (tasks w)) as [t|] eqn:Hr.
  - destruct (save_ok env) eqn:Hs.
    + rewrite (row_with_id_replace_row s t tid (tasks w) Hr).
      split_and!; try done. exact (replace_row_idemp (with_status s t) _).
    + by rewrite Hr.
  - by rewrite Hr.
Qed.

Lemma status_update_redelivery_is_harmless_witness :
  let job := Sample.update_job (status_update_payload "t2" COMPLETED) 3 in
  let first := process 0 job Sample.env Sample.two_owners in
  let second := process 0 job Sample.env first.2 in
  second.1 = first.1 ∧ tasks second.2 = tasks first.2 ∧
  queue second.2 = queue Sample.two_owners ∧
  outbox second.2 = outbox Sample.two_owners.
Proof.
  apply (status_update_redelivery_is_harmless 0
           (Sample.update_job (status_update_payload "t2" COMPLETED) 3)
           Sample.env Sample.two_owners "t2" COMPLETED).
  - reflexivity.
  - split_and!; [reflexivity|done|reflexivity].
Defined.

(** ** [create] and the job it enqueues *)

Lemma replace_row_fresh t (rows : list Task) :
  id t ∉ (id <$> rows) → replace_row t rows = rows.
Proof.
  intros Hf. unfold replace_row.
  rewrite <- (list_fmap_id rows) at 2. apply list_fmap_ext.
  intros k r Hr. cbn. rewrite bool_decide_eq_false_2; [done|].
  intros Hid. apply Hf. rewrite <- Hid. apply list_elem_of_fmap.
  exists r. split; [done|]. by eapply list_elem_of_lookup_2.
Qed.

Lemma row_with_id_fresh t (rows : list Task) :
  id t ∉ (id <$> rows) → row_with_id (id t) (rows ++ [t]) = Some t.
Proof.
  intros Hf. unfold row_with_id. rewrite filter_app.
  assert (filter (λ r, id r = id t) rows = []) as ->.
  { pose proof (proj2 (row_with_id_None (id t) rows) Hf) as Hn.
    unfold row_with_id in Hn. by apply head_None in Hn. }
  rewrite app_nil_l, (filter_cons (λ r, id r = id t)).
  by rewrite decide_True.
Qed.

Lemma create_run dto uid env w :
  save_ok env = true →
  add_ok env = true →
  commit_ok env = true →
  ∃ row w1,
    create dto uid env w = (Ok (mkTaskResponseDto row), w1) ∧
    id row = uuid env (length (tasks w)) ∧
    tasks w1 = tasks w ++ [with_user (user_of env uid) row] ∧
    queue w1 = queue w ++ [status_update_job w (id row) (status row)].
Proof.
  intros Hs Ha Hc.
  unfold create, transaction, repo_save, Queue_add, create_entity.
  unfold_M. cbn. rewrite Hs, Ha. cbn. rewrite Hc.
  do 2 eexists. split_and!; reflexivity.
Qed.

(** The job [create] enqueues changes nothing when the worker gets to it.
    With a database that accepts the write and commits it, a queue that
    accepts the job and a fresh, non-empty key from the database,
    [create] returns; the job it added is the last of the queue; and
    processing that job succeeds, reports the new task's key and the
    status the task was created with, and leaves the table exactly as
    [create] left it. *)
Theorem create_then_its_job_changes_nothing
    (fuel : nat) (dto : CreateTaskDto) (uid : string)
    (env : Env) (w : World) :
  save_ok env = true →
  commit_ok env = true →
  add_ok env = true →
  uuid env (length (tasks w)) ≠ "" →
  uuid env (length (tasks w)) ∉ (id <$> tasks w) →
  ∃ saved w1 job w2,
    create dto uid env w = (Ok saved, w1) ∧
    last (queue w1) = Some job ∧
    process fuel job env w1
      = (Ok (StatusUpdated (id (entity saved)) (status (entity saved))), w2) ∧
    tasks w2 = tasks w1 ∧ queue w2 = queue w1.
Proof.
  intros Hs Hc Ha Hne Hfresh.
  destruct (create_run dto uid env w Hs Ha Hc)
    as (row & w1 & -> & Hid & Ht1 & Hq1).
  destruct (process_well_formed_run fuel
              (status_update_job w (id row) (status row)) env w1
              (id row) (status row))
    as (w2 & Hp & Ht & Hq & _); [reflexivity| |].
  { apply well_formed_status_update_payload. by rewrite Hid. }
  rewrite <- Hid in Hfresh.
  set (stored := with_user (user_of env uid) row) in *.
  assert (Hrow : row_with_id (id row) (tasks w ++ [stored]) = Some stored)
    by exact (row_with_id_fresh stored (tasks w) Hfresh).
  rewrite Ht1, Hrow, Hs in Hp, Ht.
  exists (mkTaskResponseDto row), w1,
    (status_update_job w (id row) (status row)), w2.
  split_and!; try done.
  - by rewrite Hq1, last_snoc.
  - rewrite Ht, Ht1.
    replace (with_status (status row) stored) with stored
      by (by destruct row).
    unfold replace_row. rewrite fmap_app.
    fold (replace_row stored (tasks w)).
    rewrite (replace_row_fresh stored) by done.
    cbn. by rewrite bool_decide_eq_true_2.
Qed.

Lemma create_then_its_job_changes_nothing_witness :
  ∃ saved w1 job w2,
    create (mkCreateTaskDto "Write report" None None None None) "u1"
           Sample.env Sample.two_owners = (Ok saved, w1) ∧
    last (queue w1) = Some job ∧
    process 0 job Sample.env w1
      = (Ok (StatusUpdated (id (entity saved)) (status (entity saved))), w2) ∧
    tasks w2 = tasks w1 ∧ queue w2 = queue w1.
Proof.
  apply (create_then_its_job_changes_nothing 0
           (mkCreateTaskDto "Write report" None None None None) "u1"
           Sample.env Sample.two_owners).
  - reflexivity.
  - reflexivity.
  - reflexivity.
  - compute_done.
  - compute_done.
Defined.

(** ** The tasks controller *)

Lemma findAll_items_selected q u isAdmin env w :
  ∃ d w',
    findAll q u isAdmin env w = (Ok d, w') ∧
    tasks w' = tasks w ∧ queue w' = queue w ∧
    Forall (λ item,
              entity item ∈ tasks w ∧
              where_matches (findAll_where q u isAdmin) (entity item) = true)
           (data d).
Proof.
  destruct (findAll_run q u isAdmin env w) as (w' & Hrun & Ht & Hq & _).
  eexists _, w'. split_and!; [exact Hrun|done|done|]. cbn.
  apply Forall_fmap, Forall_forall. intros t Hin. cbn.
  apply subseteq_take, subseteq_drop in Hin.
  unfold select in Hin. rewrite order_createdAt_DESC_perm in Hin.
  apply list_elem_of_filter in Hin as [Hm Hin]. split; [done|].
  by apply Is_true_true.
Qed.

Lemma where_matches_findAll_userId q u isAdmin t :
  where_matches (findAll_where q u isAdmin) t = true →
  match (if negb isAdmin then u else nonempty (f_userId q)) with
  | Some x => userId t = x
  | None => True
  end.
Proof.
  unfold where_matches, findAll_where. cbn. rewrite !andb_true_iff.
  intros [_ Hu].
  destruct (if negb isAdmin then u else nonempty (f_userId q)); [|done].
  by apply bool_decide_eq_true in Hu.
Qed.

Lemma nonempty_Some s x : nonempty s = Some x ↔ s = Some x ∧ x ≠ "".
Proof.
  unfold nonempty. destruct s as [s'|]; [|by split; [|intros []]].
  case_bool_decide as H; split.
  - done.
  - intros [[= ->] Hx]. done.
  - intros [= ->]. done.
  - by intros [-> _].
Qed.

Lemma nonempty_None s : nonempty s = None ↔ s = None ∨ s = Some "".
Proof.
  unfold nonempty. destruct s as [s'|]; [|by split; [left|]].
  case_bool_decide as H; split; try done.
  - intros _. right. by rewrite H.
  - intros [?|[= ?]]; done.
Qed.

(** The listing endpoint and ownership.  A caller whose role is not
    'admin' and who names another user's id in the query is refused
    before the service is called, and nothing changes at all; the same
    caller naming no id, an empty one or their own is served, and every
    task listed is their own.  A caller whose role is 'admin' is always
    served, and a non-empty [userId] in the query restricts the listing
    to that user's tasks.  The endpoint never throws otherwise, lists
    only rows of the table, and leaves the table as it was. *)
Theorem controller_findAll_respects_ownership
    (q : TaskFilterDto) (req : RequestUser) (env : Env) (w : World) :
  match TasksController.findAll q req env w with
  | (Refused e, w') =>
      w' = w ∧ req_role req ≠ "admin" ∧
      ∃ u, f_userId q = Some u ∧ u ≠ "" ∧ u ≠ req_id req
  | (Served (Ok d), w') =>
      tasks w' = tasks w ∧
      (req_role req ≠ "admin" →
       ∀ u, f_userId q = Some u → u = "" ∨ u = req_id req) ∧
      Forall (λ item,
                entity item ∈ tasks w ∧
                (req_role req ≠ "admin" →
                 userId (entity item) = req_id req) ∧
                (∀ u, req_role req = "admin" → f_userId q = Some u →
                      u ≠ "" → userId (entity item) = u))
             (data d)
  | (Served _, _) => False
  end.
Proof.
  unfold TasksController.findAll, TasksController.isAdmin,
    TasksController.refuse, TasksController.serve.
  destruct (nonempty (f_userId q)) as [u|] eqn:Hu.
  - apply nonempty_Some in Hu as [Hq Hne].
    destruct (decide (req_role req = "admin")) as [Hadm|Hadm].
    + rewrite (bool_decide_eq_true_2 _ Hadm). cbn [negb andb].
      destruct (findAll_items_selected q (Some (req_id req)) true env w)
        as (d & w' & -> & Ht & _ & Hall).
      split_and!; [done|done|].
      eapply Forall_impl; [exact Hall|]. intros item [Hin Hm].
      split_and!; [done|done|]. intros u' _ Hq' Hne'.
      apply where_matches_findAll_userId in Hm. cbn in Hm.
      rewrite Hq in Hm, Hq'. injection Hq' as <-.
      rewrite (proj2 (nonempty_Some (Some u) u)) in Hm by done. done.
    + rewrite (bool_decide_eq_false_2 _ Hadm). cbn [negb andb].
      destruct (decide (u = req_id req)) as [Heq|Hneq].
      * rewrite (bool_decide_eq_true_2 _ Heq). cbn [negb].
        destruct (findAll_items_selected q (Some (req_id req)) false env w)
          as (d & w' & -> & Ht & _ & Hall).
        split_and!; [done| |].
        { intros _ u' Hq'. rewrite Hq in Hq'. injection Hq' as <-. by right. }
        eapply Forall_impl; [exact Hall|]. intros item [Hin Hm].
        split_and!; [done| |done].
        intros _. by apply where_matches_findAll_userId in Hm.
      * rewrite (bool_decide_eq_false_2 _ Hneq). cbn [negb].
        split_and!; [done|done|]. by exists u.
  - apply nonempty_None in Hu.
    destruct (decide (req_role req = "admin")) as [Hadm|Hadm].
    + rewrite (bool_decide_eq_true_2 _ Hadm). cbn [negb].
      destruct (findAll_items_selected q (Some (req_id req)) true env w)
        as (d & w' & -> & Ht & _ & Hall).
      split_and!; [done|done|].
      eapply Forall_impl; [exact Hall|]. intros item [Hin Hm].
      split_and!; [done|done|]. intros u' _ Hq' Hne'.
      destruct Hu as [Hu|Hu]; rewrite Hu in Hq'; congruence.
    + rewrite (bool_decide_eq_false_2 _ Hadm). cbn [negb].
      destruct (findAll_items_selected
                  (TasksController.set_userId (req_id req) q)
                  (Some (req_id req)) false env w)
        as (d & w' & -> & Ht & _ & Hall).
      split_and!; [done| |].
      { intros _ u' Hq'. destruct Hu as [Hu|Hu]; rewrite Hu in Hq';
          [done|]. injection Hq' as <-. by left. }
      eapply Forall_impl; [exact Hall|]. intros item [Hin Hm].
      split_and!; [done| |done].
      intros _. by apply where_matches_findAll_userId in Hm.
Qed.

(** The batch endpoint and the rows it may touch.  An action other than
    'complete' and 'delete' is refused and nothing changes.  Otherwise
    the rows whose key is not listed, and for a caller who is no admin
    the rows of other users, are in the table afterwards as they were:
    'complete' gives the remaining listed rows the status completed and
    keeps the number of rows, 'delete' removes them.  When the database
    refuses the write the table is as it was. *)
Theorem controller_batchProcess_spares_other_rows
    (operations : BatchTaskDto) (req : RequestUser) (env : Env) (w : World) :
  let mine :=
    in_batch (b_taskIds operations) (req_id req)
             (TasksController.isAdmin req) in
  match TasksController.batchProcess operations req env w with
  | (Refused e, w') =>
      w' = w ∧ b_action operations ≠ "complete" ∧
      b_action operations ≠ "delete"
  | (Served (Ok r), w') =>
      (∀ t, t ∈ tasks w → id t ∉ b_taskIds operations → t ∈ tasks w') ∧
      (∀ t, t ∈ tasks w → req_role req ≠ "admin" →
            userId t ≠ req_id req → t ∈ tasks w') ∧
      match r with
      | inl _ =>
          b_action operations = "complete" ∧
          length (tasks w') = length (tasks w) ∧
          (∀ t, t ∈ tasks w → mine t → with_status COMPLETED t ∈ tasks w')
      | inr _ =>
          b_action operations = "delete" ∧
          (∀ t, t ∈ tasks w' ↔ t ∈ tasks w ∧ ¬ mine t)
      end
  | (Served (Throw e), w') => tasks w' = tasks w
  | (Served OutOfFuel, _) => False
  end.
Proof.
  intros mine.
  assert (Hkeep : ∀ t, id t ∉ b_taskIds operations → ¬ mine t).
  { intros t H [H' _]. done. }
  assert (Hother : ∀ t, req_role req ≠ "admin" → userId t ≠ req_id req →
                        ¬ mine t).
  { intros t Hr Hu [_ H']. apply Hu, H'.
    unfold TasksController.isAdmin. by rewrite bool_decide_eq_false_2. }
  unfold TasksController.batchProcess, TasksController.refuse,
    TasksController.serve.
  destruct (decide (b_action operations = "complete")) as [Ha|Ha].
  - rewrite (bool_decide_eq_true_2 _ Ha).
    unfold mbind at 1, M_MBind at 1, M_bind at 1.
    destruct (batchUpdateStatus_run (b_taskIds operations) COMPLETED
                (req_id req) (TasksController.isAdmin req) env w)
      as (w' & -> & Ht & _).
    destruct (save_ok env); [|done]. unfold_M. cbn.
    assert (Hin : ∀ t, t ∈ tasks w → ¬ mine t → t ∈ tasks w').
    { intros t Hin Hn. rewrite Ht. apply list_elem_of_fmap. exists t.
      split; [|done]. by rewrite decide_False. }
    split_and!; eauto.
    + by rewrite Ht, length_fmap.
    + intros t Hin' Hm. rewrite Ht. apply list_elem_of_fmap. exists t.
      split; [|done]. by rewrite decide_True.
  - rewrite (bool_decide_eq_false_2 _ Ha).
    destruct (decide (b_action operations = "delete")) as [Hd|Hd].
    + rewrite (bool_decide_eq_true_2 _ Hd).
      unfold mbind at 1, M_MBind at 1, M_bind at 1.
      destruct (batchDelete_run (b_taskIds operations)
                  (req_id req) (TasksController.isAdmin req) env w)
        as (w' & -> & Ht & _).
      destruct (save_ok env); [|done]. unfold_M. cbn.
      assert (Hiff : ∀ t, t ∈ tasks w' ↔ t ∈ tasks w ∧ ¬ mine t).
      { intros t. rewrite Ht, list_elem_of_filter. tauto. }
      split_and!; try done.
      * intros t Hin Hn. apply Hiff. auto.
      * intros t Hin Hr Hu. apply Hiff. auto.
    + rewrite (bool_decide_eq_false_2 _ Hd). done.
Qed.

(** ** The overdue sweep: whom it writes to *)

Lemma recipient_Some t a :
  recipient t = Some a →
  ∃ u, user t = Some u ∧ email u ≠ "" ∧ a = (id t, email u).
Proof.
  unfold recipient. destruct (user t) as [u|]; [|done].
  case_bool_decide; [done|]. intros [= <-]. by exists u.
Qed.

Lemma omap_recipient_Forall (P : Task → Prop) (l : list Task) :
  Forall P l →
  Forall (λ a, ∃ t, P t ∧ recipient t = Some a) (omap recipient l).
Proof.
  induction 1 as [|t l Ht _ IH]; [constructor|].
  cbn. destruct (recipient t) as [a|] eqn:E; [|done].
  constructor; [|done]. by exists t.
Qed.

(** The sweep never writes to anyone about a task its query did not
    select.  With enough fuel for the table, every [sendMail] call of a
    sweep is about a row of the table that is pending and whose due date
    lay between 1900-01-01 and the clock, both ends included, at one of
    the clock readings the sweep itself took (the readings numbered
    [ticks w], ..., [ticks w' - 1]), and it is addressed to the
    non-empty address of that row's own user. *)
Theorem sweep_mails_only_owners_of_overdue_pending_tasks
    (env : Env) (w : World) (fuel : nat) (job : Job) :
  length (tasks w) / batchSize < fuel →
  ∃ r w' calls,
    handleOverdueTasks fuel job env w = (Ok r, w') ∧
    outbox w' = outbox w ++ calls ∧
    Forall (λ c, ∃ t u d k,
              t ∈ tasks w ∧ id t = mail_task c ∧ status t = PENDING ∧
              dueDate t = Some d ∧
              ticks w ≤ k < ticks w' ∧
              (date_1900_01_01 ≤ d ≤ clock env k)%Z ∧
              user t = Some u ∧ email u ≠ "" ∧
              to (mail_options c) = email u)
           calls.
Proof.
  intros Hfuel.
  destruct (handleOverdueTasks_completes fuel job env w Hfuel)
    as (pgs & w' & calls & Hp & Hrun & (_ & _ & _ & Ho & Hticks & _) & Ha).
  rewrite length_page_reads in Hticks.
  eexists _, w', calls. split_and!; [exact Hrun|done|].
  pose proof (omap_recipient_Forall _ _ (sweep_pages_rows_read _ _ _ _ _ _ Hp))
    as Hall.
  apply Forall_forall. intros c Hc.
  assert (Hac : addressed c ∈ omap recipient (concat pgs)).
  { rewrite <- Ha. apply list_elem_of_fmap. by exists c. }
  destruct (proj1 (Forall_forall _ _) Hall _ Hac)
    as (t & (Hin & k & Hread & Hk) & Hr).
  apply recipient_Some in Hr as (u & Hu & Hne & Heq).
  unfold addressed in Heq. injection Heq as Hid Hto.
  unfold overdue_as_queried in Hk. apply andb_true_iff in Hk as [Hs Hd].
  apply bool_decide_eq_true in Hs.
  destruct (dueDate t) as [d|] eqn:Hdue; [|done].
  apply andb_true_iff in Hd as [Hlo Hd].
  apply Z.leb_le in Hlo. apply Z.leb_le in Hd.
  exists t, u, d, k. split_and!; try done; lia.
Qed.

Lemma sweep_mails_only_owners_of_overdue_pending_tasks_witness :
  ∃ r w' calls,
    handleOverdueTasks 1 Sample.sweep_job Sample.env Sample.two_owners
      = (Ok r, w') ∧
    outbox w' = outbox Sample.two_owners ++ calls ∧
    Forall (λ c, ∃ t u d k,
              t ∈ tasks Sample.two_owners ∧ id t = mail_task c ∧
              status t = PENDING ∧
              dueDate t = Some d ∧
              ticks Sample.two_owners ≤ k < ticks w' ∧
              (date_1900_01_01 ≤ d ≤ clock Sample.env k)%Z ∧
              user t = Some u ∧ email u ≠ "" ∧
              to (mail_options c) = email u)
           calls.
Proof.
  apply (sweep_mails_only_owners_of_overdue_pending_tasks
           Sample.env Sample.two_owners 1 Sample.sweep_job).
  vm_compute. lia.
Defined.

Lemma sweep_pages_concat env rows :
  (∀ k, overdue_rows env rows k = overdue_rows env rows 0) →
  ∀ fuel tick i pgs,
    sweep_pages env rows fuel tick i = Some pgs →
    concat pgs = drop (i * batchSize) (overdue_rows env rows 0).
Proof.
  intros Hst. induction fuel as [|fuel IH]; intros tick i pgs; [done|].
  cbn [sweep_pages]. unfold page_of. rewrite (Hst tick).
  set (rest := drop (i * batchSize) (overdue_rows env rows 0)).
  assert (Hshort : length (take batchSize rest) < batchSize →
                   [take batchSize rest] = pgs → concat pgs = rest).
  { intros Hlt <-. cbn. rewrite app_nil_r. apply take_ge.
    rewrite length_take in Hlt. lia. }
  case_bool_decide as H0.
  { intros [= H]. apply Hshort; [|done]. rewrite H0. unfold batchSize. lia. }
  case_bool_decide as H1.
  { intros [= H]. by apply Hshort. }
  destruct (sweep_pages env rows fuel (S tick) (S i)) as [pgs'|] eqn:E;
    [|done].
  intros [= <-]. cbn [concat]. rewrite (IH _ _ _ E).
  replace (S i * batchSize) with (i * batchSize + batchSize)
    by (unfold batchSize; lia).
  rewrite <- drop_drop. fold rest. apply take_drop.
Qed.

(** Against a table in which the query selects the same tasks at every
    clock reading, one sweep covers the tasks its query selects
    completely and without repetition.  These are the pending tasks due
    between 1900-01-01 and the clock reading, both ends included; a
    pending task due before 1900 is not among them.  With enough fuel
    the sweep reports their number as total, and its [sendMail] calls
    are, in the order of the query (newest first), exactly one for each
    of them that has a user with a non-empty address. *)
Theorem sweep_notifies_each_selected_task_once
    (env : Env) (w : World) (fuel : nat) (job : Job) :
  (∀ k t, t ∈ tasks w →
     overdue_as_queried (clock env k) t = overdue_as_queried (clock env 0) t) →
  length (tasks w) / batchSize < fuel →
  ∃ w' calls,
    handleOverdueTasks fuel job env w
      = (Ok (SweepCompleted
               (completed_message
                  (length (filter (λ t, overdue_as_queried (clock env 0) t)
                                  (tasks w))))), w') ∧
    outbox w' = outbox w ++ calls ∧
    addressed <$> calls = omap recipient (overdue_rows env (tasks w) 0) ∧
    overdue_rows env (tasks w) 0
      ≡ₚ filter (λ t, overdue_as_queried (clock env 0) t) (tasks w).
Proof.
  intros Hst Hfuel.
  destruct (handleOverdueTasks_completes fuel job env w Hfuel)
    as (pgs & w' & calls & Hp & Hrun & (_ & _ & _ & Ho & _) & Ha).
  assert (Hrows : ∀ k, overdue_rows env (tasks w) k
                       = overdue_rows env (tasks w) 0).
  { intros k. unfold overdue_rows, select. f_equal.
    apply filter_agree. intros t Ht.
    rewrite !where_matches_sweep. by apply Hst. }
  pose proof (sweep_pages_concat env (tasks w) Hrows _ _ _ _ Hp) as Hc.
  rewrite drop_0 in Hc.
  exists w', calls. rewrite Hrun, Ha, Hc, overdue_rows_length.
  split_and!; try done. apply overdue_rows_perm.
Qed.

Lemma sweep_notifies_each_selected_task_once_witness :
  ∃ w' calls,
    handleOverdueTasks 1 Sample.sweep_job Sample.env Sample.two_owners
      = (Ok (SweepCompleted
               (completed_message
                  (length (filter
                             (λ t, overdue_as_queried (clock Sample.env 0) t)
                             (tasks Sample.two_owners))))),
         w') ∧
    outbox w' = outbox Sample.two_owners ++ calls ∧
    addressed <$> calls
      = omap recipient (overdue_rows Sample.env (tasks Sample.two_owners) 0) ∧
    overdue_rows Sample.env (tasks Sample.two_owners) 0
      ≡ₚ filter (λ t, overdue_as_queried (clock Sample.env 0) t)
                (tasks Sample.two_owners).
Proof.
  apply (sweep_notifies_each_selected_task_once
           Sample.env Sample.two_owners 1 Sample.sweep_job).
  - intros k t _. reflexivity.
  - vm_compute. lia.
Defined.

(** ** The rate-limit guard *)

Import RateLimitGuard.

Arguments multi_exec : simpl never.

(** Each command touches its key only. *)
Lemma zadd_frame now key score mem (r : gmap string ZSet) k :
  k ≠ key → zadd now key score mem r !! k = r !! k.
Proof.
  intros H. unfold zadd. destruct (lookup_live now key r);
    by rewrite lookup_insert_ne.
Qed.

Lemma zremrangebyscore_frame now key lo hi (r : gmap string ZSet) k :
  k ≠ key → zremrangebyscore now key lo hi r !! k = r !! k.
Proof.
  intros H. unfold zremrangebyscore.
  destruct (lookup_live now key r); [case_bool_decide|];
    by rewrite ?lookup_insert_ne, ?lookup_delete_ne.
Qed.

Lemma expire_frame now key secs (r : gmap string ZSet) k :
  k ≠ key → expire now key secs r !! k = r !! k.
Proof.
  intros H. unfold expire.
  destruct (lookup_live now key r); [case_bool_decide|];
    by rewrite ?lookup_insert_ne, ?lookup_delete_ne.
Qed.

Lemma multi_exec_frame now key mem w (r : gmap string ZSet) k :
  k ≠ key → (multi_exec now key mem w r).2 !! k = r !! k.
Proof.
  intros H. unfold multi_exec. cbn.
  by rewrite expire_frame, zremrangebyscore_frame, zadd_frame.
Qed.

Lemma Math_ceil_div_1000 w : (w ≤ Math_ceil_div w 1000 * 1000)%Z.
Proof.
  unfold Math_ceil_div.
  pose proof (Z.div_mod (- w) 1000 ltac:(lia)) as H.
  pose proof (Z.mod_pos_bound (- w) 1000 ltac:(lia)) as H'.
  lia.
Qed.

Lemma lookup_live_insert now key z (r : gmap string ZSet) :
  lookup_live now key (<[key := z]> r)
    = match expireAt z with
      | Some e => if bool_decide (e ≤ now)%Z then None else Some z
      | None => Some z
      end.
Proof. unfold lookup_live. by rewrite lookup_insert_eq. Qed.

Lemma lookup_live_expireAt now key (r : gmap string ZSet) z e :
  lookup_live now key r = Some z → expireAt z = Some e → (now < e)%Z.
Proof.
  unfold lookup_live. destruct (r !! key) as [z'|]; [|done]. cbn.
  destruct (expireAt z') as [e'|] eqn:E.
  - case_bool_decide; [done|]. intros [= ->]. rewrite E. intros [= ->]. lia.
  - intros [= ->]. by rewrite E.
Qed.

(** The transaction, for a window that is positive: the request is added,
    what has left the window is removed, the count is what remains, and
    the key gets its new time to live. *)
Lemma multi_exec_run now key mem w (r : gmap string ZSet) :
  (0 < w)%Z →
  multi_exec now key mem w r
    = (Z.of_nat (size (<[mem := now]> (in_window now w key r))),
       <[key := mkZSet (<[mem := now]> (in_window now w key r))
                       (Some (now + (Math_ceil_div w 1000 + 10) * 1000)%Z)]> r).
Proof.
  intros Hw. unfold multi_exec, in_window, live_scores.
  assert (Hin : ¬ in_range 0 (now - w) (mem, now)).
  { unfold in_range. cbn. lia. }
  assert (Hz1 : ∃ e0,
    zadd now key now mem r
      = <[key := mkZSet (<[mem := now]>
                           (match lookup_live now key r with
                            | Some z => scores z
                            | None => ∅
                            end)) e0]> r ∧
    ∀ e, e0 = Some e → (now < e)%Z).
  { unfold zadd. destruct (lookup_live now key r) as [z|] eqn:E.
    - exists (expireAt z). split; [done|]. intros e He.
      by eapply lookup_live_expireAt.
    - exists None. split; [done|]. done. }
  destruct Hz1 as (e0 & -> & He0).
  set (live := match lookup_live now key r with
               | Some z => scores z
               | None => ∅
               end).
  assert (Hl1 : ∀ m' (r' : gmap string ZSet),
            lookup_live now key (<[key := mkZSet m' e0]> r')
              = Some (mkZSet m' e0)).
  { intros m' r'. rewrite lookup_live_insert. cbn.
    destruct e0 as [e|]; [|done].
    rewrite bool_decide_eq_false_2; [done|]. specialize (He0 e eq_refl). lia. }
  unfold zremrangebyscore. rewrite Hl1. cbn [scores expireAt].
  rewrite (map_filter_insert_True _ _ _ _ Hin).
  rewrite bool_decide_eq_false_2 by apply insert_non_empty.
  rewrite insert_insert_eq.
  unfold zcard. rewrite Hl1. cbn [scores].
  unfold expire. rewrite Hl1. cbn [scores].
  pose proof (Math_ceil_div_1000 w).
  rewrite bool_decide_eq_false_2 by lia.
  by rewrite insert_insert_eq.
Qed.

(** The guard never blocks because of Redis, and it keeps to its key.
    Whatever the request, the sorted sets of other keys are as they
    were.  A handler without rate-limit options, a transaction that
    yields no replies and a failing connection all let the request
    through, with no header set and Redis unchanged.  A request is only
    rejected when the transaction went through and counted more requests
    than the limit; the response then says that nothing remains, and for
    a positive window the rejected request itself stays recorded under
    the key. *)
Theorem guard_fails_open_and_keeps_to_its_key
    (g : Guard) (context : ExecutionContext) (m : Moment) (st : GuardState) :
  let res := canActivate g context m st in
  let key := guard_key g context in
  (∀ k, k ≠ key → redis res.2 !! k = redis st !! k) ∧
  (metadata context = None ∨ reply m ≠ Replies →
   res.1 = (Activated, []) ∧ redis res.2 = redis st) ∧
  (∀ l w, res.1.1 = TooManyRequests l w →
     ∃ o, metadata context = Some o ∧ l = rl_limit o ∧ w = windowMs o ∧
          reply m = Replies ∧
          (l < (multi_exec (now m) key (member m) w (redis st)).1)%Z ∧
          ("X-RateLimit-Remaining", 0%Z) ∈ res.1.2 ∧
          ((0 < w)%Z → stored key (redis res.2) !! member m = Some (now m))).
Proof.
  cbv zeta. unfold canActivate, guard_key.
  destruct (metadata context) as [o|] eqn:Hmeta; cbn.
  2:{ split_and!; try done. }
  set (key := generateKey context (getIdentifier g (request context))).
  unfold handleRateLimit.
  destruct (reply m) as [| |msg] eqn:Hreply; cbn.
  2,3: split_and!; try done.
  destruct (multi_exec (now m) key (member m) (windowMs o) (redis st))
    as [count r] eqn:Hexec.
  assert (Hframe : ∀ k, k ≠ key → r !! k = redis st !! k).
  { intros k Hk. pose proof (multi_exec_frame (now m) key (member m)
      (windowMs o) (redis st) k Hk) as H. by rewrite Hexec in H. }
  case_bool_decide as Hover; cbn.
  - split_and!; [done|by intros [?|?]|].
    intros l w [= <- <-]. exists o. rewrite Hexec.
    split_and!; [done|done|done|done|exact Hover| |].
    + replace (Z.max 0 (rl_limit o - count)) with 0%Z by lia.
      apply list_elem_of_In. cbn. auto.
    + intros Hw. rewrite multi_exec_run in Hexec by done.
      injection Hexec as _ <-. unfold stored.
      rewrite lookup_insert_eq. cbn. by rewrite lookup_insert_eq.
  - split_and!; [done|by intros [?|?]|done].
Qed.

(** One request of a limited handler that Redis answers, for a positive
    window. *)
Lemma canActivate_run g context m st o :
  metadata context = Some o →
  reply m = Replies →
  (0 < windowMs o)%Z →
  let key := guard_key g context in
  let seen := <[member m := now m]> (in_window (now m) (windowMs o) key (redis st)) in
  (canActivate g context m st).1.1
    = (if bool_decide (rl_limit o < Z.of_nat (size seen))%Z
       then TooManyRequests (rl_limit o) (windowMs o) else Activated) ∧
  redis (canActivate g context m st).2
    = <[key := mkZSet seen
          (Some (now m + (Math_ceil_div (windowMs o) 1000 + 10) * 1000)%Z)]>
        (redis st).
Proof.
  intros Hmeta Hreply Hw. cbv zeta. unfold canActivate, guard_key.
  rewrite Hmeta. unfold handleRateLimit. rewrite Hreply. cbn.
  rewrite multi_exec_run by done.
  case_bool_decide; done.
Qed.

Lemma live_scores_insert b key seen e (r : gmap string ZSet) :
  (b < e)%Z →
  live_scores b key (<[key := mkZSet seen (Some e)]> r) = seen.
Proof.
  intros H. unfold live_scores. rewrite lookup_live_insert. cbn.
  by rewrite bool_decide_eq_false_2 by lia.
Qed.

Lemma in_window_idemp b w key (r : gmap string ZSet) :
  filter (λ e, ¬ in_range 0 (b - w) e) (in_window b w key r)
    = in_window b w key r.
Proof.
  unfold in_window. rewrite map_filter_filter.
  apply map_filter_ext. intros i x _. tauto.
Qed.

(** One call that Redis answers, seen from the calls that come within a
    window of it: it is judged by the members in its window and itself,
    and leaves itself in their window, whatever the verdict. *)
Lemma canActivate_step g context o a st seen :
  metadata context = Some o →
  (0 < windowMs o)%Z →
  reply a = Replies →
  in_window (now a) (windowMs o) (guard_key g context) (redis st) = seen →
  seen !! member a = None →
  (canActivate g context a st).1.1
    = (if bool_decide (rl_limit o < Z.of_nat (S (size seen)))%Z
       then TooManyRequests (rl_limit o) (windowMs o) else Activated) ∧
  ∀ b, (now b < now a + windowMs o)%Z → (now a < now b + windowMs o)%Z →
    in_window (now b) (windowMs o) (guard_key g context) (redis st) = seen →
    in_window (now b) (windowMs o) (guard_key g context)
              (redis (canActivate g context a st).2)
      = <[member a := now a]> seen.
Proof.
  intros Hmeta Hw Ha Hsa Hfa.
  destruct (canActivate_run g context a st o Hmeta Ha Hw) as [Hv Hr].
  cbv zeta in Hv, Hr. rewrite Hsa in Hv, Hr.
  rewrite map_size_insert_None in Hv by done. split; [exact Hv|].
  intros b Hba Hab Hsb. rewrite Hr.
  pose proof (Math_ceil_div_1000 (windowMs o)).
  unfold in_window. rewrite live_scores_insert by lia.
  rewrite map_filter_insert_True by (unfold in_range; cbn; lia).
  f_equal. rewrite <- Hsb. apply in_window_idemp.
Qed.

Lemma fmap_seq_shift {A} (f h : nat → A) n :
  (∀ j, f (S j) = h j) → f <$> seq 2 n = h <$> seq 1 n.
Proof.
  intros Hfh. rewrite <- (fmap_S_seq 1), <- list_fmap_compose.
  apply list_fmap_ext. intros _ j _. apply Hfh.
Qed.

(** The requests, from any state in which the guard calls still to come
    all see the same members [seen] in their window. *)
Lemma pass_all_run g context o : ∀ rs st seen,
  metadata context = Some o →
  (0 < windowMs o)%Z →
  Forall (λ r, jwt_ok r = true) rs →
  Forall (λ m, reply m = Replies) (moments_of rs) →
  within_one_window (windowMs o) (moments_of rs) →
  NoDup (member <$> moments_of rs) →
  Forall (λ b, in_window (now b) (windowMs o) (guard_key g context) (redis st)
               = seen) (moments_of rs) →
  Forall (λ b, seen !! member b = None) (moments_of rs) →
  (pass_all g context rs st).1
    = (λ k, if bool_decide
                 (rl_limit o < Z.of_nat (size seen) + 2 * Z.of_nat k)%Z
            then Limited (rl_limit o) (windowMs o) else LetThrough)
      <$> seq 1 (length rs).
Proof.
  intros rs. induction rs as [|r rs IH]; intros st seen Hmeta Hw Hjwt Hrep
    Hwin Hnd Hseen Hfresh; [done|].
  unfold moments_of in *. rewrite fmap_cons in *. cbn [concat app] in *.
  fold (moments_of rs) in *.
  set (a1 := at_global r) in *. set (a2 := at_controller r) in *.
  assert (Hpair : ∀ a b, a ∈ a1 :: a2 :: moments_of rs →
                         b ∈ a1 :: a2 :: moments_of rs →
                         (now b < now a + windowMs o)%Z).
  { intros a b Ha Hb. unfold within_one_window in Hwin.
    rewrite Forall_forall in Hwin. specialize (Hwin a Ha).
    rewrite Forall_forall in Hwin. by apply Hwin. }
  assert (Hin1 : a1 ∈ a1 :: a2 :: moments_of rs) by (by left).
  assert (Hin2 : a2 ∈ a1 :: a2 :: moments_of rs) by (right; by left).
  assert (Hin : ∀ b, b ∈ moments_of rs → b ∈ a1 :: a2 :: moments_of rs)
    by (intros b Hb; right; by right).
  apply Forall_cons in Hjwt as [Hj Hjwt].
  apply Forall_cons in Hrep as [Ha1 Hrep].
  apply Forall_cons in Hrep as [Ha2 Hrep].
  apply Forall_cons in Hseen as [Hs1 Hseen].
  apply Forall_cons in Hseen as [Hs2 Hseen].
  apply Forall_cons in Hfresh as [Hf1 Hfresh].
  apply Forall_cons in Hfresh as [Hf2 Hfresh].
  rewrite !fmap_cons in Hnd.
  apply NoDup_cons in Hnd as [Hn1 Hnd]. apply NoDup_cons in Hnd as [Hn2 Hnd].
  assert (Hwin' : within_one_window (windowMs o) (moments_of rs)).
  { unfold within_one_window. apply Forall_forall. intros a Ha.
    apply Forall_forall. intros b Hb. apply Hpair; auto. }
  destruct (canActivate_step g context o a1 st seen Hmeta Hw Ha1 Hs1 Hf1)
    as [Hv1 Hnext1].
  set (seen1 := <[member a1 := now a1]> seen) in *.
  assert (Hsize1 : size seen1 = S (size seen))
    by (by apply map_size_insert_None).
  assert (Hfresh1 : Forall (λ b, seen1 !! member b = None) (moments_of rs)).
  { apply Forall_forall. intros b Hb.
    pose proof (proj1 (Forall_forall _ _) Hfresh b Hb) as Hfb. cbn in Hfb.
    unfold seen1. rewrite lookup_insert_ne; [done|].
    intros Heq. apply Hn1. rewrite Heq. apply elem_of_cons. right.
    apply list_elem_of_fmap. eauto. }
  cbn [pass_all length seq fmap list_fmap fst snd]. unfold pass_guards.
  fold a1 a2. cbv zeta. rewrite Hv1.
  destruct (decide (rl_limit o < Z.of_nat (S (size seen)))%Z) as [Hover|Hok].
  - rewrite (bool_decide_eq_true_2 _ Hover). cbn [fst snd].
    rewrite (bool_decide_eq_true_2
               (rl_limit o < Z.of_nat (size seen) + 2 * Z.of_nat 1)%Z)
      by lia.
    f_equal.
    rewrite (IH _ seen1); try done.
    + symmetry. apply fmap_seq_shift. intros j. rewrite Hsize1.
      rewrite !bool_decide_eq_true_2 by lia. done.
    + apply Forall_forall. intros b Hb.
      apply Hnext1; [by apply Hpair; auto|by apply Hpair; auto|].
      exact (proj1 (Forall_forall _ _) Hseen b Hb).
  - rewrite (bool_decide_eq_false_2 _ Hok). rewrite Hj.
    assert (Hs21 : in_window (now a2) (windowMs o) (guard_key g context)
                     (redis (canActivate g context a1 st).2) = seen1).
    { apply Hnext1; [by apply Hpair|by apply Hpair|exact Hs2]. }
    assert (Hf21 : seen1 !! member a2 = None).
    { unfold seen1. rewrite lookup_insert_ne; [done|].
      intros Heq. apply Hn1. rewrite Heq. apply elem_of_cons. by left. }
    destruct (canActivate_step g context o a2 _ seen1 Hmeta Hw Ha2 Hs21 Hf21)
      as [Hv2 Hnext2].
    set (seen2 := <[member a2 := now a2]> seen1) in *.
    assert (Hsize2 : size seen2 = S (S (size seen))).
    { unfold seen2. rewrite map_size_insert_None by done. by rewrite Hsize1. }
    rewrite Hv2, Hsize1.
    set (st2 := (canActivate g context a2 (canActivate g context a1 st).2).2)
      in *.
    assert (Htail : (pass_all g context rs st2).1
              = (λ k, if bool_decide
                           (rl_limit o
                            < Z.of_nat (size seen) + 2 * Z.of_nat k)%Z
                      then Limited (rl_limit o) (windowMs o) else LetThrough)
                <$> seq 2 (length rs)).
    { rewrite (IH st2 seen2); try done.
      - symmetry. apply fmap_seq_shift. intros j. rewrite Hsize2.
        destruct (decide (rl_limit o
                          < Z.of_nat (size seen) + 2 * Z.of_nat (S j))%Z).
        + by rewrite !bool_decide_eq_true_2 by lia.
        + by rewrite !bool_decide_eq_false_2 by lia.
      - apply Forall_forall. intros b Hb.
        apply Hnext2; [by apply Hpair; auto|by apply Hpair; auto|].
        apply Hnext1; [by apply Hpair; auto|by apply Hpair; auto|].
        exact (proj1 (Forall_forall _ _) Hseen b Hb).
      - apply Forall_forall. intros b Hb.
        pose proof (proj1 (Forall_forall _ _) Hfresh1 b Hb) as Hfb.
        cbn in Hfb. unfold seen2. rewrite lookup_insert_ne; [done|].
        intros Heq. apply Hn2. rewrite Heq. apply list_elem_of_fmap. eauto. }
    destruct (decide (rl_limit o < Z.of_nat (S (S (size seen))))%Z)
      as [Hover2|Hok2].
    + rewrite (bool_decide_eq_true_2 _ Hover2). cbn [fst snd].
      rewrite (bool_decide_eq_true_2
                 (rl_limit o < Z.of_nat (size seen) + 2 * Z.of_nat 1)%Z)
        by lia.
      f_equal. exact Htail.
    + rewrite (bool_decide_eq_false_2 _ Hok2). cbn [fst snd].
      rewrite (bool_decide_eq_false_2
                 (rl_limit o < Z.of_nat (size seen) + 2 * Z.of_nat 1)%Z)
        by lia.
      f_equal. exact Htail.
Qed.

Lemma all_stale_in_window w key (r : gmap string ZSet) ms :
  all_stale w key r ms →
  Forall (λ b, in_window (now b) w key r = ∅) ms.
Proof.
  unfold all_stale. intros H. eapply Forall_impl; [exact H|]. clear H.
  intros b Hb. cbn in Hb.
  unfold in_window. apply map_empty. intros i.
  apply map_lookup_filter_None. right. intros s Hs Hn. apply Hn.
  unfold in_range. cbn.
  apply (map_Forall_lookup_1 _ _ i s Hb).
  unfold live_scores, lookup_live in Hs. unfold stored.
  destruct (r !! key) as [z|]; [|done]. cbn in Hs.
  destruct (expireAt z); [case_bool_decide|]; done.
Qed.

(** A burst is let through up to half the limit, and not beyond.  A
    request to [TasksController] is counted twice, once by the global
    guard and once by the controller's.  Take the requests that one
    client sends to one limited handler, each with a token that
    [JwtAuthGuard] accepts, no two of their guard calls a window or more
    apart, each call with its own member, all answered by Redis, and
    nothing under the key that is not older than the window.  Then the
    k-th request reaches the handler when 2k is at most the limit and is
    rejected with 429 when 2k is more: with the controller's limit of 20
    that is ten requests a window, and requests that were rejected count
    against the window like the others. *)
Theorem burst_is_let_through_up_to_half_the_limit
    (g : Guard) (context : ExecutionContext) (o : RateLimitOptions)
    (rs : list GuardedRequest) (st : GuardState) :
  metadata context = Some o →
  (0 < windowMs o)%Z →
  Forall (λ r, jwt_ok r = true) rs →
  Forall (λ m, reply m = Replies) (moments_of rs) →
  within_one_window (windowMs o) (moments_of rs) →
  NoDup (member <$> moments_of rs) →
  all_stale (windowMs o) (guard_key g context) (redis st) (moments_of rs) →
  (pass_all g context rs st).1
    = (λ k, if bool_decide (2 * Z.of_nat k ≤ rl_limit o)%Z
            then LetThrough else Limited (rl_limit o) (windowMs o))
      <$> seq 1 (length rs).
Proof.
  intros Hmeta Hw Hjwt Hrep Hwin Hnd Hstale.
  rewrite (pass_all_run g context o rs st ∅); try done.
  - rewrite map_size_empty. apply list_fmap_ext. intros _ k _.
    destruct (decide (2 * Z.of_nat k ≤ rl_limit o)%Z).
    + rewrite bool_decide_eq_false_2 by lia.
      by rewrite bool_decide_eq_true_2.
    + rewrite bool_decide_eq_true_2 by lia.
      by rewrite bool_decide_eq_false_2.
  - by apply all_stale_in_window.
  - apply Forall_forall. intros b _. apply lookup_empty.
Qed.

Lemma burst_is_let_through_up_to_half_the_limit_witness :
  (pass_all GuardSample.guard GuardSample.context GuardSample.requests
            GuardSample.state).1
    = (λ k, if bool_decide (2 * Z.of_nat k ≤ rl_limit GuardSample.options)%Z
            then LetThrough
            else Limited (rl_limit GuardSample.options)
                         (windowMs GuardSample.options))
      <$> seq 1 (length GuardSample.requests).
Proof.
  apply (burst_is_let_through_up_to_half_the_limit
           GuardSample.guard GuardSample.context GuardSample.options
           GuardSample.requests GuardSample.state).
  - reflexivity.
  - reflexivity.
  - compute_done.
  - compute_done.
  - compute_done.
  - compute_done.
  - compute_done.
Defined.

(** ** Accounts: creating users, registering, logging in *)

Ltac unfold_AccM :=
  unfold mbind, AccM_MBind, AccM_bind, mret, AccM_MRet, AccM_ret, reject,
    ask, account_log, Bcrypt.hash, Bcrypt.compare, users_findOne,
    users_insert in *.

Lemma user_by_email_None email rows :
  user_by_email email rows = None ↔ email ∉ (row_email <$> rows).
Proof.
  unfold user_by_email. rewrite head_None. split.
  - intros H Hin. apply list_elem_of_fmap in Hin as (u & Hu & Hin).
    assert (u ∈ filter (λ u, bool_decide (row_email u = email)) rows) as Hx.
    { apply list_elem_of_filter. split; [|done].
      apply bool_decide_pack. done. }
    rewrite H in Hx. by apply not_elem_of_nil in Hx.
  - intros H.
    destruct (filter (λ u, bool_decide (row_email u = email)) rows)
      as [|u l] eqn:E; [done|].
    assert (u ∈ filter (λ u, bool_decide (row_email u = email)) rows) as Hx
      by (rewrite E; left).
    apply list_elem_of_filter in Hx as [Hu Hin].
    apply bool_decide_unpack in Hu.
    destruct H. apply list_elem_of_fmap. eauto.
Qed.

Lemma user_by_email_Some email rows u :
  user_by_email email rows = Some u → u ∈ rows ∧ row_email u = email.
Proof.
  unfold user_by_email. intros H. apply head_Some_elem_of in H.
  apply list_elem_of_filter in H as [Hu Hin].
  by apply bool_decide_unpack in Hu.
Qed.

Lemma user_by_email_fresh email rows u :
  email ∉ (row_email <$> rows) → row_email u = email →
  user_by_email email (rows ++ [u]) = Some u.
Proof.
  intros Hf Hu. unfold user_by_email. rewrite filter_app.
  pose proof (proj2 (user_by_email_None email rows) Hf) as Hn.
  unfold user_by_email in Hn. apply head_None in Hn. rewrite Hn.
  rewrite app_nil_l, (filter_cons (λ u, bool_decide (row_email u = email))).
  rewrite decide_True; [done|]. by apply bool_decide_pack.
Qed.

Lemma findByEmail_run email env w :
  ∃ w',
    UsersService.findByEmail email env w
      = (Resolved (user_by_email email (users w)), w') ∧
    users w' = users w ∧ salts w' = salts w.
Proof. unfold UsersService.findByEmail. unfold_AccM. cbn. by eexists. Qed.

Lemma UsersService_create_run dto env w :
  ∃ w',
    UsersService.create dto env w
      = (match user_by_email (cu_email dto) (users w) with
         | Some _ =>
             Rejected (HttpError BAD_REQUEST
                         "User with this email already exists.")
         | None =>
             if users_save_ok env
             then Resolved (new_UserResponseDto (created_row env w dto))
             else Rejected (SaveError "write failed")
         end, w') ∧
    users w'
      = (match user_by_email (cu_email dto) (users w) with
         | Some _ => users w
         | None =>
             if users_save_ok env then users w ++ [created_row env w dto]
             else users w
         end) ∧
    salts w'
      = (match user_by_email (cu_email dto) (users w) with
         | Some _ => salts w
         | None => S (salts w)
         end).
Proof.
  unfold UsersService.create. unfold_AccM. cbn.
  fold (user_by_email (cu_email dto) (users w)).
  destruct (user_by_email (cu_email dto) (users w)); cbn; [by eexists|].
  destruct (users_save_ok env); cbn; by eexists.
Qed.

Lemma login_run dto env w :
  ∃ w',
    AuthService.login dto env w
      = (match user_by_email (lg_email dto) (users w) with
         | None => Rejected invalid_credentials
         | Some u =>
             if bcrypt_compare env (lg_password dto) (row_password u)
             then Resolved (login_result env u)
             else Rejected invalid_credentials
         end, w') ∧
    users w' = users w.
Proof.
  unfold AuthService.login.
  unfold mbind at 1, AccM_MBind at 1, AccM_bind at 1.
  destruct (findByEmail_run (lg_email dto) env w) as (w1 & -> & Hu & _).
  rewrite <- Hu.
  destruct (user_by_email (lg_email dto) (users w1)) as [u|]; cbn.
  2:{ unfold_AccM. by eexists. }
  unfold_AccM. cbn.
  destruct (bcrypt_compare env (lg_password dto) (row_password u)); cbn;
    by eexists.
Qed.

Lemma NoDup_snoc_fresh {A} (l : list A) (x : A) :
  x ∉ l → NoDup l → NoDup (l ++ [x]).
Proof.
  intros Hx Hl. apply NoDup_app. split_and!; [done| |apply NoDup_singleton].
  intros y Hy Hy'. apply list_elem_of_singleton in Hy'. by subst.
Qed.

(** [UsersService.create] admits one user per address.  When it returns,
    no row had the address, the table gained exactly one row, with the
    DTO's address and name, with bcrypt's hash of the password under a
    fresh salt, and the answer describes that row; addresses that were
    pairwise different still are.  When it throws, the table is as it
    was, and the error is the BadRequestException about the address
    exactly when a row already had it. *)
Theorem UsersService_create_admits_one_user_per_email
    (dto : CreateUserDto) (env : AccountsEnv) (w : AccountsWorld) :
  match UsersService.create dto env w with
  | (Resolved r, w') =>
      (cu_email dto ∉ (row_email <$> users w)) ∧
      users w' = users w ++ [created_row env w dto] ∧
      r = new_UserResponseDto (created_row env w dto) ∧
      (NoDup (row_email <$> users w) → NoDup (row_email <$> users w'))
  | (Rejected e, w') =>
      users w' = users w ∧
      (cu_email dto ∈ (row_email <$> users w) ↔
       e = HttpError BAD_REQUEST "User with this email already exists.")
  end.
Proof.
  destruct (UsersService_create_run dto env w) as (w' & -> & Hu & _).
  destruct (user_by_email (cu_email dto) (users w)) as [u|] eqn:E.
  - split; [done|]. split; [done|]. intros _.
    apply user_by_email_Some in E as [Hin He].
    apply list_elem_of_fmap. eauto.
  - apply user_by_email_None in E.
    destruct (users_save_ok env).
    + split_and!; try done. intros Hnd. rewrite Hu, fmap_app. cbn.
      by apply NoDup_snoc_fresh.
    + split; [done|]. split; [done|discriminate].
Qed.

(** Logging in after [UsersService.create].  When the address is new and
    the database accepts the row, [create] returns, and a login with
    that address then succeeds exactly when bcrypt accepts the password
    given against the hash [create] stored: it answers with the new
    user's key, address and role and a token signed for them, or else
    with the UnauthorizedException; the table stays as [create] left
    it. *)
Theorem login_after_create
    (dto : CreateUserDto) (password : string)
    (env : AccountsEnv) (w : AccountsWorld) :
  cu_email dto ∉ (row_email <$> users w) →
  users_save_ok env = true →
  ∃ r w1 w2,
    UsersService.create dto env w = (Resolved r, w1) ∧
    AuthService.login (mkLoginDto (cu_email dto) password) env w1
      = (if bcrypt_compare env password
              (bcrypt_hash env (salts w) (cu_password dto))
         then Resolved (login_result env (created_row env w dto))
         else Rejected invalid_credentials, w2) ∧
    users w2 = users w1.
Proof.
  intros Hfresh Hs.
  destruct (UsersService_create_run dto env w) as (w1 & Hc & Hu & _).
  rewrite (proj2 (user_by_email_None _ _) Hfresh), Hs in Hc, Hu.
  destruct (login_run (mkLoginDto (cu_email dto) password) env w1)
    as (w2 & Hl & Hu2).
  cbn [lg_email lg_password] in Hl.
  rewrite Hu, (user_by_email_fresh _ _ (created_row env w dto) Hfresh eq_refl)
    in Hl.
  by eexists _, w1, w2.
Qed.

Lemma login_after_create_witness :
  ∃ r w1 w2,
    UsersService.create AccountsSample.carol AccountsSample.env
                        AccountsSample.world = (Resolved r, w1) ∧
    AuthService.login
        (mkLoginDto (cu_email AccountsSample.carol) "pa55word")
        AccountsSample.env w1
      = (if bcrypt_compare AccountsSample.env "pa55word"
              (bcrypt_hash AccountsSample.env (salts AccountsSample.world)
                           (cu_password AccountsSample.carol))
         then Resolved (login_result AccountsSample.env
                          (created_row AccountsSample.env AccountsSample.world
                                       AccountsSample.carol))
         else Rejected invalid_credentials, w2) ∧
    users w2 = users w1.
Proof.
  apply (login_after_create AccountsSample.carol "pa55word"
           AccountsSample.env AccountsSample.world).
  - compute_done.
  - reflexivity.
Defined.

Lemma register_run dto env w :
  ∃ w',
    AuthService.register dto env w
      = (match user_by_email (rg_email dto) (users w) with
         | Some _ => Rejected (HttpError CONFLICT "Email already registered")
         | None =>
             if users_save_ok env
             then
               let row := created_row env (salted w) (registered_dto env w dto) in
               Resolved
                 (mkRegisterResult
                    (jwt_sign env
                       (mkJwtPayload (row_id row) (row_email row) (row_role row))
                       (Some "1h"))
                    (new_UserResponseDto row))
             else Rejected (SaveError "write failed")
         end, w') ∧
    users w'
      = (match user_by_email (rg_email dto) (users w) with
         | Some _ => users w
         | None =>
             if users_save_ok env
             then users w
                  ++ [created_row env (salted w) (registered_dto env w dto)]
             else users w
         end).
Proof.
  unfold AuthService.register.
  unfold mbind at 1, AccM_MBind at 1, AccM_bind at 1.
  destruct (findByEmail_run (rg_email dto) env w) as (w1 & -> & Hu & Hsalt).
  destruct (user_by_email (rg_email dto) (users w)) as [u|] eqn:E; cbn.
  { unfold_AccM. by eexists. }
  unfold mbind at 1, AccM_MBind at 1, AccM_bind at 1, Bcrypt.hash at 1.
  unfold mbind at 1, AccM_MBind at 1, AccM_bind at 1.
  match goal with
  | |- context [UsersService.create ?d env ?w0] =>
      destruct (UsersService_create_run d env w0) as (w2 & -> & Hu2 & _)
  end.
  cbn [cu_email users salts] in Hu2 |- *. rewrite Hu, Hsalt in Hu2 |- *.
  rewrite E in Hu2 |- *.
  assert (Hrow :
    created_row env (mkAccountsWorld (users w) (S (salts w)) (account_logs w1))
      (mkCreateUserDto (rg_email dto) (rg_name dto)
         (bcrypt_hash env (salts w) (rg_password dto)) (rg_role dto))
    = created_row env (salted w) (registered_dto env w dto)) by done.
  rewrite Hrow in Hu2 |- *.
  destruct (users_save_ok env); cbn.
  - unfold AuthService.generateToken. unfold_AccM. cbn. by eexists.
  - by eexists.
Qed.

(** [register] stores a hash of a hash.  When it returns, no row had the
    address and the table gained one row whose password is bcrypt's hash
    of the hash [register] had already made of the password, since
    [UsersService.create] hashes what it is given; the answer carries
    the new row's key, address, name and role and a token for them that
    expires in an hour.  When it throws, the table is as it was, and the
    error is the ConflictException exactly when a row already had the
    address. *)
Theorem register_stores_a_hash_of_the_hash
    (dto : RegisterDto) (env : AccountsEnv) (w : AccountsWorld) :
  match AuthService.register dto env w with
  | (Resolved r, w') =>
      (rg_email dto ∉ (row_email <$> users w)) ∧
      ∃ row,
        users w' = users w ++ [row] ∧
        row_email row = rg_email dto ∧ row_name row = rg_name dto ∧
        row_password row
          = bcrypt_hash env (S (salts w))
              (bcrypt_hash env (salts w) (rg_password dto)) ∧
        register_user r = new_UserResponseDto row ∧
        register_token r
          = jwt_sign env
              (mkJwtPayload (row_id row) (row_email row) (row_role row))
              (Some "1h")
  | (Rejected e, w') =>
      users w' = users w ∧
      (rg_email dto ∈ (row_email <$> users w) ↔
       e = HttpError CONFLICT "Email already registered")
  end.
Proof.
  destruct (register_run dto env w) as (w' & -> & Hu).
  destruct (user_by_email (rg_email dto) (users w)) as [u|] eqn:E.
  - split; [done|]. split; [done|]. intros _.
    apply user_by_email_Some in E as [Hin He].
    apply list_elem_of_fmap. eauto.
  - apply user_by_email_None in E.
    destruct (users_save_ok env).
    + split; [done|]. eexists. split_and!; [exact Hu|done..].
    + split; [done|]. split; [done|discriminate].
Qed.

(** Logging in after [register].  When the address is new and the
    database accepts the row, [register] returns, and a login with that
    address then succeeds exactly when bcrypt accepts the password given
    against the hash of the hash of the registered password: the
    comparison is made with what [register] stored, not with a hash of
    the password itself. *)
Theorem login_after_register
    (dto : RegisterDto) (password : string)
    (env : AccountsEnv) (w : AccountsWorld) :
  rg_email dto ∉ (row_email <$> users w) →
  users_save_ok env = true →
  ∃ r w1 w2 row,
    AuthService.register dto env w = (Resolved r, w1) ∧
    users w1 = users w ++ [row] ∧
    AuthService.login (mkLoginDto (rg_email dto) password) env w1
      = (if bcrypt_compare env password
              (bcrypt_hash env (S (salts w))
                 (bcrypt_hash env (salts w) (rg_password dto)))
         then Resolved (login_result env row)
         else Rejected invalid_credentials, w2) ∧
    users w2 = users w1.
Proof.
  intros Hfresh Hs.
  destruct (register_run dto env w) as (w1 & Hr & Hu).
  rewrite (proj2 (user_by_email_None _ _) Hfresh), Hs in Hr, Hu.
  destruct (login_run (mkLoginDto (rg_email dto) password) env w1)
    as (w2 & Hl & Hu2).
  cbn [lg_email lg_password] in Hl.
  rewrite Hu,
    (user_by_email_fresh _ _
       (created_row env (salted w) (registered_dto env w dto)) Hfresh eq_refl)
    in Hl.
  eexists _, w1, w2, _. split_and!; [exact Hr|exact Hu|exact Hl|exact Hu2].
Qed.

Lemma login_after_register_witness :
  ∃ r w1 w2 row,
    AuthService.register AccountsSample.dave AccountsSample.env
                         AccountsSample.world = (Resolved r, w1) ∧
    users w1 = users AccountsSample.world ++ [row] ∧
    AuthService.login
        (mkLoginDto (rg_email AccountsSample.dave) "pa55word")
        AccountsSample.env w1
      = (if bcrypt_compare AccountsSample.env "pa55word"
              (bcrypt_hash AccountsSample.env
                 (S (salts AccountsSample.world))
                 (bcrypt_hash AccountsSample.env (salts AccountsSample.world)
                              (rg_password AccountsSample.dave)))
         then Resolved (login_result AccountsSample.env row)
         else Rejected invalid_credentials, w2) ∧
    users w2 = users w1.
Proof.
  apply (login_after_register AccountsSample.dave "pa55word"
           AccountsSample.env AccountsSample.world).
  - compute_done.
  - reflexivity.
Defined.

(** [validateUserRoles] answers only for a user that exists.  When it
    returns, a row has the key and the answer says whether the role of
    the first such row is among the required ones.  For a key that no
    row has it does not answer [false]: [findOne] throws the
    NotFoundException.  It changes nothing in the table. *)
Theorem validateUserRoles_throws_for_a_missing_user
    (userId : string) (requiredRoles : list string)
    (env : AccountsEnv) (w : AccountsWorld) :
  match AuthService.validateUserRoles userId requiredRoles env w with
  | (Resolved b, w') =>
      (∃ u, u ∈ users w ∧ row_id u = userId ∧
            b = bool_decide (row_role u ∈ requiredRoles)) ∧
      users w' = users w
  | (Rejected e, w') =>
      (userId ∉ (row_id <$> users w)) ∧
      e = HttpError NOT_FOUND ("User with ID " +:+ userId +:+ " not found") ∧
      users w' = users w
  end.
Proof.
  unfold AuthService.validateUserRoles, UsersService.findOne.
  unfold_AccM. cbn.
  destruct (filter (λ u, bool_decide (row_id u = userId)) (users w))
    as [|u l] eqn:E; cbn.
  - split_and!; try done. intros Hin.
    apply list_elem_of_fmap in Hin as (u & Hu & Hin).
    assert (u ∈ filter (λ u, bool_decide (row_id u = userId)) (users w)) as Hx.
    { apply list_elem_of_filter. split; [|done]. by apply bool_decide_pack. }
    rewrite E in Hx. by apply not_elem_of_nil in Hx.
  - split; [|done]. exists u.
    assert (u ∈ filter (λ u, bool_decide (row_id u = userId)) (users w)) as Hx
      by (rewrite E; left).
    apply list_elem_of_filter in Hx as [Hu Hin].
    apply bool_decide_unpack in Hu. done.
Qed.
